(** * Route planner: animation timeline, route timing, path rendering and export

    A shallow embedding of the animation and export code of the route
    planner, and what it guarantees:

    - [Easing], [Timeline], [RouteTiming], [Capture], [ClientExport] and
      [PathRenderer] embed the client-side [VideoGenerator]
      (js/videoGenerator.js): the easing table, playback and seeking, the
      timing window of each route, the frame capture, the export with its
      fallbacks, and the stroke of a partially drawn route;
    - [Server] embeds the handler of [POST /video] and the [VideoProcessor]
      behind it;
    - [MapCanvas] embeds the constructor of branch routes;
    - [Binary64] embeds the arithmetic of the frame capture and of the
      playback clock on doubles;
    - [Viewport] and [Editing] embed the zoom of the editing canvas and the
      editing of its routes (erase, visibility), [Geometry] the placement
      of the map in the preview and the path the server draws,
      [ServerRender] the animation of the server, [Jobs] the job summaries
      with the status and download handlers and the polls of the two
      clients, [Controls] the timeline controls and [DrawOrder] the order
      and the range of the strokes of the preview.

    Numbers.  A JavaScript number is an IEEE-754 double.  The embedding keeps
    the special values ([Infinity], [-Infinity], [NaN]) and reads every
    finite double as the exact rational it denotes: rounding and the sign of
    zero are not modelled (a zero divisor is taken as [+0]).  The timing code
    uses only field operations and comparisons and is embedded over [Q], so
    that it evaluates; the path geometry takes square roots and is embedded
    over [R].  Where a result depends on the rounding, a position or a
    progress is stated as the expression the code computes and not as its
    exact value, and the frame capture, whose number of frames is the
    ceiling of a rounded product, is also embedded over the doubles
    themselves, in [Binary64].

    Effects.  The mutable fields of the generator are a record that every
    operation takes and returns; a call of [renderFrame] is recorded in it.
    What the environment decides (the clock, a canvas read that throws, the
    recorder, the encoder, the file system) is an argument of the operation
    it enters.  A promise of the browser is given by how it ends: resolved,
    rejected, or pending for ever; a loop that does not end leaves the state
    it keeps. *)

From Stdlib Require Import QArith Qround ZArith Lia Psatz Reals List String Bool.
From Stdlib Require Import Qabs Permutation Sorted.
From Stdlib Require Floats.
Import ListNotations.

(** ** JavaScript numbers *)

Module JsNum.

Local Open Scope Q_scope.

Inductive num : Type :=
| Fin (q : Q)
| PInf
| NInf
| NaN.

(** Equality of numbers up to the representation of the rational. *)
Definition num_eq (a b : num) : Prop :=
  match a, b with
  | Fin x, Fin y => x == y
  | PInf, PInf => True
  | NInf, NInf => True
  | NaN, NaN => True
  | _, _ => False
  end.

Definition isNaN (a : num) : bool :=
  match a with NaN => true | _ => false end.

Definition Qlt_bool (x y : Q) : bool := negb (Qle_bool y x).

(** Sign of a finite value; zero counts as positive zero. *)
Definition inf_of_sign (c : comparison) : num :=
  match c with Gt => PInf | Lt => NInf | Eq => NaN end.

Definition flip (c : comparison) : comparison := CompOpp c.

Definition jadd (a b : num) : num :=
  match a, b with
  | NaN, _ | _, NaN => NaN
  | Fin x, Fin y => Fin (x + y)
  | PInf, NInf | NInf, PInf => NaN
  | PInf, _ | _, PInf => PInf
  | NInf, _ | _, NInf => NInf
  end.

Definition jsub (a b : num) : num :=
  match a, b with
  | NaN, _ | _, NaN => NaN
  | Fin x, Fin y => Fin (x - y)
  | PInf, PInf | NInf, NInf => NaN
  | PInf, _ | _, NInf => PInf
  | NInf, _ | _, PInf => NInf
  end.

Definition jmul (a b : num) : num :=
  match a, b with
  | NaN, _ | _, NaN => NaN
  | Fin x, Fin y => Fin (x * y)
  | Fin x, PInf | PInf, Fin x => inf_of_sign (x ?= 0)
  | Fin x, NInf | NInf, Fin x => inf_of_sign (flip (x ?= 0))
  | PInf, PInf | NInf, NInf => PInf
  | PInf, NInf | NInf, PInf => NInf
  end.

Definition jdiv (a b : num) : num :=
  match a, b with
  | NaN, _ | _, NaN => NaN
  | Fin x, Fin y =>
      if Qeq_bool y 0 then inf_of_sign (x ?= 0) else Fin (x / y)
  | Fin _, PInf | Fin _, NInf => Fin 0
  | PInf, Fin y => if Qle_bool 0 y then PInf else NInf
  | NInf, Fin y => if Qle_bool 0 y then NInf else PInf
  | _, _ => NaN
  end.

(** Relational operators: every comparison with [NaN] is false. *)
Definition jle (a b : num) : bool :=
  match a, b with
  | NaN, _ | _, NaN => false
  | Fin x, Fin y => Qle_bool x y
  | NInf, _ => true
  | _, PInf => true
  | _, _ => false
  end.

Definition jlt (a b : num) : bool :=
  match a, b with
  | NaN, _ | _, NaN => false
  | Fin x, Fin y => Qlt_bool x y
  | NInf, NInf | PInf, PInf => false
  | NInf, _ => true
  | _, PInf => true
  | _, _ => false
  end.

Definition jge (a b : num) : bool := jle b a.

(** [Math.min] and [Math.max]: [NaN] as soon as one argument is [NaN]. *)
Definition jmin (a b : num) : num :=
  match a, b with
  | NaN, _ | _, NaN => NaN
  | _, _ => if jle a b then a else b
  end.

Definition jmax (a b : num) : num :=
  match a, b with
  | NaN, _ | _, NaN => NaN
  | _, _ => if jle a b then b else a
  end.

(** [Math.ceil] and [Math.floor]. *)
Definition jceil (a : num) : num :=
  match a with Fin x => Fin (inject_Z (Qceiling x)) | _ => a end.

Definition jfloor (a : num) : num :=
  match a with Fin x => Fin (inject_Z (Qfloor x)) | _ => a end.

(** ToBoolean on a number: [0] and [NaN] are falsy. *)
Definition truthy (a : num) : bool :=
  match a with
  | Fin x => negb (Qeq_bool x 0)
  | NaN => false
  | _ => true
  end.

(** [v || d] where [v] is a number or [undefined] ([None]). *)
Definition or_default (v : option num) (d : num) : num :=
  match v with
  | Some a => if truthy a then a else d
  | None => d
  end.

Definition of_Z (z : Z) : num := Fin (inject_Z z).

End JsNum.

Import JsNum.

Declare Scope js_scope.
Delimit Scope js_scope with js.
Bind Scope js_scope with num.
Infix "+" := jadd : js_scope.
Infix "-" := jsub : js_scope.
Infix "*" := jmul : js_scope.
Infix "/" := jdiv : js_scope.
Infix "=n=" := num_eq (at level 70, no associativity).

Local Open Scope Q_scope.
Local Open Scope string_scope.

(** ** Easing library (videoGenerator.js, constructor)

    [this.easingFunctions] is an object literal with eight function-valued
    properties. *)

Module Easing.

Definition linear (t : num) : num := t.

Definition easeInQuad (t : num) : num := (t * t)%js.

Definition easeOutQuad (t : num) : num := (t * (Fin 2 - t))%js.

Definition easeInOutQuad (t : num) : num :=
  if jlt t (Fin 0.5) then (Fin 2 * t * t)%js
  else (Fin (-1) + (Fin 4 - Fin 2 * t) * t)%js.

Definition easeInCubic (t : num) : num := (t * t * t)%js.

(** [(--t) * t * t + 1]: the decrement is applied first, and the two later
    reads of [t] see the decremented value. *)
Definition easeOutCubic (t : num) : num :=
  let t' := (t - Fin 1)%js in (t' * t' * t' + Fin 1)%js.

Definition easeInOutCubic (t : num) : num :=
  if jlt t (Fin 0.5) then (Fin 4 * t * t * t)%js
  else ((t - Fin 1) * (Fin 2 * t - Fin 2) * (Fin 2 * t - Fin 2) + Fin 1)%js.

Definition easeInOut (t : num) : num :=
  if jlt t (Fin 0.5) then (Fin 2 * t * t)%js
  else (Fin (-1) + (Fin 4 - Fin 2 * t) * t)%js.

(** The two piecewise functions on a finite argument, as rationals. *)
Definition inOutQuad (q : Q) : Q :=
  if Qlt_bool q 0.5 then 2 * q * q else -1 + (4 - 2 * q) * q.

Definition inOutCubic (q : Q) : Q :=
  if Qlt_bool q 0.5 then 4 * q * q * q
  else (q - 1) * (2 * q - 2) * (2 * q - 2) + 1.

(** The own properties of the table, in source order. *)
Definition easingFunctions : list (string * (num -> num)) :=
  [ ("linear", linear);
    ("easeInQuad", easeInQuad);
    ("easeOutQuad", easeOutQuad);
    ("easeInOutQuad", easeInOutQuad);
    ("easeInCubic", easeInCubic);
    ("easeOutCubic", easeOutCubic);
    ("easeInOutCubic", easeInOutCubic);
    ("easeInOut", easeInOut) ].

(** The table is a plain object: a property read that finds no own property
    continues in [Object.prototype].  These are its members. *)
Definition objectPrototypeKeys : list string :=
  [ "constructor"; "hasOwnProperty"; "isPrototypeOf";
    "propertyIsEnumerable"; "toLocaleString"; "toString"; "valueOf";
    "__proto__"; "__defineGetter__"; "__defineSetter__";
    "__lookupGetter__"; "__lookupSetter__" ].

(** What a property read of the table can yield. *)
Inductive property : Type :=
| EasingFn (f : num -> num)
| ObjectPrototypeMember (key : string).

Fixpoint ownProperty (name : string) (tbl : list (string * (num -> num)))
  : option (num -> num) :=
  match tbl with
  | [] => None
  | (k, f) :: rest => if String.eqb name k then Some f else ownProperty name rest
  end.

Definition inherited (name : string) : bool :=
  existsb (String.eqb name) objectPrototypeKeys.

(** [this.easingFunctions[name]]; [None] is [undefined]. *)
Definition getProperty (name : string) : option property :=
  match ownProperty name easingFunctions with
  | Some f => Some (EasingFn f)
  | None => if inherited name then Some (ObjectPrototypeMember name) else None
  end.

(** [this.easingFunctions[name] || this.easingFunctions.linear]: functions
    and objects are truthy, [undefined] is not. *)
Definition selectEasing (name : string) : property :=
  match getProperty name with
  | Some p => p
  | None => EasingFn linear
  end.

(** What calling an inherited member as [easingFunc(t)] amounts to in the
    arithmetic of [drawRoutesAtProgress].  [constructor] is [Object], which
    wraps its argument in a [Number] object that every comparison and
    operation converts back to the number; [isPrototypeOf] answers [false]
    for a number, which converts to 0.  The other members give no number:
    [toString] returns the string ["[object Undefined]"], with which the
    comparison [easedProgress >= routeStart] fails for every route,
    [__proto__] is no function, and the rest throw a [TypeError] on the
    receiver [undefined]; with them no route is drawn ([None]). *)
Definition memberAsEasing (key : string) : option (num -> num) :=
  if String.eqb key "constructor" then Some (fun t => t)
  else if String.eqb key "isPrototypeOf" then Some (fun _ => Fin 0)
  else None.

(** Whether the call [easingFunc(progress)] of the selected property
    throws: a function of the table does not, and of the inherited members
    [constructor], [isPrototypeOf] and [toString] return a value. *)
Definition callThrows (name : string) : bool :=
  match selectEasing name with
  | EasingFn _ => false
  | ObjectPrototypeMember key =>
      negb (String.eqb key "constructor" || String.eqb key "isPrototypeOf"
            || String.eqb key "toString")
  end.

(** The names the specification calls the supported set. *)
Definition supported (name : string) : bool :=
  existsb (String.eqb name) (map fst easingFunctions).

End Easing.

(** Values in the unit interval. *)
Definition in_unit (a : num) : Prop :=
  jle (Fin 0) a = true /\ jle a (Fin 1) = true.

(** What the specification asks of an easing function. *)
Record easing_law (f : num -> num) : Prop := {
  easing_range : forall t, in_unit t -> in_unit (f t);
  easing_zero : f (Fin 0) =n= Fin 0;
  easing_one : f (Fin 1) =n= Fin 1;
  easing_mono : forall t u, in_unit t -> in_unit u ->
                            jle t u = true -> jle (f t) (f u) = true
}.

(** ** Routes, as the animation code reads them *)

Record waypoint : Type := { wp_x : num; wp_y : num }.

(** [route.animation]; a field that is absent reads as [undefined]. *)
Record animation : Type := {
  duration : option num;
  easing : string;
  delay : option num
}.

Record route : Type := {
  route_id : string;
  route_name : string;
  waypoints : list waypoint;
  visible : bool;
  route_animation : option animation;
  parentRoute : option string
}.

(** [route.animation?.delay] and [route.animation?.duration]. *)
Definition animation_delay (r : route) : option num :=
  match route_animation r with Some a => delay a | None => None end.

Definition animation_duration (r : route) : option num :=
  match route_animation r with Some a => duration a | None => None end.

(** ** Timeline model ([VideoGenerator] state and playback operations) *)

Module Timeline.

(** One call of [renderFrame(progress)]: the progress it was given and
    whether the generator was in export mode, which decides whether
    waypoint markers are painted. *)
Record render_call : Type := {
  render_progress : num;
  render_exporting : bool
}.

Record state : Type := {
  hasPreviewCanvas : bool;        (* this.previewCanvas is set *)
  hasScene : bool;                (* window.app has a map image and a route:
                                     renderFrame gets to draw the routes *)
  isPlaying : bool;
  currentTime : num;
  totalDuration : num;
  playbackSpeed : num;
  easingFunction : string;
  scheduled : option num;         (* pending animation callback, with the
                                     start reference its closure captured *)
  exportProgress : num;
  isExporting : bool;
  rendered : list render_call     (* calls of renderFrame so far *)
}.

Definition set_playing (b : bool) (s : state) : state :=
  {| hasPreviewCanvas := hasPreviewCanvas s; hasScene := hasScene s;
     isPlaying := b;
     currentTime := currentTime s; totalDuration := totalDuration s;
     playbackSpeed := playbackSpeed s; easingFunction := easingFunction s;
     scheduled := scheduled s; exportProgress := exportProgress s;
     isExporting := isExporting s; rendered := rendered s |}.

Definition set_time (t : num) (s : state) : state :=
  {| hasPreviewCanvas := hasPreviewCanvas s; hasScene := hasScene s;
     isPlaying := isPlaying s;
     currentTime := t; totalDuration := totalDuration s;
     playbackSpeed := playbackSpeed s; easingFunction := easingFunction s;
     scheduled := scheduled s; exportProgress := exportProgress s;
     isExporting := isExporting s; rendered := rendered s |}.

Definition set_scheduled (c : option num) (s : state) : state :=
  {| hasPreviewCanvas := hasPreviewCanvas s; hasScene := hasScene s;
     isPlaying := isPlaying s;
     currentTime := currentTime s; totalDuration := totalDuration s;
     playbackSpeed := playbackSpeed s; easingFunction := easingFunction s;
     scheduled := c; exportProgress := exportProgress s;
     isExporting := isExporting s; rendered := rendered s |}.

Definition set_exportProgress (p : num) (s : state) : state :=
  {| hasPreviewCanvas := hasPreviewCanvas s; hasScene := hasScene s;
     isPlaying := isPlaying s;
     currentTime := currentTime s; totalDuration := totalDuration s;
     playbackSpeed := playbackSpeed s; easingFunction := easingFunction s;
     scheduled := scheduled s; exportProgress := p;
     isExporting := isExporting s; rendered := rendered s |}.

Definition set_exporting (b : bool) (s : state) : state :=
  {| hasPreviewCanvas := hasPreviewCanvas s; hasScene := hasScene s;
     isPlaying := isPlaying s;
     currentTime := currentTime s; totalDuration := totalDuration s;
     playbackSpeed := playbackSpeed s; easingFunction := easingFunction s;
     scheduled := scheduled s; exportProgress := exportProgress s;
     isExporting := b; rendered := rendered s |}.

(** [renderFrame(progress)] paints the preview canvas; the embedding records
    the call.  The call can throw, and a caller that has statements after
    it does not reach them then (see [animate]). *)
Definition renderFrame (progress : num) (s : state) : state :=
  {| hasPreviewCanvas := hasPreviewCanvas s; hasScene := hasScene s;
     isPlaying := isPlaying s;
     currentTime := currentTime s; totalDuration := totalDuration s;
     playbackSpeed := playbackSpeed s; easingFunction := easingFunction s;
     scheduled := scheduled s; exportProgress := exportProgress s;
     isExporting := isExporting s;
     rendered := rendered s ++
       [ {| render_progress := progress;
            render_exporting := isExporting s |} ] |}.

(** Whether [renderFrame] throws a [TypeError]: without a preview canvas
    there is no drawing context, and it does, at its first canvas
    operation; with a canvas it does when it gets to draw the routes and
    the easing name selects a property that cannot be called. *)
Definition renderFrameThrows (s : state) : bool :=
  negb (hasPreviewCanvas s)
  || (hasScene s && Easing.callThrows (easingFunction s)).

(** The closure [animate] of [startAnimation], with the [startTime] it
    captured; [now] is the value [Date.now()] returns in it.  When
    [renderFrame] throws, the callback ends there and requests no further
    animation frame. *)
Definition animate (startTime now : num) (s : state) : state :=
  if negb (isPlaying s) then s
  else
    let s1 := set_time ((now - startTime) * playbackSpeed s)%js s in
    let s2 :=
      if jge (currentTime s1) (totalDuration s1)
      then set_playing false (set_time (totalDuration s1) s1)
      else s1 in
    let progress := (currentTime s2 / totalDuration s2)%js in
    let s3 := renderFrame progress s2 in
    if renderFrameThrows s then s3
    else if isPlaying s3 then set_scheduled (Some startTime) s3 else s3.

(** [startAnimation]: [now0] is read for the start reference, [now1] by the
    first, synchronous run of [animate]. *)
Definition startAnimation (now0 now1 : num) (s : state) : state :=
  let startTime := (now0 - currentTime s / playbackSpeed s)%js in
  animate startTime now1 s.

Definition playPreview (now0 now1 : num) (s : state) : state :=
  if isPlaying s then s
  else startAnimation now0 now1 (set_playing true s).

(** [cancelAnimationFrame] drops the pending callback. *)
Definition pausePreview (s : state) : state :=
  set_scheduled None (set_playing false s).

Definition stopPreview (s : state) : state :=
  renderFrame (Fin 0)
    (set_scheduled None (set_time (Fin 0) (set_playing false s))).

Definition seekTo (time : num) (s : state) : state :=
  let s1 := set_time (jmax (Fin 0) (jmin time (totalDuration s))) s in
  let progress := (currentTime s1 / totalDuration s1)%js in
  renderFrame progress s1.

Definition updatePreview (s : state) : state :=
  if negb (isPlaying s)
  then renderFrame (currentTime s / totalDuration s)%js s
  else s.

Definition setDuration (d : num) (s : state) : state :=
  {| hasPreviewCanvas := hasPreviewCanvas s; hasScene := hasScene s;
     isPlaying := isPlaying s;
     currentTime := currentTime s; totalDuration := d;
     playbackSpeed := playbackSpeed s; easingFunction := easingFunction s;
     scheduled := scheduled s; exportProgress := exportProgress s;
     isExporting := isExporting s; rendered := rendered s |}.

(** The change handler of the easing select:
    [this.easingFunction = e.target.value; this.updatePreview()]. *)
Definition setEasing (name : string) (s : state) : state :=
  updatePreview
    {| hasPreviewCanvas := hasPreviewCanvas s; hasScene := hasScene s;
       isPlaying := isPlaying s;
       currentTime := currentTime s; totalDuration := totalDuration s;
       playbackSpeed := playbackSpeed s; easingFunction := name;
       scheduled := scheduled s; exportProgress := exportProgress s;
       isExporting := isExporting s; rendered := rendered s |}.

(** The browser runs the pending animation callback. *)
Definition tick (now : num) (s : state) : state :=
  match scheduled s with
  | Some startTime => animate startTime now (set_scheduled None s)
  | None => s
  end.

(** The timeline operations of the specification. *)
Inductive operation : Type :=
| Play (now0 now1 : num)
| Pause
| Stop
| Seek (time : num)
| Tick (now : num).

Definition apply (op : operation) (s : state) : state :=
  match op with
  | Play now0 now1 => playPreview now0 now1 s
  | Pause => pausePreview s
  | Stop => stopPreview s
  | Seek time => seekTo time s
  | Tick now => tick now s
  end.

(** [0 <= currentTime <= totalDuration]. *)
Definition time_in_range (s : state) : Prop :=
  jle (Fin 0) (currentTime s) = true /\
  jle (currentTime s) (totalDuration s) = true.

(** What the environment is assumed to respect when it runs an operation:
    a seek position is a number, the clock does not run backwards, and the
    playback speed is positive (not negative for a tick). *)
Definition admissible (s : state) (op : operation) : Prop :=
  match op with
  | Seek time => isNaN time = false
  | Play now0 now1 =>
      exists a b v, now0 = Fin a /\ now1 = Fin b /\ a <= b /\
                    playbackSpeed s = Fin v /\ 0 < v
  | Tick now =>
      forall startTime, scheduled s = Some startTime ->
      exists a b v, startTime = Fin a /\ now = Fin b /\ a <= b /\
                    playbackSpeed s = Fin v /\ 0 <= v
  | Pause | Stop => True
  end.

(** The global progress the code passes to [renderFrame]. *)
Definition globalProgress (s : state) : num :=
  (currentTime s / totalDuration s)%js.

(** The state a fresh [VideoGenerator] starts in, once its canvas is set. *)
Definition initial : state :=
  {| hasPreviewCanvas := true; hasScene := false;
     isPlaying := false; currentTime := Fin 0;
     totalDuration := Fin 5000; playbackSpeed := Fin 1;
     easingFunction := "easeInOutCubic"; scheduled := None;
     exportProgress := Fin 0; isExporting := false; rendered := [] |}.

End Timeline.

(** ** Route timing ([drawRoutesAtProgress]) *)

Module RouteTiming.

(** The comparator of the sort, [(a.animation?.delay || 0) -
    (b.animation?.delay || 0)], is negative. *)
Definition delay_before (a b : route) : bool :=
  jlt (or_default (animation_delay a) (Fin 0)
       - or_default (animation_delay b) (Fin 0))%js (Fin 0).

(** [routes.slice().sort(...)]: the sort is stable, an element is placed in
    front of the first one it is strictly before. *)
Fixpoint insert_route (r : route) (sorted : list route) : list route :=
  match sorted with
  | [] => [r]
  | x :: rest =>
      if delay_before r x then r :: x :: rest
      else x :: insert_route r rest
  end.

Definition sortByDelay (routes : list route) : list route :=
  fold_left (fun acc r => insert_route r acc) routes [].

(** The guard at the head of the loop body. *)
Definition skipped (r : route) : bool :=
  negb (visible r) || (List.length (waypoints r) <? 2)%nat.

Definition routeStart (total : num) (r : route) : num :=
  (or_default (animation_delay r) (Fin 0) / total)%js.

Definition routeDuration (total : num) (r : route) : num :=
  (or_default (animation_duration r) (Fin 3000) / total)%js.

Definition routeEnd (total : num) (r : route) : num :=
  (routeStart total r + routeDuration total r)%js.

(** [rawRouteProgress] of the loop body; [None] when the route is skipped
    or has not started, in which case nothing is drawn for it. *)
Definition rawRouteProgress (total easedProgress : num) (r : route)
  : option num :=
  if skipped r then None
  else if jge easedProgress (routeStart total r)
  then Some (jmin (Fin 1)
               ((easedProgress - routeStart total r) / routeDuration total r)%js)
  else None.

(** One call [drawRouteProgress(route, easedRouteProgress)]. *)
Record draw_call : Type := {
  drawn_route : route;
  drawn_progress : num
}.

Definition drawRoute (easingFunc : num -> num) (total easedProgress : num)
  (r : route) : option draw_call :=
  match rawRouteProgress total easedProgress r with
  | Some raw => Some {| drawn_route := r; drawn_progress := easingFunc raw |}
  | None => None
  end.

Fixpoint forEachRoute (easingFunc : num -> num) (total easedProgress : num)
  (routes : list route) : list draw_call :=
  match routes with
  | [] => []
  | r :: rest =>
      match drawRoute easingFunc total easedProgress r with
      | Some c => c :: forEachRoute easingFunc total easedProgress rest
      | None => forEachRoute easingFunc total easedProgress rest
      end
  end.

(** [drawRoutesAtProgress(routes, progress)]: the calls of
    [drawRouteProgress] it makes.  [None] when the property read yields a
    member of [Object.prototype] that gives no number: then no route is
    drawn. *)
Definition drawRoutesAtProgress (s : Timeline.state) (routes : list route)
  (progress : num) : option (list draw_call) :=
  let draw := fun easingFunc : num -> num =>
    let easedProgress := easingFunc progress in
    forEachRoute easingFunc (Timeline.totalDuration s) easedProgress
      (sortByDelay routes) in
  match Easing.selectEasing (Timeline.easingFunction s) with
  | Easing.EasingFn easingFunc => Some (draw easingFunc)
  | Easing.ObjectPrototypeMember key =>
      match Easing.memberAsEasing key with
      | Some easingFunc => Some (draw easingFunc)
      | None => None
      end
  end.

(** [visibleWaypoints] of [drawProgressiveWaypoints]: how many waypoint
    markers are painted; none in export mode. *)
Definition visibleWaypoints (exporting : bool) (totalWaypoints : Z)
  (progress : num) : num :=
  if exporting then Fin 0
  else jmin (of_Z totalWaypoints)
            (jfloor (of_Z totalWaypoints * progress)%js + Fin 1)%js.

(** The local progress of section 4.3 of the specification, in its words:
    [0] up to [routeStart], [1] from [routeEnd], linear in between. *)
Definition spec_localProgress (delayMs durationMs totalDurationMs p : Q) : Q :=
  let routeStart := delayMs / totalDurationMs in
  let routeEnd := routeStart + durationMs / totalDurationMs in
  if Qle_bool p routeStart then 0
  else if Qle_bool routeEnd p then 1
  else (p - routeStart) / (routeEnd - routeStart).

End RouteTiming.

(** ** Frame producer ([captureAnimationFrames]) *)

Module Capture.

Import Timeline.

(** A captured frame: the canvas as [renderFrame(progress)] left it, taken
    at timeline position [timeMs]. *)
Record frame : Type := {
  frame_index : Z;
  frame_timeMs : num;
  frame_progress : num
}.

Inductive outcome (A : Type) : Type :=
| Returned (a : A)
| Threw (message : string)
| Diverged.

Arguments Returned {A} a.
Arguments Threw {A} message.
Arguments Diverged {A}.

(** How often the body of [for (i = 0; i < totalFrames; i++)] runs; [None]
    when the bound is [Infinity]. *)
Definition iterations (totalFrames : num) : option nat :=
  match totalFrames with
  | Fin q => Some (Z.to_nat (Qceiling q))
  | PInf => None
  | NInf | NaN => Some 0%nat
  end.

Definition totalFrames (fps : num) (s : state) : num :=
  jceil ((totalDuration s / Fin 1000) * fps)%js.

Definition timeMs (fps : num) (frameIndex : Z) : num :=
  ((of_Z frameIndex / fps) * Fin 1000)%js.

Definition progressAt (fps : num) (frameIndex : Z) (s : state) : num :=
  jmin (timeMs fps frameIndex / totalDuration s)%js (Fin 1).

(** The loop, [n] iterations from [frameIndex] on.  [failing] is the index
    of the frame, if any, at which the capture throws: while the frame is
    rendered, or when the canvas is read ([toDataURL]). *)
Fixpoint captureLoop (fps total : num) (failing : option Z) (n : nat)
  (frameIndex : Z) (frames : list frame) (s : state)
  : option string * list frame * state :=
  match n with
  | O => (None, frames, s)
  | S n' =>
      let progress := progressAt fps frameIndex s in
      let s1 := renderFrame progress (set_time (timeMs fps frameIndex) s) in
      if match failing with Some k => (k =? frameIndex)%Z | None => false end
      then (Some "toDataURL failed", frames, s1)
      else
        let frames' := (frames ++
          [ {| frame_index := frameIndex;
               frame_timeMs := timeMs fps frameIndex;
               frame_progress := progress |} ])%list in
        let s2 := set_exportProgress
                    (jfloor ((of_Z frameIndex / total) * Fin 70)%js) s1 in
        captureLoop fps total failing n' (frameIndex + 1)%Z frames' s2
  end.

(** The frame the loop pushes for index [frameIndex] on a timeline of total
    duration [T], and the frames of [n] consecutive indexes. *)
Definition frameAt (fps T : num) (frameIndex : Z) : frame :=
  {| frame_index := frameIndex;
     frame_timeMs := timeMs fps frameIndex;
     frame_progress := jmin (timeMs fps frameIndex / T)%js (Fin 1) |}.

Fixpoint framesFrom (fps T : num) (n : nat) (frameIndex : Z) : list frame :=
  match n with
  | O => []
  | S n' => frameAt fps T frameIndex :: framesFrom fps T n' (frameIndex + 1)%Z
  end.

(** What the capture loop leaves alone. *)
Definition same_playback (s s' : state) : Prop :=
  hasPreviewCanvas s' = hasPreviewCanvas s /\
  isPlaying s' = isPlaying s /\
  totalDuration s' = totalDuration s /\
  playbackSpeed s' = playbackSpeed s /\
  scheduled s' = scheduled s /\
  isExporting s' = isExporting s.

(** The [finally] block. *)
Definition restore (originalTime : num) (originalPlaying : bool)
  (now0 now1 : num) (s : state) : state :=
  let s1 := set_time originalTime (set_exporting false s) in
  if originalPlaying then playPreview now0 now1 s1
  else renderFrame (originalTime / totalDuration s1)%js s1.

(** The body of [captureAnimationFrames] with its local constant [fps] as a
    parameter.  [now0] and [now1] are the clock readings of the
    [playPreview] in the [finally] block. *)
Definition captureFramesAt (fps : num) (failing : option Z)
  (now0 now1 : num) (s : state) : outcome (list frame) * state :=
  let total := totalFrames fps s in
  if negb (hasPreviewCanvas s)
  then (Threw "Preview canvas not available for capture", s)
  else
    let originalTime := currentTime s in
    let originalPlaying := isPlaying s in
    let s1 := pausePreview (set_exporting true s) in
    match iterations total with
    | None => (Diverged, s1)
    | Some n =>
        let '(err, frames, s2) := captureLoop fps total failing n 0%Z [] s1 in
        let s3 := restore originalTime originalPlaying now0 now1 s2 in
        match err with
        | None => (Returned frames, s3)
        | Some message => (Threw message, s3)
        end
    end.

(** [const fps = 30]. *)
Definition captureAnimationFrames :=
  captureFramesAt (Fin 30).

End Capture.

(** ** The frame producer and the playback clock in binary64

    The arithmetic of [captureAnimationFrames] and of [startAnimation] on
    the numbers of the JavaScript engine: IEEE 754 binary64, every operation
    rounded to nearest.  Here a quotient like [8300 / 1000] is the nearest
    double, not the rational 83/10. *)

Module Binary64.

Import Floats.

Local Open Scope float_scope.

(** The integer a finite double [m * 2^e] of positive sign is, rounded
    towards zero. *)
Definition truncate (m : positive) (e : Z) : Z :=
  if (0 <=? e)%Z then Z.shiftl (Z.pos m) e else Z.shiftr (Z.pos m) (- e).

(** [Math.ceil]: a double with a fraction has an exponent below 0 and a
    magnitude below [2^53]. *)
Definition Math_ceil (x : float) : float :=
  match Prim2SF x with
  | S754_finite negative m e =>
      if (0 <=? e)%Z then x
      else
        let q := truncate m e in
        let whole := (Z.shiftl q (- e) =? Z.pos m)%Z in
        if negative then - of_uint63 (Uint63.of_Z q)
        else of_uint63 (Uint63.of_Z (if whole then q else q + 1))
  | _ => x
  end.

(** [Math.min], of operands that are not both zero. *)
Definition Math_min (a b : float) : float :=
  if is_nan a || is_nan b then nan
  else if a <=? b then a else b.

Definition totalFrames (fps totalDuration : float) : float :=
  Math_ceil ((totalDuration / 1000) * fps).

Definition timeMs (fps frameIndex : float) : float :=
  (frameIndex / fps) * 1000.

Definition progressAt (fps totalDuration frameIndex : float) : float :=
  Math_min (timeMs fps frameIndex / totalDuration) 1.

(** How often the body of [for (i = 0; i < totalFrames; i++)] runs for a
    bound that is an integer, [NaN] or infinite; [None] when the bound is
    [Infinity]. *)
Definition iterations (totalFrames : float) : option nat :=
  match Prim2SF totalFrames with
  | S754_infinity false => None
  | S754_finite false m e => Some (Z.to_nat (truncate m e))
  | _ => Some 0%nat
  end.

(** A captured frame: its index, the timeline position it was taken at,
    and the progress [renderFrame] was called with. *)
Record frame : Type := {
  frame_index : float;
  frame_timeMs : float;
  frame_progress : float
}.

(** The loop of [captureAnimationFrames], [n] iterations from [frameIndex]
    on. *)
Fixpoint captureLoop (fps totalDuration : float) (n : nat)
  (frameIndex : float) : list frame :=
  match n with
  | O => []
  | S n' =>
      {| frame_index := frameIndex;
         frame_timeMs := timeMs fps frameIndex;
         frame_progress := progressAt fps totalDuration frameIndex |}
      :: captureLoop fps totalDuration n' (frameIndex + 1)
  end.

(** The frames of a capture without failure; [None] when the loop does not
    end. *)
Definition captureFramesAt (fps totalDuration : float)
  : option (list frame) :=
  match iterations (totalFrames fps totalDuration) with
  | Some n => Some (captureLoop fps totalDuration n 0)
  | None => None
  end.

(** [const fps = 30]. *)
Definition captureAnimationFrames (totalDuration : float)
  : option (list frame) :=
  captureFramesAt 30 totalDuration.

(** [startAnimation]: the start reference, and the position the first run
    of [animate] computes from it. *)
Definition startTime (now0 currentTime playbackSpeed : float) : float :=
  now0 - currentTime / playbackSpeed.

Definition elapsed (now1 startTime playbackSpeed : float) : float :=
  (now1 - startTime) * playbackSpeed.

End Binary64.

(** ** Client-side export ([exportVideo], [createVideoFromFrames]) *)

Module ClientExport.

Import Timeline Capture.

Inductive export_status : Type :=
| Idle | Preparing | Generating | Processing | Completed | Error.

(** What [window.app] offers to the export. *)
Record app : Type := {
  hasMap : bool;                          (* getMapImageData()?.hasMap *)
  canvasRoutes : list route;              (* window.app.canvas.routes *)
  managerRoutes : option (list route)     (* window.app.routes?.routes *)
}.

Inductive artifact : Type :=
| VideoBlob (mime : string) (size : Z)
| FramesJson (totalFrames : nat) (fps : num) (duration : num).

(** How a promise ends: it is resolved, it is rejected, or it stays pending
    for ever. *)
Inductive promise (A : Type) : Type :=
| Resolves (a : A)
| Rejects
| Pends.

Arguments Resolves {A} a.
Arguments Rejects {A}.
Arguments Pends {A}.

(** What the browser's recorder does with a list of frames that is not
    empty.  [createWebMFromFrames] resolves when its recorder stops and
    rejects when the recorder cannot be made or reports an error.
    [createVideoFromFramesAlternative] resolves or rejects with
    [createSimpleAnimation], once the image of every frame has loaded;
    neither of the two handles an image that fails to load, and the promise
    then stays pending. *)
Record recorder : Type := {
  webm : promise artifact;                (* createWebMFromFrames *)
  alternative : promise artifact          (* createVideoFromFramesAlternative *)
}.

Record exporter : Type := {
  timeline : Timeline.state;
  exportStatus : export_status;
  downloaded : list artifact
}.

Record export_result : Type := {
  success : bool;
  message : string
}.

Definition currentRoutes (a : app) : list route :=
  match canvasRoutes a, managerRoutes a with
  | [], Some rs => rs
  | rs, _ => rs
  end.

Definition exportable (r : route) : bool :=
  visible r && (2 <=? List.length (waypoints r))%nat.

Definition createFramesZip (s : state) (frames : list frame) : artifact :=
  FramesJson (List.length frames) (Fin 30) (totalDuration s).

Definition reasonable (b : artifact) : bool :=
  match b with
  | VideoBlob _ size => (1000 <? size)%Z
  | FramesJson _ _ _ => true
  end.

(** [createVideoFromFramesAlternative]: its promise is settled from the
    [onload] handler of the frame image that loads last; with no frame there
    is no such handler, and the promise stays pending. *)
Definition createVideoFromFramesAlternative (rec : recorder)
  (frames : list frame) : promise artifact :=
  match frames with
  | [] => Pends
  | _ :: _ => alternative rec
  end.

(** Method 1, then method 2, then the frames file.  Each method is awaited:
    a promise that stays pending is the end of it. *)
Definition createVideoFromFrames (rec : recorder) (s : state)
  (frames : list frame) : promise artifact :=
  let method2 :=
    match createVideoFromFramesAlternative rec frames with
    | Resolves b => Resolves b
    | Rejects => Resolves (createFramesZip s frames)
    | Pends => Pends
    end in
  match webm rec with
  | Resolves b => if reasonable b then Resolves b else method2
  | Rejects => method2
  | Pends => Pends
  end.

Definition fail (msg : string) (s : state) (e : exporter)
  : export_result * exporter :=
  ({| success := false; message := msg |},
   {| timeline := set_exportProgress (Fin 0) s;
      exportStatus := Error; downloaded := downloaded e |}).

Definition exportVideo (a : app) (rec : recorder) (failing : option Z)
  (now0 now1 : num) (e : exporter) : export_result * exporter :=
  let s0 := set_exportProgress (Fin 0) (timeline e) in
  if negb (hasMap a)
  then fail "No map image available for export. Please upload a map first." s0 e
  else
    match filter exportable (currentRoutes a) with
    | [] => fail "No visible routes with waypoints found for export." s0 e
    | _ :: _ =>
        match captureAnimationFrames failing now0 now1 s0 with
        | (Threw msg, s1) => fail msg s1 e
        | (Diverged, s1) =>
            ({| success := false; message := "" |},
             {| timeline := s1; exportStatus := Generating;
                downloaded := downloaded e |})
        | (Returned [], s1) =>
            fail "No frames captured from animation timeline" s1 e
        | (Returned frames, s1) =>
            let s2 := set_exportProgress (Fin 80) s1 in
            match createVideoFromFrames rec s2 frames with
            | Resolves blob =>
                ({| success := true;
                    message := "Video exported from timeline animation" |},
                 {| timeline := set_exportProgress (Fin 100) s2;
                    exportStatus := Completed;
                    downloaded := downloaded e ++ [blob] |})
            | Rejects => fail "" s2 e
            | Pends =>
                ({| success := false; message := "" |},
                 {| timeline := s2; exportStatus := Processing;
                    downloaded := downloaded e |})
            end
        end
    end.

End ClientExport.

(** ** Server-side export (the [/video] route and [VideoProcessor])

    The route handler is the export router; [VideoProcessor] is
    utils/videoProcessor.js, whose text follows the readme in README.md. *)

Module Server.

Inductive job_status : Type :=
| Queued | Processing | Completed | Errored.

(** The three kinds of artifact a job can end with. *)
Inductive tier : Type :=
| RealVideo        (* frames rendered and encoded to MP4 *)
| StaticImage      (* one PNG with every route drawn in full *)
| Manifest.        (* JSON description of routes and settings *)

(** [req.body.routes]. *)
Inductive routes_field : Type :=
| RoutesAbsent                       (* undefined, null or another falsy value *)
| RoutesNotArray                     (* truthy, but not an array *)
| RoutesArray (rs : list route).

Record request : Type := {
  req_routes : routes_field;
  req_mapImage : option string;      (* [None]: falsy *)
  req_totalDuration : option num;
  req_fps : option num               (* settings?.fps *)
}.

Record videoData : Type := {
  vd_routes : list route;
  vd_mapImage : option string;
  vd_totalDuration : num;
  vd_fps : num                       (* settings.fps *)
}.

Record job : Type := {
  job_id : string;
  status : job_status;
  progress : num;
  job_error : option string;
  outputFile : option tier;
  job_data : videoData
}.

(** [this.jobs], a [Map] from job id to job. *)
Definition store : Type := list (string * job).

Fixpoint get (id : string) (jobs : store) : option job :=
  match jobs with
  | [] => None
  | (k, j) :: rest => if String.eqb id k then Some j else get id rest
  end.

Fixpoint set (id : string) (j : job) (jobs : store) : store :=
  match jobs with
  | [] => [(id, j)]
  | (k, j') :: rest =>
      if String.eqb id k then (k, j) :: rest else (k, j') :: set id j rest
  end.

(** Which of the optional modules loaded when the process started. *)
Record capabilities : Type := {
  createCanvas : bool;
  ffmpeg : bool
}.

(** What the file system and the encoder do for one job, [Some msg] being
    the message of the error raised: creating the directory of the frames,
    running the encoder, rendering and writing the static image, writing
    the manifest. *)
Record environment : Type := {
  frameWriteError : option string;
  encodeError : option string;
  staticImageError : option string;
  manifestWriteError : option string
}.

Inductive response : Type :=
| BadRequest (error : string)                 (* status 400 *)
| Started (jobId : string)                    (* success, status 'processing' *)
| InternalError (error : string).             (* status 500 *)

Definition with_status (st : job_status) (p : num) (j : job) : job :=
  {| job_id := job_id j; status := st; progress := p;
     job_error := job_error j; outputFile := outputFile j;
     job_data := job_data j |}.

Definition failed (msg : string) (j : job) : job :=
  {| job_id := job_id j; status := Errored; progress := progress j;
     job_error := Some msg; outputFile := outputFile j;
     job_data := job_data j |}.

Definition completed (t : tier) (j : job) : job :=
  {| job_id := job_id j; status := Completed; progress := Fin 100;
     job_error := job_error j; outputFile := Some t;
     job_data := job_data j |}.

(** [generateRealVideo]: the number of frames. *)
Definition serverTotalFrames (settingsFps : option num) (totalDuration : num)
  : num :=
  let fps := or_default settingsFps (Fin 30) in
  let durationSeconds := (totalDuration / Fin 1000)%js in
  jceil (fps * durationSeconds)%js.

(** The frame loop of [generateRealVideo], [n] iterations from [frame] on:
    a frame is drawn and written, and at every tenth frame the progress of
    the job is set. *)
Fixpoint writeFrames (totalFrames : num) (n : nat) (frame : Z) (j : job)
  : job :=
  match n with
  | O => j
  | S n' =>
      let j1 :=
        if (frame mod 10 =? 0)%Z
        then with_status (status j)
               (Fin 50 + (of_Z frame / totalFrames) * Fin 30)%js j
        else j in
      writeFrames totalFrames n' (frame + 1)%Z j1
  end.

(** [generateRealVideo]: the progress is 50 when the directory of the
    frames is created and 90 when the encoder runs; an error of either
    leaves the function and reaches the [catch] of [processVideo], which
    ends the job.  Between the two the frame loop runs; with a frame count
    of [Infinity] it never ends, and the job stays as the loop keeps it: in
    [processing], at progress [50 + (frame / Infinity) * 30 = 50]. *)
Definition generateRealVideo (env : environment) (j : job) : job :=
  let totalFrames :=
    serverTotalFrames (Some (vd_fps (job_data j)))
      (vd_totalDuration (job_data j)) in
  match frameWriteError env with
  | Some msg => failed msg (with_status Processing (Fin 50) j)
  | None =>
      match Capture.iterations totalFrames with
      | None => with_status Processing (Fin 50) j
      | Some n =>
          let j1 :=
            writeFrames totalFrames n 0%Z (with_status Processing (Fin 50) j) in
          match encodeError env with
          | Some msg => failed msg (with_status Processing (Fin 90) j1)
          | None => completed RealVideo j1
          end
      end
  end.

Definition generateEnhancedManifest (env : environment) (j : job) : job :=
  match manifestWriteError env with
  | Some msg => failed msg j
  | None => completed Manifest j
  end.

(** The body is wrapped in [try]; its [catch] writes the manifest instead. *)
Definition generateStaticRouteImage (env : environment) (j : job) : job :=
  match staticImageError env with
  | Some _ => generateEnhancedManifest env j
  | None => completed StaticImage j
  end.

Definition generateEnhancedFallback (caps : capabilities) (env : environment)
  (j : job) : job :=
  let j1 := with_status Processing (Fin 100) j in
  if createCanvas caps then generateStaticRouteImage env j1
  else generateEnhancedManifest env j1.

(** The tier [processVideo] selects, from the capabilities alone. *)
Definition selectedTier (caps : capabilities) : tier :=
  if createCanvas caps && ffmpeg caps then RealVideo
  else if createCanvas caps then StaticImage
  else Manifest.

(** [processVideo] up to its first suspension: the job is marked as
    processing and its data validated; a validation error ends the job. *)
Definition startProcessing (j : job) : job :=
  let j1 := with_status Processing (Fin 10) j in
  match vd_routes (job_data j1) with
  | [] => failed "No routes provided for video generation" j1
  | _ :: _ =>
      match vd_mapImage (job_data j1) with
      | None => failed "No map image provided for video generation" j1
      | Some _ => with_status Processing (Fin 20) j1
      end
  end.

(** The rest of [processVideo]: the generator the capabilities select. *)
Definition finishProcessing (caps : capabilities) (env : environment)
  (j : job) : job :=
  match status j with
  | Processing =>
      if createCanvas caps && ffmpeg caps
      then generateRealVideo env j
      else generateEnhancedFallback caps env j
  | _ => j
  end.

(** [processVideo], run to the end. *)
Definition processVideo (caps : capabilities) (env : environment) (j : job)
  : job :=
  finishProcessing caps env (startProcessing j).

(** [createVideoJob]: the job is stored under a fresh id and its processing
    is started and not awaited, so it runs up to its first suspension. *)
Definition createVideoJob (jobId : string) (data : videoData) (jobs : store)
  : string * store :=
  let j := {| job_id := jobId; status := Queued; progress := Fin 0;
              job_error := None; outputFile := None; job_data := data |} in
  (jobId, set jobId (startProcessing j) jobs).

(** The handler of [POST /video]; [jobId] is the id [uuidv4()] returns. *)
Definition postVideo (jobId : string) (req : request) (jobs : store)
  : response * store :=
  match req_routes req with
  | RoutesAbsent | RoutesNotArray => (BadRequest "Invalid routes data", jobs)
  | RoutesArray rs =>
      match req_mapImage req with
      | None => (BadRequest "Map image is required", jobs)
      | Some img =>
          let data := {| vd_routes := rs; vd_mapImage := Some img;
                         vd_totalDuration :=
                           or_default (req_totalDuration req) (Fin 10000);
                         vd_fps :=
                           match req_fps req with
                           | Some fps => fps
                           | None => Fin 30
                           end |} in
          let '(id, jobs') := createVideoJob jobId data jobs in
          (Started id, jobs')
      end
  end.

(** The processing started by [createVideoJob] comes to its end. *)
Definition settle (caps : capabilities) (env : environment) (id : string)
  (jobs : store) : store :=
  match get id jobs with
  | Some j => set id (finishProcessing caps env j) jobs
  | None => jobs
  end.

(** Data that passes the validation of [processVideo]. *)
Definition valid (data : videoData) : Prop :=
  vd_routes data <> [] /\ vd_mapImage data <> None.

(** A job as [createVideoJob] makes it, before it is processed. *)
Definition newJob (jobId : string) (data : videoData) : job :=
  {| job_id := jobId; status := Queued; progress := Fin 0;
     job_error := None; outputFile := None; job_data := data |}.

End Server.

(** ** Branch routes ([MapCanvas.createBranchFromWaypoint]) *)

Module MapCanvas.

Record canvas : Type := {
  routes : list route;
  currentRoute : option route;
  branchMode : bool;
  currentTool : string
}.

(** [sourceRoute.animation?.delay || 0 + 500]: [+] binds tighter than [||],
    so the right operand of [||] is [0 + 500]. *)
Definition branchDelay (sourceRoute : route) : num :=
  or_default (animation_delay sourceRoute) (Fin 0 + Fin 500)%js.

(** The other reading, [(sourceRoute.animation?.delay || 0) + 500], which
    the source does not have. *)
Definition delayAfterParent (sourceRoute : route) : num :=
  (or_default (animation_delay sourceRoute) (Fin 0) + Fin 500)%js.

Definition createBranchFromWaypoint (newId : string)
  (sourceWaypoint : option waypoint) (sourceRoute : option route)
  (c : canvas) : canvas :=
  match sourceWaypoint, sourceRoute with
  | Some wp, Some parent =>
      let branchRoute :=
        {| route_id := newId;
           route_name := "Branch from " ++ route_name parent;
           waypoints := [wp];
           visible := true;
           route_animation :=
             Some {| duration := Some (Fin 3000);
                     easing := "ease-in-out";
                     delay := Some (branchDelay parent) |};
           parentRoute := Some (route_id parent) |} in
      {| routes := (routes c ++ [branchRoute])%list;
         currentRoute := Some branchRoute;
         branchMode := false;
         currentTool := "draw" |}
  | _, _ => c
  end.

End MapCanvas.

(** ** Path renderer ([drawRouteProgress], [drawPathToLength])

    Coordinates and lengths are finite here and are embedded as reals. *)

Module PathRenderer.

Local Open Scope R_scope.

Record point : Type := { px : R; py : R }.

Record segment : Type := {
  seg_start : R;
  seg_length : R;
  seg_from : point;
  seg_to : point
}.

(** [this.mapTransform], set by [drawMapBackground]. *)
Record mapTransform : Type := {
  scale : R;
  offsetX : R;
  offsetY : R
}.

(** What is put on the canvas path between [beginPath] and [stroke]. *)
Inductive command : Type :=
| MoveTo (p : point)
| LineTo (p : point).

Definition transformWaypoint (tr : mapTransform) (wp : point) : point :=
  {| px := px wp * scale tr + offsetX tr;
     py := py wp * scale tr + offsetY tr |}.

Definition segmentLength (prev curr : point) : R :=
  sqrt ((px curr - px prev) ^ 2 + (py curr - py prev) ^ 2).

(** The loop [for (let i = 1; i < transformedWaypoints.length; i++)]:
    [prev] is the waypoint before [rest], [totalLength] the length so far. *)
Fixpoint buildSegments (prev : point) (rest : list point) (totalLength : R)
  : list segment * R :=
  match rest with
  | [] => ([], totalLength)
  | curr :: rest' =>
      let len := segmentLength prev curr in
      let '(segments, total) := buildSegments curr rest' (totalLength + len) in
      ({| seg_start := totalLength; seg_length := len;
          seg_from := prev; seg_to := curr |} :: segments, total)
  end.

Definition moveIfNotStarted (pathStarted : bool) (p : point) : list command :=
  if pathStarted then [] else [MoveTo p].

(** The loop of [drawPathToLength]. *)
Fixpoint drawPathLoop (segments : list segment)
  (targetLength currentLength : R) (pathStarted : bool) : list command :=
  match segments with
  | [] => []
  | seg :: rest =>
      if Rle_dec (currentLength + seg_length seg) targetLength
      then
        (moveIfNotStarted pathStarted (seg_from seg) ++
         LineTo (seg_to seg) ::
         drawPathLoop rest targetLength (currentLength + seg_length seg) true)%list
      else
        let remainingLength := targetLength - currentLength in
        let segmentProgress := remainingLength / seg_length seg in
        let partialX := px (seg_from seg) +
                        (px (seg_to seg) - px (seg_from seg)) * segmentProgress in
        let partialY := py (seg_from seg) +
                        (py (seg_to seg) - py (seg_from seg)) * segmentProgress in
        (moveIfNotStarted pathStarted (seg_from seg) ++
         [LineTo {| px := partialX; py := partialY |}])%list
  end.

Definition drawPathToLength (segments : list segment) (targetLength : R)
  : list command :=
  drawPathLoop segments targetLength 0 false.

(** [waypoints.slice(0, stop)]: a negative [stop] counts from the end of
    the array. *)
Definition slice0 {A : Type} (l : list A) (stop : Z) : list A :=
  if (stop <? 0)%Z
  then firstn (Z.to_nat (Z.of_nat (List.length l) + stop)) l
  else firstn (Z.to_nat stop) l.

(** [drawProgressiveWaypoints]: the waypoints a marker is painted at; none
    during an export. *)
Definition drawProgressiveWaypoints (isExporting : bool)
  (waypoints : list point) (progress : R) : list point :=
  if isExporting then []
  else
    let totalWaypoints := Z.of_nat (List.length waypoints) in
    let visibleWaypoints :=
      Z.min totalWaypoints (Zfloor (IZR totalWaypoints * progress) + 1) in
    slice0 waypoints visibleWaypoints.

(** What [drawRouteProgress] paints: the progress stroke when
    [progress > 0], the wider completion stroke when [progress >= 1], and
    the waypoint markers of [drawProgressiveWaypoints], which are painted
    at every progress.  The glowing tip and the completion glow, filled
    shapes painted only at a positive progress, are left out. *)
Record drawing : Type := {
  progressStroke : option (list command);
  completionStroke : option (list command);
  markers : list point
}.

Definition nothing : drawing :=
  {| progressStroke := None; completionStroke := None; markers := [] |}.

Definition drawRouteProgress (isExporting : bool) (tr : mapTransform)
  (waypoints : list point) (progress : R) : drawing :=
  match map (transformWaypoint tr) waypoints with
  | [] | [_] => nothing
  | first :: rest =>
      let '(segments, totalLength) := buildSegments first rest 0 in
      let drawLength := totalLength * progress in
      {| progressStroke :=
           if Rlt_dec 0 progress
           then Some (drawPathToLength segments drawLength) else None;
         completionStroke :=
           if Rle_dec 1 progress
           then Some (drawPathToLength segments totalLength) else None;
         markers :=
           drawProgressiveWaypoints isExporting (first :: rest) progress |}
  end.

(** Euclidean length of a stroked path: every [LineTo] adds the distance
    from the current point. *)
Fixpoint strokeLength (current : point) (path : list command) : R :=
  match path with
  | [] => 0
  | MoveTo p :: rest => strokeLength p rest
  | LineTo p :: rest => segmentLength current p + strokeLength p rest
  end.

Definition origin : point := {| px := 0; py := 0 |}.

Definition pathLength (path : list command) : R := strokeLength origin path.

(** Length of the polyline through the given points. *)
Fixpoint polylineLength (prev : point) (rest : list point) : R :=
  match rest with
  | [] => 0
  | p :: rest' => segmentLength prev p + polylineLength p rest'
  end.

Definition routeLength (points : list point) : R :=
  match points with
  | [] => 0
  | first :: rest => polylineLength first rest
  end.

(** The full polyline as a path. *)
Definition polyline (points : list point) : list command :=
  match points with
  | [] => []
  | first :: rest => MoveTo first :: map LineTo rest
  end.

(** Where the pen is after the path. *)
Definition endPoint (path : list command) : option point :=
  match rev path with
  | [] => None
  | MoveTo p :: _ | LineTo p :: _ => Some p
  end.

Definition identityTransform : mapTransform :=
  {| scale := 1; offsetX := 0; offsetY := 0 |}.

(** Segments as [drawRouteProgress] builds them: each starts where the one
    before ended, and carries the distance between its end points. *)
Fixpoint chained (start : point) (segments : list segment) : Prop :=
  match segments with
  | [] => True
  | seg :: rest =>
      seg_from seg = start /\
      seg_length seg = segmentLength (seg_from seg) (seg_to seg) /\
      chained (seg_to seg) rest
  end.

Fixpoint sumLengths (segments : list segment) : R :=
  match segments with
  | [] => 0
  | seg :: rest => seg_length seg + sumLengths rest
  end.

(** The point at fraction [f] of a segment, by linear interpolation. *)
Definition pointAt (seg : segment) (f : R) : point :=
  {| px := px (seg_from seg) + (px (seg_to seg) - px (seg_from seg)) * f;
     py := py (seg_from seg) + (py (seg_to seg) - py (seg_from seg)) * f |}.

(** Linear interpolation between two points. *)
Definition interpolate (a b : point) (f : R) : point :=
  {| px := px a + (px b - px a) * f;
     py := py a + (py b - py a) * f |}.

(** The stroke of the specification up to the length [target] along the
    polyline [points]: a move to the first point; the first [k] segments,
    which lie before the target length, in full; and, unless these are all
    the segments, the segment that contains the target length up to the
    point at the fraction [f] of it that is left, by linear
    interpolation. *)
Definition strokeShape (points : list point) (target : R) (k : nat)
  (path : list command) : Prop :=
  match points with
  | [] => False
  | first :: rest =>
      (k <= List.length rest)%nat /\
      polylineLength first (firstn k rest) <= target /\
      ((k = List.length rest /\ path = MoveTo first :: map LineTo rest) \/
       (exists a b f,
          nth_error (first :: rest) k = Some a /\
          nth_error rest k = Some b /\
          0 <= f < 1 /\
          f * segmentLength a b
          = target - polylineLength first (firstn k rest) /\
          path = (MoveTo first :: map LineTo (firstn k rest) ++
                  [LineTo (interpolate a b f)])%list))
  end.

(** The waypoints of the scenario of the specification. *)
Definition scenario : list point :=
  [ {| px := 0; py := 0 |}; {| px := 10; py := 0 |};
    {| px := 10; py := 10 |} ].

End PathRenderer.

(** ** Sample data *)

Module Samples.

Definition wp (x y : Q) : waypoint := {| wp_x := Fin x; wp_y := Fin y |}.

(** A visible route of two waypoints with the given delay and duration. *)
Definition timedRoute (name : string) (delayMs durationMs : Q) : route :=
  {| route_id := name; route_name := name;
     waypoints := [wp 0 0; wp 10 0];
     visible := true;
     route_animation :=
       Some {| duration := Some (Fin durationMs);
               easing := "ease-in-out";
               delay := Some (Fin delayMs) |};
     parentRoute := None |}.

(** A route whose [animation] object is absent. *)
Definition untimedRoute (name : string) : route :=
  {| route_id := name; route_name := name;
     waypoints := [wp 0 0; wp 10 0];
     visible := true;
     route_animation := None;
     parentRoute := None |}.

(** The data of an export request with one route and a map image. *)
Definition sampleData : Server.videoData :=
  {| Server.vd_routes := [timedRoute "r" 0 3000];
     Server.vd_mapImage := Some "map.png";
     Server.vd_totalDuration := Fin 10000;
     Server.vd_fps := Fin 30 |}.

End Samples.

(** ** The view of the editing canvas ([MapCanvas]: pan, zoom, fit) *)

Module Viewport.

Record position : Type := { pos_x : num; pos_y : num }.

Record image : Type := { img_width : num; img_height : num }.

Record view : Type := {
  canvasWidth : num;
  canvasHeight : num;
  mapImage : option image;
  scale : num;
  offsetX : num;
  offsetY : num
}.


(** [a === b] on numbers: [NaN] equals nothing. *)
Definition strictEq (a b : num) : bool :=
  match a, b with
  | Fin x, Fin y => Qeq_bool x y
  | PInf, PInf => true
  | NInf, NInf => true
  | _, _ => false
  end.


Definition with_transform (newScale newX newY : num) (v : view) : view :=
  {| canvasWidth := canvasWidth v; canvasHeight := canvasHeight v;
     mapImage := mapImage v;
     scale := newScale; offsetX := newX; offsetY := newY |}.

Definition zoomAt (x y delta : num) (v : view) : view :=
  let newScale := jmax (Fin 0.1) (jmin (Fin 5) (scale v * delta)%js) in
  if negb (strictEq newScale (scale v))
  then
    let scaleDiff := (newScale / scale v)%js in
    with_transform newScale
      (x - (x - offsetX v) * scaleDiff)%js
      (y - (y - offsetY v) * scaleDiff)%js v
  else v.

Definition zoomIn (v : view) : view :=
  zoomAt (canvasWidth v / Fin 2)%js (canvasHeight v / Fin 2)%js (Fin 1.2) v.

Definition zoomOut (v : view) : view :=
  zoomAt (canvasWidth v / Fin 2)%js (canvasHeight v / Fin 2)%js (Fin 0.8) v.

(** [handleWheel]: [deltaY > 0] zooms out at the pointer, anything else
    zooms in. *)
Definition handleWheel (pos : position) (deltaY : num) (v : view) : view :=
  let delta := if jlt (Fin 0) deltaY then Fin 0.9 else Fin 1.1 in
  zoomAt (pos_x pos) (pos_y pos) delta v.


(** A map of 1600 x 900 on a canvas of 800 x 600, at half size. *)
Definition sampleView : view :=
  {| canvasWidth := Fin 800; canvasHeight := Fin 600;
     mapImage := Some {| img_width := Fin 1600; img_height := Fin 900 |};
     scale := Fin 0.5; offsetX := Fin 20; offsetY := Fin 30 |}.

End Viewport.

(** ** Preview geometry ([drawMapBackground], [getPositionAtLength]) and
    the server's renderer ([scaleWaypointsToCanvas], [drawAnimatedPath]) *)

Module Geometry.

Import PathRenderer.

Local Open Scope R_scope.

(** Where [drawImage] paints the map. *)
Record rectangle : Type := {
  rect_x : R;
  rect_y : R;
  rect_width : R;
  rect_height : R
}.

(** [drawMapBackground]: the rectangle the map is painted into, and the
    transform stored for the routes. *)
Definition drawMapBackground (canvasWidth canvasHeight mapWidth mapHeight : R)
  : rectangle * mapTransform :=
  let scale := Rmin (canvasWidth / mapWidth) (canvasHeight / mapHeight) in
  let scaledWidth := mapWidth * scale in
  let scaledHeight := mapHeight * scale in
  let x := (canvasWidth - scaledWidth) / 2 in
  let y := (canvasHeight - scaledHeight) / 2 in
  ({| rect_x := x; rect_y := y;
      rect_width := scaledWidth; rect_height := scaledHeight |},
   {| scale := scale; offsetX := x; offsetY := y |}).


(** The loop of [getPositionAtLength]. *)
Fixpoint positionLoop (segments : list segment)
  (targetLength currentLength : R) : option point :=
  match segments with
  | [] => None
  | seg :: rest =>
      if Rgt_dec (currentLength + seg_length seg) targetLength
      then
        let remainingLength := targetLength - currentLength in
        let segmentProgress := remainingLength / seg_length seg in
        Some {| px := px (seg_from seg) +
                      (px (seg_to seg) - px (seg_from seg)) * segmentProgress;
                py := py (seg_from seg) +
                      (py (seg_to seg) - py (seg_from seg)) * segmentProgress |}
      else positionLoop rest targetLength (currentLength + seg_length seg)
  end.

Definition getPositionAtLength (segments : list segment) (targetLength : R)
  : option point :=
  positionLoop segments targetLength 0.

(** The position [drawRouteProgress] paints the glowing tip at, if it
    paints one: only while [0 < progress < 1]. *)
Definition tipPosition (tr : mapTransform) (waypoints : list point)
  (progress : R) : option point :=
  match map (transformWaypoint tr) waypoints with
  | [] | [_] => None
  | first :: rest =>
      let '(segments, totalLength) := buildSegments first rest 0 in
      let drawLength := totalLength * progress in
      if Rlt_dec 0 progress
      then if Rlt_dec progress 1
           then getPositionAtLength segments drawLength
           else None
      else None
  end.

(** The size of the background image of the server, when it has one. *)
Record background : Type := {
  bg_width : R;
  bg_height : R
}.

(** [scaleWaypointsToCanvas]. *)
Definition scaleWaypointsToCanvas (waypoints : list point)
  (canvasWidth canvasHeight : R) (backgroundImage : option background)
  : list point :=
  match backgroundImage with
  | None =>
      map (fun wp => {| px := px wp * (canvasWidth / 800);
                        py := py wp * (canvasHeight / 600) |}) waypoints
  | Some img =>
      let scale := Rmin (canvasWidth / bg_width img)
                        (canvasHeight / bg_height img) in
      let scaledWidth := bg_width img * scale in
      let scaledHeight := bg_height img * scale in
      let offsetX := (canvasWidth - scaledWidth) / 2 in
      let offsetY := (canvasHeight - scaledHeight) / 2 in
      map (fun wp => {| px := offsetX + px wp * scale;
                        py := offsetY + py wp * scale |}) waypoints
  end.

(** The first loop of [drawAnimatedPath]: the length of the path. *)
Fixpoint pathLengthFrom (prev : point) (rest : list point) (totalLength : R)
  : R :=
  match rest with
  | [] => totalLength
  | curr :: rest' =>
      let dx := px curr - px prev in
      let dy := py curr - py prev in
      pathLengthFrom curr rest' (totalLength + sqrt (dx * dx + dy * dy))
  end.

(** The second loop of [drawAnimatedPath]. *)
Fixpoint animatedLoop (prevWaypoint : point) (rest : list point)
  (targetLength currentLength : R) : list command :=
  match rest with
  | [] => []
  | currentWaypoint :: rest' =>
      let dx := px currentWaypoint - px prevWaypoint in
      let dy := py currentWaypoint - py prevWaypoint in
      let segmentLength := sqrt (dx * dx + dy * dy) in
      if Rle_dec (currentLength + segmentLength) targetLength
      then LineTo currentWaypoint ::
           animatedLoop currentWaypoint rest' targetLength
             (currentLength + segmentLength)
      else
        let remainingLength := targetLength - currentLength in
        let segmentProgress := remainingLength / segmentLength in
        [LineTo {| px := px prevWaypoint + dx * segmentProgress;
                   py := py prevWaypoint + dy * segmentProgress |}]
  end.

(** [drawAnimatedPath]: the path it strokes, [None] when it returns before
    it draws. *)
Definition drawAnimatedPath (waypoints : list point) (progress : R)
  : option (list command) :=
  match waypoints with
  | [] | [_] => None
  | first :: rest =>
      if Rle_dec progress 0 then None
      else
        let totalLength := pathLengthFrom first rest 0 in
        let targetLength := totalLength * progress in
        Some (MoveTo first :: animatedLoop first rest targetLength 0)
  end.

End Geometry.

(** ** The server's animation ([calculateRouteProgress],
    [drawRoutesOnCanvas], the frame loop of [generateRealVideo],
    [estimateProcessingTime])

    [route.visible !== false] is read off the field [visible]; a route
    without that field, which the server would show, is not represented. *)

Module ServerRender.

Definition shown (r : route) : bool := visible r.

(** [routes.filter(r => r.visible !== false).length]. *)
Definition countShown (routes : list route) : Z :=
  Z.of_nat (List.length (filter shown routes)).

(** The body of the [forEach] of [calculateRouteProgress]. *)
Definition progressOfRoute (routes : list route) (globalProgress : num)
  (index : nat) (r : route) : num :=
  let routeCount := of_Z (countShown routes) in
  if negb (shown r) then Fin 0
  else
    let visibleIndex := of_Z (countShown (firstn index routes)) in
    let routeStart := (visibleIndex / routeCount)%js in
    let routeEnd := ((visibleIndex + Fin 1) / routeCount)%js in
    if jle globalProgress routeStart then Fin 0
    else if jge globalProgress routeEnd then Fin 1
    else ((globalProgress - routeStart) / (routeEnd - routeStart))%js.

(** [array.forEach((element, index) => ...)], collecting what the callback
    stores at [index]. *)
Fixpoint forEachIndexed {A B : Type} (f : nat -> A -> B) (index : nat)
  (l : list A) : list B :=
  match l with
  | [] => []
  | x :: rest => f index x :: forEachIndexed f (S index) rest
  end.

Definition calculateRouteProgress (routes : list route) (globalProgress : num)
  : list num :=
  forEachIndexed (progressOfRoute routes globalProgress) 0%nat routes.

(** The body of the [forEach] of [drawRoutesOnCanvas]: the call of
    [drawAnimatedPath] it makes, if any. *)
Definition drawRouteOnCanvas (r : route) (routeProg : num)
  : list RouteTiming.draw_call :=
  if negb (shown r) then []
  else if jle routeProg (Fin 0) then []
  else if (List.length (waypoints r) <? 2)%nat then []
  else [ {| RouteTiming.drawn_route := r;
            RouteTiming.drawn_progress := routeProg |} ].

Definition drawRoutesOnCanvas (routes : list route) (progress : num)
  : list RouteTiming.draw_call :=
  flat_map (fun rp => drawRouteOnCanvas (fst rp) (snd rp))
    (combine routes (calculateRouteProgress routes progress)).

(** [generateRealVideo]: the progress a frame is drawn at. *)
Definition frameProgress (totalFrames : num) (frame : Z) : num :=
  (of_Z frame / (totalFrames - Fin 1))%js.

(** The frame loop, [n] iterations from [frame] on: the progress each frame
    is drawn at. *)
Fixpoint frameLoop (totalFrames : num) (n : nat) (frame : Z) : list num :=
  match n with
  | O => []
  | S n' =>
      frameProgress totalFrames frame ::
      frameLoop totalFrames n' (frame + 1)%Z
  end.


(** [estimateProcessingTime], on the data the handler builds, which always
    has its routes and its total duration. *)
Definition estimateProcessingTime (data : Server.videoData) : num :=
  let baseTime :=
    (Fin 2000
     + of_Z (Z.of_nat (List.length (Server.vd_routes data))) * Fin 500
     + Server.vd_totalDuration data / Fin 10)%js in
  jmin (jmax baseTime (Fin 2000)) (Fin 30000).

End ServerRender.

(** ** Job summaries and their readers ([getJobStatus], [cleanupOldJobs];
    the status and download handlers of the export router; the polls of the
    two clients) *)

Module Jobs.

(** JavaScript values, as far as the summaries and the responses hold
    them. *)
#[warnings="-register-all"]
Inductive value : Type :=
| Undefined
| Null
| Bool (b : bool)
| Str (s : string)
| Number (n : num)
| Date (ms : num)
| Obj (fields : list (string * value)).

Definition object : Type := list (string * value).

(** [o.name] on an object literal, for a name that [Object.prototype] does
    not define; [undefined] when the object has no such property. *)
Fixpoint property (name : string) (o : object) : value :=
  match o with
  | [] => Undefined
  | (k, v) :: rest => if String.eqb name k then v else property name rest
  end.

(** [v.name]; [None] is the [TypeError] of a read on [undefined] or
    [null]. *)
Definition member (name : string) (v : value) : option value :=
  match v with
  | Undefined | Null => None
  | Obj fields => Some (property name fields)
  | Bool _ | Str _ | Number _ | Date _ => Some Undefined
  end.

Definition toBoolean (v : value) : bool :=
  match v with
  | Undefined | Null => false
  | Bool b => b
  | Str s => negb (String.eqb s "")
  | Number n => truthy n
  | Date _ | Obj _ => true
  end.

(** [v || d]. *)
Definition orElse (v d : value) : value := if toBoolean v then v else d.

(** [v === 'text']. *)
Definition isText (v : value) (text : string) : bool :=
  match v with
  | Str s => String.eqb s text
  | _ => false
  end.

(** What [JSON.parse(JSON.stringify(v))] gives: a property whose value is
    [undefined] is left out and a number that is not finite becomes [null].
    A date is written as text, which none of the readers looks at. *)
Fixpoint toJSON (v : value) : value :=
  match v with
  | Number (Fin q) => Number (Fin q)
  | Number _ => Null
  | Obj fields =>
      Obj ((fix properties (l : list (string * value)) :=
              match l with
              | [] => []
              | (k, x) :: rest =>
                  match x with
                  | Undefined => properties rest
                  | _ => (k, toJSON x) :: properties rest
                  end
              end) fields)
  | _ => v
  end.

(** An entry of [this.jobs]: the job with the time [createVideoJob] stamped
    it with and the time stamp in the name of its output file. *)
Record tracked : Type := {
  tracked_job : Server.job;
  created : num;
  timestamp : string
}.

Definition registry : Type := list (string * tracked).

Fixpoint get (id : string) (jobs : registry) : option tracked :=
  match jobs with
  | [] => None
  | (k, t) :: rest => if String.eqb id k then Some t else get id rest
  end.

(** [this.jobs.delete(id)]. *)
Fixpoint delete (id : string) (jobs : registry) : registry :=
  match jobs with
  | [] => []
  | (k, t) :: rest =>
      if String.eqb id k then rest else (k, t) :: delete id rest
  end.

Definition statusName (st : Server.job_status) : string :=
  match st with
  | Server.Queued => "queued"
  | Server.Processing => "processing"
  | Server.Completed => "completed"
  | Server.Errored => "error"
  end.

(** [path.basename(job.outputFile)]: the generators name the file after the
    kind of artifact and the time. *)
Definition outputFilename (t : Server.tier) (timestamp : string) : string :=
  match t with
  | Server.RealVideo => "route_video_" ++ timestamp ++ ".mp4"
  | Server.StaticImage => "route_image_" ++ timestamp ++ ".png"
  | Server.Manifest => "route_data_" ++ timestamp ++ ".json"
  end.

(** [job.downloadUrl], which the generators set together with
    [job.outputFile]. *)
Definition downloadUrl (j : Server.job) : value :=
  match Server.outputFile j with
  | Some _ => Str ("/api/export/download/video/" ++ Server.job_id j)
  | None => Undefined
  end.

Definition getJobStatus (jobId : string) (jobs : registry) : object :=
  match get jobId jobs with
  | None => [ ("error", Str "Job not found") ]
  | Some t =>
      let job := tracked_job t in
      [ ("id", Str (Server.job_id job));
        ("status", Str (statusName (Server.status job)));
        ("progress", Number (Server.progress job));
        ("created", Date (created t));
        ("error", match Server.job_error job with
                  | Some message => Str message
                  | None => Null
                  end);
        ("downloadUrl", downloadUrl job);
        ("filename", match Server.outputFile job with
                     | Some kind => Str (outputFilename kind (timestamp t))
                     | None => Null
                     end) ]
  end.

(** The handler of [GET /video/:jobId/status]: the body of its response. *)
Definition videoStatus (jobId : string) (jobs : registry) : value :=
  Obj [ ("success", Bool true); ("data", Obj (getJobStatus jobId jobs)) ].

(** The handler of [GET /download/video/:jobId]. *)
Inductive download : Type :=
| NotFound (error : string) (status : value)           (* status 404 *)
| Streamed (outputFile : value) (filename : value).    (* the file is sent *)

Definition downloadVideo (jobId : string) (jobs : registry) : download :=
  let job := getJobStatus jobId jobs in
  (* [!job] is false, the summary being an object *)
  if negb (isText (property "status" job) "completed")
  then NotFound "Video not found or not ready"
         (orElse (property "status" job) (Str "not_found"))
  else if negb (toBoolean (property "outputFile" job))
  then NotFound "Video file not available" Undefined
  else Streamed (property "outputFile" job)
         (orElse (property "filename" job) (Str ("video_" ++ jobId ++ ".json"))).

(** [pollProgress] of [UIController.showExportProgress], given the parsed
    body of the response: what it does after it has written the percentage
    and the progress message to the page.  [GaveUp None] is a [TypeError]
    that its [catch] reports. *)
Inductive poll_outcome : Type :=
| Ready                              (* 'Video ready!', no further poll *)
| GaveUp (message : option value)    (* failure notification, no further poll *)
| PollAgain.                         (* [setTimeout(pollProgress, 2000)] *)

Definition pollProgress (result : value) : poll_outcome :=
  match member "success" result with
  | None => GaveUp None
  | Some success =>
      if toBoolean success then
        match member "data" result with
        | None => GaveUp None
        | Some status =>
            match member "progress" status, member "status" status,
                  member "error" status with
            | Some _, Some st, Some error =>
                if isText st "completed" then Ready
                else if isText st "failed"
                then GaveUp (Some (orElse error (Str "Video generation failed")))
                else PollAgain
            | _, _, _ => GaveUp None
            end
        end
      else
        match member "error" result with
        | Some error => GaveUp (Some (orElse error (Str "Failed to get status")))
        | None => GaveUp None
        end
  end.

(** What [pollExportProgress] of the generator leaves behind, given the
    parsed body of the response. *)
Record export_view : Type := {
  view_progress : value;                  (* this.exportProgress *)
  view_status : value;                    (* this.exportStatus *)
  view_link : option (value * value);     (* the download link shown *)
  view_polling : bool                     (* [setTimeout(poll, 1000)] *)
}.

Definition handleExportComplete (status : value) : export_view :=
  {| view_progress := Number (Fin 100);
     view_status := Str "completed";
     view_link :=
       match member "downloadUrl" status, member "filename" status with
       | Some url, Some filename =>
           if toBoolean url then Some (url, filename) else None
       | _, _ => None
       end;
     view_polling := false |}.

Definition handleExportError : export_view :=
  {| view_progress := Number (Fin 0); view_status := Str "error";
     view_link := None; view_polling := false |}.

Definition pollExportProgress (status : value) : export_view :=
  match member "progress" status, member "status" status with
  | Some progress, Some st =>
      if isText st "completed" then handleExportComplete status
      else if isText st "error" then handleExportError
      else {| view_progress := orElse progress (Number (Fin 0));
              view_status := st;
              view_link := None;
              view_polling := isText st "processing" |}
  | _, _ => handleExportError
  end.

(** [cleanupOldJobs]: [now - job.created > maxAge]. *)
Definition stale (now maxAge : num) (t : tracked) : bool :=
  jlt maxAge (now - created t)%js.

(** The loop over [this.jobs.entries()]: [entries] are the entries still to
    visit, [jobs] is the map, [unlinked] the output files removed so far. *)
Fixpoint cleanupLoop (now maxAge : num) (entries : registry)
  (jobs : registry) (unlinked : list string) : registry * list string :=
  match entries with
  | [] => (jobs, unlinked)
  | (jobId, t) :: rest =>
      if stale now maxAge t then
        let unlinked' :=
          match Server.outputFile (tracked_job t) with
          | Some kind => (unlinked ++ [outputFilename kind (timestamp t)])%list
          | None => unlinked
          end in
        cleanupLoop now maxAge rest (delete jobId jobs) unlinked'
      else cleanupLoop now maxAge rest jobs unlinked
  end.

Definition cleanupOldJobs (now maxAge : num) (jobs : registry)
  : registry * list string :=
  cleanupLoop now maxAge jobs jobs [].

(** The output file of an entry, if the clean-up removes it. *)
Definition removedFile (now maxAge : num) (e : string * tracked)
  : list string :=
  if stale now maxAge (snd e) then
    match Server.outputFile (tracked_job (snd e)) with
    | Some kind => [outputFilename kind (timestamp (snd e))]
    | None => []
    end
  else [].

(** [maxAge = 24 * 60 * 60 * 1000]. *)
Definition defaultMaxAge : num := Fin 86400000.

(** Two jobs of the sample data: one that ended with its video, one that
    is still queued. *)
Definition sampleJobs : registry :=
  [ ("job-1",
     {| tracked_job :=
          Server.processVideo
            {| Server.createCanvas := true; Server.ffmpeg := true |}
            {| Server.frameWriteError := None; Server.encodeError := None;
               Server.staticImageError := None;
               Server.manifestWriteError := None |}
            (Server.newJob "job-1" Samples.sampleData);
        created := Fin 0;
        timestamp := "1700000000000" |});
    ("job-2",
     {| tracked_job := Server.newJob "job-2" Samples.sampleData;
        created := Fin 90000000;
        timestamp := "" |}) ].

End Jobs.

(** ** Timeline controls ([bindEvents], [updateTimelineDisplay]) *)

Module Controls.

Import Timeline.

(** The click handler of the play button. *)
Definition playButton (now0 now1 : num) (s : state) : state :=
  if isPlaying s then pausePreview s else playPreview now0 now1 s.


(** The progress of the last call of [renderFrame]. *)
Definition lastRendered (s : state) : option num :=
  match rev (rendered s) with
  | c :: _ => Some (render_progress c)
  | [] => None
  end.

End Controls.

(** ** The order and the range of the preview's strokes
    ([drawRoutesAtProgress], [drawProgressiveWaypoints]) *)

Module DrawOrder.

(** [route.animation?.delay || 0]. *)
Definition delayOf (r : route) : num :=
  or_default (animation_delay r) (Fin 0).

(** [route.animation?.duration || 3000]. *)
Definition durationOf (r : route) : num :=
  or_default (animation_duration r) (Fin 3000).

Definition finiteDelay (r : route) : Prop :=
  exists d, delayOf r = Fin d.

Definition positiveDuration (r : route) : Prop :=
  exists D, durationOf r = Fin D /\ 0 < D.

Definition notAfter (a b : route) : Prop :=
  jle (delayOf a) (delayOf b) = true.

Definition hasDelay (d : Q) (r : route) : bool :=
  match delayOf r with
  | Fin x => Qeq_bool x d
  | _ => false
  end.

(** Where [array.slice(0, last)] ends on an array of [len] elements, for a
    whole number [last]: a negative one counts from the end of the array. *)
Definition sliceEnd (len : Z) (last : num) : num :=
  match last with
  | NaN => Fin 0
  | _ =>
      if jlt last (Fin 0) then jmax (of_Z len + last)%js (Fin 0)
      else jmin last (of_Z len)
  end.

(** The callback of [waypoints.slice(0, visibleWaypoints).forEach] runs for
    [index]; in export mode the function has returned before. *)
Definition markerPainted (exporting : bool) (totalWaypoints : Z)
  (progress : num) (index : Z) : bool :=
  negb exporting && (0 <=? index)%Z &&
  jlt (of_Z index)
      (sliceEnd totalWaypoints
         (RouteTiming.visibleWaypoints exporting totalWaypoints progress)).

End DrawOrder.

(** ** Editing the routes ([MapCanvas.removeWaypoint], [removeRoute],
    [toggleRouteVisibility], [getStatistics])

    The route objects are shared: [this.routes] and [this.currentRoute]
    refer to the same objects, and the erase tool changes a route in place.
    The embedding keeps the objects in a store and holds references to them,
    which are positions in the store. *)

Module Editing.

Record editor : Type := {
  ed_objects : list route;        (* the route objects *)
  ed_routes : list nat;           (* this.routes *)
  ed_current : option nat         (* this.currentRoute *)
}.

Definition object (e : editor) (ref : nat) : option route :=
  nth_error (ed_objects e) ref.

Fixpoint replace {A : Type} (i : nat) (x : A) (l : list A) : list A :=
  match l, i with
  | [], _ => []
  | _ :: rest, O => x :: rest
  | y :: rest, S i' => y :: replace i' x rest
  end.

(** A write to a field of the object behind [ref]. *)
Definition assign (ref : nat) (r : route) (e : editor) : editor :=
  {| ed_objects := replace ref r (ed_objects e);
     ed_routes := ed_routes e;
     ed_current := ed_current e |}.

Definition with_waypoints (wps : list waypoint) (r : route) : route :=
  {| route_id := route_id r; route_name := route_name r;
     waypoints := wps; visible := visible r;
     route_animation := route_animation r; parentRoute := parentRoute r |}.

Definition with_visible (v : bool) (r : route) : route :=
  {| route_id := route_id r; route_name := route_name r;
     waypoints := waypoints r; visible := v;
     route_animation := route_animation r; parentRoute := parentRoute r |}.

(** [Math.abs]. *)
Definition jabs (a : num) : num :=
  match a with
  | Fin x => Fin (Qabs x)
  | NInf => PInf
  | _ => a
  end.

(** The test of [findIndex] in [removeWaypoint]. *)
Definition near (waypoint wp : waypoint) : bool :=
  jlt (jabs (wp_x wp - wp_x waypoint)%js) (Fin 5) &&
  jlt (jabs (wp_y wp - wp_y waypoint)%js) (Fin 5).

(** [index = l.findIndex(f)] followed by [l.splice(index, 1)]; [None] when
    [findIndex] gives -1. *)
Fixpoint spliceFound {A : Type} (f : A -> bool) (l : list A)
  : option (list A) :=
  match l with
  | [] => None
  | x :: rest =>
      if f x then Some rest
      else match spliceFound f rest with
           | Some rest' => Some (x :: rest')
           | None => None
           end
  end.

Fixpoint findIndex {A : Type} (f : A -> bool) (l : list A) : option nat :=
  match l with
  | [] => None
  | x :: rest =>
      if f x then Some 0%nat
      else match findIndex f rest with
           | Some i => Some (S i)
           | None => None
           end
  end.

(** [l.splice(i, 1)]. *)
Fixpoint removeAt {A : Type} (i : nat) (l : list A) : list A :=
  match l, i with
  | [], _ => []
  | _ :: rest, O => rest
  | x :: rest, S i' => x :: removeAt i' rest
  end.

(** [route.id === routeId] for the route behind [ref]. *)
Definition hasId (e : editor) (routeId : string) (ref : nat) : bool :=
  match object e ref with
  | Some r => String.eqb (route_id r) routeId
  | None => false
  end.

Definition removeRoute (routeId : string) (e : editor) : editor :=
  match findIndex (hasId e routeId) (ed_routes e) with
  | None => e
  | Some index =>
      {| ed_objects := ed_objects e;
         ed_routes := removeAt index (ed_routes e);
         ed_current :=
           match ed_current e with
           | Some ref => if hasId e routeId ref then None else Some ref
           | None => None
           end |}
  end.

(** The body of the loop of [removeWaypoint] for a route in which a
    waypoint was found, [wps] being its waypoints after the [splice]. *)
Definition eraseAt (ref : nat) (r : route) (wps : list waypoint)
  (e : editor) : editor :=
  let e1 := assign ref (with_waypoints wps r) e in
  match wps with
  | [] => removeRoute (route_id r) e1
  | _ :: _ => e1
  end.

(** The loop of [removeWaypoint] over the routes still to visit; it is left
    after the first route in which a waypoint is found. *)
Fixpoint removeWaypointLoop (waypoint : waypoint) (pending : list nat)
  (e : editor) : editor :=
  match pending with
  | [] => e
  | ref :: rest =>
      match object e ref with
      | Some r =>
          match spliceFound (near waypoint) (waypoints r) with
          | Some wps => eraseAt ref r wps e
          | None => removeWaypointLoop waypoint rest e
          end
      | None => removeWaypointLoop waypoint rest e
      end
  end.

Definition removeWaypoint (waypoint : waypoint) (e : editor) : editor :=
  removeWaypointLoop waypoint (ed_routes e) e.

Definition toggleRouteVisibility (routeId : string) (e : editor) : editor :=
  match find (hasId e routeId) (ed_routes e) with
  | Some ref =>
      match object e ref with
      | Some r => assign ref (with_visible (negb (visible r)) r) e
      | None => e
      end
  | None => e
  end.

(** [getStatistics]: [totalRoutes] and [totalWaypoints]. *)
Definition waypointCount (e : editor) (ref : nat) : nat :=
  match object e ref with
  | Some r => List.length (waypoints r)
  | None => 0%nat
  end.

Definition totalRoutes (e : editor) : nat := List.length (ed_routes e).

Definition totalWaypoints (e : editor) : nat :=
  fold_left (fun sum ref => (sum + waypointCount e ref)%nat) (ed_routes e)
    0%nat.

(** No route is listed twice and every listed reference is to an object. *)
Definition wellFormed (e : editor) : Prop :=
  NoDup (ed_routes e) /\
  Forall (fun ref => (ref < List.length (ed_objects e))%nat) (ed_routes e).

(** The listed routes have ids of their own. *)
Definition uniqueIds (e : editor) : Prop :=
  forall ref1 ref2 r1 r2,
    In ref1 (ed_routes e) -> In ref2 (ed_routes e) ->
    object e ref1 = Some r1 -> object e ref2 = Some r2 ->
    route_id r1 = route_id r2 -> ref1 = ref2.

(** A waypoint of the route behind [ref] passes the test of
    [removeWaypoint]. *)
Definition touches (waypoint : waypoint) (e : editor) (ref : nat) : bool :=
  match object e ref with
  | Some r => existsb (near waypoint) (waypoints r)
  | None => false
  end.

(** Two routes, the second of a single waypoint and being drawn. *)
Definition sampleEditor : editor :=
  {| ed_objects :=
       [ Samples.timedRoute "a" 0 3000;
         with_waypoints [Samples.wp 100 100] (Samples.timedRoute "b" 0 3000) ];
     ed_routes := [0%nat; 1%nat];
     ed_current := Some 1%nat |}.

End Editing.

(** * Properties *)

(** ** Numbers *)

Section NumFacts.

Lemma Qlt_bool_iff (x y : Q) : Qlt_bool x y = true <-> x < y.
Proof.
  unfold Qlt_bool. rewrite negb_true_iff. split; intro H.
  - apply Qnot_le_lt. intro Hle. apply Qle_bool_iff in Hle. congruence.
  - destruct (Qle_bool y x) eqn:E; [|reflexivity].
    apply Qle_bool_iff in E. exfalso. exact (Qlt_not_le _ _ H E).
Qed.

Lemma Qlt_bool_false (x y : Q) : Qlt_bool x y = false <-> y <= x.
Proof.
  unfold Qlt_bool. rewrite negb_false_iff. apply Qle_bool_iff.
Qed.

Lemma Qle_bool_false (x y : Q) : Qle_bool x y = false <-> y < x.
Proof.
  split; intro H.
  - apply Qnot_le_lt. intro Hle. apply Qle_bool_iff in Hle. congruence.
  - destruct (Qle_bool x y) eqn:E; [|reflexivity].
    apply Qle_bool_iff in E. exfalso. exact (Qlt_not_le _ _ H E).
Qed.

Lemma Qeq_bool_false (x y : Q) : Qeq_bool x y = false <-> ~ x == y.
Proof.
  split.
  - apply Qeq_bool_neq.
  - intro H. destruct (Qeq_bool x y) eqn:E; [|reflexivity].
    apply Qeq_bool_iff in E. contradiction.
Qed.

Lemma in_unit_Fin (q : Q) : in_unit (Fin q) <-> 0 <= q <= 1.
Proof.
  unfold in_unit; simpl. now rewrite !Qle_bool_iff.
Qed.

Lemma in_unit_inv (a : num) :
  in_unit a -> exists q, a = Fin q /\ 0 <= q <= 1.
Proof.
  destruct a as [q| | |]; intros [H0 H1]; simpl in *; try discriminate.
  exists q. split; [reflexivity|]. now rewrite <- !Qle_bool_iff.
Qed.

Lemma num_eq_refl (a : num) : a =n= a.
Proof. destruct a; simpl; auto. reflexivity. Qed.

Lemma num_eq_sym (a b : num) : a =n= b -> b =n= a.
Proof. destruct a, b; simpl; auto. intro H. now symmetry. Qed.

Lemma num_eq_trans (a b c : num) : a =n= b -> b =n= c -> a =n= c.
Proof.
  destruct a, b, c; simpl; auto; try contradiction.
  intros H1 H2. now rewrite H1.
Qed.

Lemma truthy_Fin (q : Q) : truthy (Fin q) = true <-> ~ q == 0.
Proof.
  simpl. rewrite negb_true_iff. apply Qeq_bool_false.
Qed.

End NumFacts.

(** Turns the boolean tests of the number model into propositions. *)
Ltac qprop :=
  repeat match goal with
  | H : Qle_bool _ _ = true |- _ => apply Qle_bool_iff in H
  | H : Qle_bool _ _ = false |- _ => apply Qle_bool_false in H
  | H : Qlt_bool _ _ = true |- _ => apply Qlt_bool_iff in H
  | H : Qlt_bool _ _ = false |- _ => apply Qlt_bool_false in H
  | H : Qeq_bool _ _ = true |- _ => apply Qeq_bool_iff in H
  | H : Qeq_bool _ _ = false |- _ => apply Qeq_bool_false in H
  | |- Qle_bool _ _ = true => apply Qle_bool_iff
  | |- Qle_bool _ _ = false => apply Qle_bool_false
  | |- Qlt_bool _ _ = true => apply Qlt_bool_iff
  | |- Qlt_bool _ _ = false => apply Qlt_bool_false
  | |- Qeq_bool _ _ = true => apply Qeq_bool_iff
  | |- Qeq_bool _ _ = false => apply Qeq_bool_false
  end.

(** Case split on a boolean test of the number model. *)
Ltac qcase c :=
  let E := fresh "E" in destruct c eqn:E; qprop.

(** ** Easing library *)

Module EasingFacts.

Import Easing.

(** An easing function that is a polynomial [p] on the unit interval. *)
Lemma law_of_polynomial (f : num -> num) (p : Q -> Q) :
  (forall q, 0 <= q <= 1 -> f (Fin q) =n= Fin (p q)) ->
  (forall q, 0 <= q <= 1 -> 0 <= p q <= 1) ->
  p 0 == 0 -> p 1 == 1 ->
  (forall q r, 0 <= q -> q <= r -> r <= 1 -> p q <= p r) ->
  easing_law f.
Proof.
  intros Hf Hrange H0 H1 Hmono.
  assert (Hval : forall q, 0 <= q <= 1 ->
            exists v, f (Fin q) = Fin v /\ v == p q).
  { intros q Hq. specialize (Hf q Hq).
    destruct (f (Fin q)) as [v| | |]; simpl in Hf; try contradiction.
    now exists v. }
  constructor.
  - intros t Ht. apply in_unit_inv in Ht. destruct Ht as (q & -> & Hq).
    destruct (Hval q Hq) as (v & -> & Hv). apply in_unit_Fin.
    rewrite Hv. auto.
  - destruct (Hval 0) as (v & -> & Hv); [lra|]. simpl. now rewrite Hv.
  - destruct (Hval 1) as (v & -> & Hv); [lra|]. simpl. now rewrite Hv.
  - intros t u Ht Hu Hle.
    apply in_unit_inv in Ht. destruct Ht as (q & -> & Hq).
    apply in_unit_inv in Hu. destruct Hu as (r & -> & Hr).
    simpl in Hle. qprop.
    destruct (Hval q Hq) as (v & -> & Hv).
    destruct (Hval r Hr) as (w & -> & Hw).
    simpl. qprop. rewrite Hv, Hw. apply Hmono; lra.
Qed.

Lemma cube_mono (q r : Q) : 0 <= q -> q <= r -> q * q * q <= r * r * r.
Proof.
  intros H0 Hle.
  assert (H2 : q * q <= r * r) by nra.
  assert (H3 : q * q * q <= r * r * q) by nra.
  assert (H4 : r * r * q <= r * r * r) by nra.
  lra.
Qed.

Lemma linear_law : easing_law linear.
Proof.
  apply (law_of_polynomial linear (fun q => q)); intros; simpl;
    try reflexivity; lra.
Qed.

Lemma easeInQuad_law : easing_law easeInQuad.
Proof.
  apply (law_of_polynomial easeInQuad (fun q => q * q)); intros; simpl;
    try reflexivity; try nra; lra.
Qed.

Lemma easeOutQuad_law : easing_law easeOutQuad.
Proof.
  apply (law_of_polynomial easeOutQuad (fun q => q * (2 - q))); intros; simpl;
    try reflexivity; try nra; lra.
Qed.

Lemma easeInCubic_law : easing_law easeInCubic.
Proof.
  apply (law_of_polynomial easeInCubic (fun q => q * q * q)); intros; simpl;
    try reflexivity; try lra.
  - assert (0 <= q * q <= 1) by nra. nra.
  - now apply cube_mono.
Qed.

Lemma easeOutCubic_law : easing_law easeOutCubic.
Proof.
  apply (law_of_polynomial easeOutCubic
           (fun q => (q - 1) * (q - 1) * (q - 1) + 1)); intros; simpl;
    try reflexivity; try lra.
  - assert (H1 : 0 <= (1 - q) * (1 - q) <= 1) by nra.
    assert (H2 : 0 <= (1 - q) * (1 - q) * (1 - q) <= 1) by nra.
    lra.
  - assert (H2 : (1 - r) * (1 - r) * (1 - r) <= (1 - q) * (1 - q) * (1 - q))
      by (apply cube_mono; lra).
    lra.
Qed.

Lemma inOutQuad_range (q : Q) : 0 <= q <= 1 -> 0 <= inOutQuad q <= 1.
Proof.
  intros Hq. unfold inOutQuad. qcase (Qlt_bool q 0.5); nra.
Qed.

Lemma inOutQuad_mono (q r : Q) :
  0 <= q -> q <= r -> r <= 1 -> inOutQuad q <= inOutQuad r.
Proof.
  intros H0 Hle H1. unfold inOutQuad.
  qcase (Qlt_bool q 0.5); qcase (Qlt_bool r 0.5); nra.
Qed.

Lemma inOutCubic_range (q : Q) : 0 <= q <= 1 -> 0 <= inOutCubic q <= 1.
Proof.
  intros Hq. unfold inOutCubic. qcase (Qlt_bool q 0.5).
  - assert (H2 : 0 <= q * q * q) by (assert (0 <= q * q) by nra; nra).
    assert (H3 : q * q * q <= 0.5 * 0.5 * 0.5) by (apply cube_mono; lra).
    lra.
  - assert (H2 : 0 <= (1 - q) * (1 - q) * (1 - q))
      by (assert (0 <= (1 - q) * (1 - q)) by nra; nra).
    assert (H3 : (1 - q) * (1 - q) * (1 - q) <= 0.5 * 0.5 * 0.5)
      by (apply cube_mono; lra).
    lra.
Qed.

Lemma inOutCubic_mono (q r : Q) :
  0 <= q -> q <= r -> r <= 1 -> inOutCubic q <= inOutCubic r.
Proof.
  intros H0 Hle H1.
  pose proof (inOutCubic_range q) as Rq. pose proof (inOutCubic_range r) as Rr.
  unfold inOutCubic in *.
  qcase (Qlt_bool q 0.5); qcase (Qlt_bool r 0.5).
  - assert (q * q * q <= r * r * r) by (apply cube_mono; lra). lra.
  - assert (q * q * q <= 0.5 * 0.5 * 0.5) by (apply cube_mono; lra).
    assert ((1 - r) * (1 - r) * (1 - r) <= 0.5 * 0.5 * 0.5)
      by (apply cube_mono; lra).
    lra.
  - lra.
  - assert ((1 - r) * (1 - r) * (1 - r) <= (1 - q) * (1 - q) * (1 - q))
      by (apply cube_mono; lra).
    lra.
Qed.

Lemma easeInOutQuad_law : easing_law easeInOutQuad.
Proof.
  apply (law_of_polynomial easeInOutQuad inOutQuad).
  - intros q Hq. unfold easeInOutQuad, inOutQuad. simpl.
    destruct (Qlt_bool q 0.5); simpl; reflexivity.
  - apply inOutQuad_range.
  - reflexivity.
  - reflexivity.
  - apply inOutQuad_mono.
Qed.

Lemma easeInOut_law : easing_law easeInOut.
Proof.
  apply (law_of_polynomial easeInOut inOutQuad).
  - intros q Hq. unfold easeInOut, inOutQuad. simpl.
    destruct (Qlt_bool q 0.5); simpl; reflexivity.
  - apply inOutQuad_range.
  - reflexivity.
  - reflexivity.
  - apply inOutQuad_mono.
Qed.

Lemma easeInOutCubic_law : easing_law easeInOutCubic.
Proof.
  apply (law_of_polynomial easeInOutCubic inOutCubic).
  - intros q Hq. unfold easeInOutCubic, inOutCubic. simpl.
    destruct (Qlt_bool q 0.5); simpl; reflexivity.
  - apply inOutCubic_range.
  - reflexivity.
  - reflexivity.
  - apply inOutCubic_mono.
Qed.

(** Every function of the table has the laws of the specification: it maps
    the unit interval into itself, fixes 0 and 1 and is non-decreasing. *)
Lemma easingFunctions_law (name : string) (f : num -> num) :
  In (name, f) easingFunctions -> easing_law f.
Proof.
  unfold easingFunctions. simpl.
  intros [H|[H|[H|[H|[H|[H|[H|[H|[]]]]]]]]]; inversion H; subst.
  - apply linear_law.
  - apply easeInQuad_law.
  - apply easeOutQuad_law.
  - apply easeInOutQuad_law.
  - apply easeInCubic_law.
  - apply easeOutCubic_law.
  - apply easeInOutCubic_law.
  - apply easeInOut_law.
Qed.

Lemma ownProperty_In (name : string) (tbl : list (string * (num -> num)))
  (f : num -> num) :
  ownProperty name tbl = Some f -> In (name, f) tbl.
Proof.
  induction tbl as [|[k g] rest IH]; simpl; [discriminate|].
  destruct (String.eqb name k) eqn:E.
  - apply String.eqb_eq in E. subst k. intros [= ->]. now left.
  - intro H. right. auto.
Qed.

Lemma ownProperty_supported (name : string) :
  supported name = false -> ownProperty name easingFunctions = None.
Proof.
  unfold supported. generalize easingFunctions as tbl.
  induction tbl as [|[k g] rest IH]; simpl; [reflexivity|].
  destruct (String.eqb name k); simpl; [discriminate|exact IH].
Qed.

(** A supported name selects its function of the table. *)
Lemma selectEasing_supported (name : string) :
  supported name = true ->
  exists f, selectEasing name = EasingFn f /\ In (name, f) easingFunctions.
Proof.
  unfold supported, selectEasing, getProperty.
  intro H. destruct (ownProperty name easingFunctions) as [f|] eqn:E.
  - exists f. split; [reflexivity|]. now apply ownProperty_In.
  - exfalso. revert H E. generalize easingFunctions as tbl.
    induction tbl as [|[k g] rest IH]; simpl; [discriminate|].
    destruct (String.eqb name k); simpl; [discriminate|exact IH].
Qed.

(** A name that is no property of the table at all, own or inherited,
    selects [linear]. *)
Lemma selectEasing_fallback (name : string) :
  supported name = false -> inherited name = false ->
  selectEasing name = EasingFn linear.
Proof.
  intros Hs Hi. unfold selectEasing, getProperty.
  now rewrite (ownProperty_supported name Hs), Hi.
Qed.

(** A name inherited from [Object.prototype] selects that member. *)
Lemma selectEasing_inherited (name : string) :
  supported name = false -> inherited name = true ->
  selectEasing name = ObjectPrototypeMember name.
Proof.
  intros Hs Hi. unfold selectEasing, getProperty.
  now rewrite (ownProperty_supported name Hs), Hi.
Qed.

End EasingFacts.

(** ** Order facts of the number model *)

Section OrderFacts.

Lemma jle_refl (a : num) : isNaN a = false -> jle a a = true.
Proof.
  destruct a; simpl; try reflexivity; try discriminate.
  intros _. qprop. lra.
Qed.

Lemma jle_trans (a b c : num) :
  jle a b = true -> jle b c = true -> jle a c = true.
Proof.
  destruct a, b, c; simpl; try reflexivity; try discriminate.
  intros H1 H2. qprop. lra.
Qed.

Lemma jle_total (a b : num) :
  isNaN a = false -> isNaN b = false -> jle a b = false -> jle b a = true.
Proof.
  destruct a, b; simpl; try reflexivity; try discriminate.
  intros _ _ H. qprop. lra.
Qed.

Lemma jle_not_NaN_l (a b : num) : jle a b = true -> isNaN a = false.
Proof. destruct a, b; simpl; try reflexivity; discriminate. Qed.

Lemma jle_not_NaN_r (a b : num) : jle a b = true -> isNaN b = false.
Proof. destruct a, b; simpl; try reflexivity; discriminate. Qed.

(** [Math.max(0, Math.min(time, total))] lies between 0 and [total]. *)
Lemma clamp_in_range (time total : num) :
  isNaN time = false -> jle (Fin 0) total = true ->
  jle (Fin 0) (jmax (Fin 0) (jmin time total)) = true /\
  jle (jmax (Fin 0) (jmin time total)) total = true.
Proof.
  intros Ht H0.
  destruct time as [t| | |], total as [T| | |]; simpl in *;
    try discriminate; qprop.
  - qcase (Qle_bool t T); simpl.
    + qcase (Qle_bool 0 t); simpl; qprop; split; qprop; lra.
    + qcase (Qle_bool 0 T); simpl; qprop; split; qprop; lra.
  - qcase (Qle_bool 0 t); simpl; split; qprop; try reflexivity; lra.
  - qcase (Qle_bool 0 T); simpl; split; qprop; lra.
  - split; reflexivity.
  - split; qprop; lra.
  - split; reflexivity.
Qed.

End OrderFacts.

(** ** Timeline model *)

Module TimelineFacts.

Import Timeline.

Lemma renderFrame_time (p : num) (s : state) :
  currentTime (renderFrame p s) = currentTime s /\
  totalDuration (renderFrame p s) = totalDuration s /\
  isPlaying (renderFrame p s) = isPlaying s /\
  isExporting (renderFrame p s) = isExporting s.
Proof. repeat split. Qed.

Lemma time_in_range_total (s : state) :
  time_in_range s -> jle (Fin 0) (totalDuration s) = true.
Proof. intros [H0 H1]. exact (jle_trans _ _ _ H0 H1). Qed.

(** [seekTo] clamps: below 0 it yields 0, above the total duration the total
    duration, and in between the position itself. *)
Lemma seekTo_clamps (t T : Q) (s : state) :
  totalDuration s = Fin T -> 0 <= T ->
  currentTime (seekTo (Fin t) s) =n=
    Fin (if Qle_bool t 0 then 0 else if Qle_bool T t then T else t).
Proof.
  intros HT H0. unfold seekTo. simpl. rewrite HT. simpl.
  repeat match goal with
  | |- context [Qle_bool ?x ?y] => qcase (Qle_bool x y); simpl
  end; lra.
Qed.

Lemma seekTo_in_range (time : num) (s : state) :
  isNaN time = false -> jle (Fin 0) (totalDuration s) = true ->
  time_in_range (seekTo time s).
Proof.
  intros Ht H0. unfold time_in_range, seekTo. simpl.
  now apply clamp_in_range.
Qed.

Lemma stopPreview_in_range (s : state) :
  jle (Fin 0) (totalDuration s) = true ->
  currentTime (stopPreview s) = Fin 0 /\ time_in_range (stopPreview s).
Proof.
  intro H0. unfold time_in_range, stopPreview. simpl. auto.
Qed.

(** One run of [animate]: the new time is the elapsed time scaled by the
    speed, and the total duration once that is reached. *)
Lemma animate_in_range (a b v : Q) (s : state) :
  jle (Fin 0) (totalDuration s) = true ->
  a <= b -> 0 <= v -> playbackSpeed s = Fin v -> isPlaying s = true ->
  time_in_range (animate (Fin a) (Fin b) s) /\
  totalDuration (animate (Fin a) (Fin b) s) = totalDuration s /\
  (jge (Fin ((b - a) * v)) (totalDuration s) = true ->
   currentTime (animate (Fin a) (Fin b) s) = totalDuration s /\
   isPlaying (animate (Fin a) (Fin b) s) = false).
Proof.
  intros H0 Hab Hv Hs Hp. unfold animate, time_in_range.
  rewrite Hp. simpl. rewrite Hs. simpl.
  destruct (renderFrameThrows s); simpl;
    (destruct (totalDuration s) as [T| | |] eqn:HT; simpl in H0;
     try discriminate; unfold jge; simpl).
  - qcase (Qle_bool T ((b - a) * v)); simpl; rewrite ?HT, ?Hp; simpl;
      rewrite ?HT; repeat split; try discriminate; qprop; nra.
  - rewrite HT. repeat split; try discriminate. qprop. nra.
  - qcase (Qle_bool T ((b - a) * v)); simpl; rewrite ?HT, ?Hp; simpl;
      rewrite ?HT; repeat split; try discriminate; qprop; nra.
  - rewrite Hp. simpl. rewrite HT. repeat split; try discriminate.
    qprop. nra.
Qed.

Lemma animate_paused (startTime now : num) (s : state) :
  isPlaying s = false -> animate startTime now s = s.
Proof. intro H. unfold animate. now rewrite H. Qed.

(** The start reference [startAnimation] computes is not after the clock
    reading it was computed from. *)
Lemma startTime_not_after (a c v : Q) :
  0 <= c -> 0 < v ->
  exists r, (Fin a - Fin c / Fin v)%js = Fin r /\ r <= a.
Proof.
  intros Hc Hv. simpl.
  qcase (Qeq_bool v 0); [lra|].
  simpl. eexists. split; [reflexivity|].
  assert (0 <= c / v).
  { apply Qle_shift_div_l; lra. }
  lra.
Qed.

Lemma playPreview_in_range (a b v : Q) (s : state) :
  time_in_range s -> a <= b -> 0 < v -> playbackSpeed s = Fin v ->
  time_in_range (playPreview (Fin a) (Fin b) s) /\
  totalDuration (playPreview (Fin a) (Fin b) s) = totalDuration s.
Proof.
  intros Hr Hab Hv Hs. unfold playPreview.
  destruct (isPlaying s) eqn:Hp; [auto|].
  pose proof (time_in_range_total s Hr) as H0.
  destruct Hr as [Hc0 Hc1].
  unfold startAnimation.
  change (currentTime (set_playing true s)) with (currentTime s).
  change (playbackSpeed (set_playing true s)) with (playbackSpeed s).
  rewrite Hs.
  destruct (currentTime s) as [c| | |] eqn:Hc; simpl in Hc0; try discriminate.
  - qprop. destruct (startTime_not_after a c v Hc0 Hv) as (r & -> & Hr).
    destruct (animate_in_range r b v (set_playing true s)) as (H1 & H2 & _);
      simpl; auto; lra.
  - (* the position is [Infinity], and so is the total duration *)
    destruct (totalDuration s) as [T| | |] eqn:HT; simpl in Hc1;
      try discriminate.
    unfold animate, time_in_range. simpl. rewrite Hs, HT.
    qcase (Qle_bool 0 v); [|lra]. simpl.
    destruct (v ?= 0)%Q eqn:Ev.
    + apply Qeq_alt in Ev. lra.
    + apply Qlt_alt in Ev. lra.
    + simpl. destruct (renderFrameThrows _); simpl; rewrite HT; simpl; auto.
Qed.

Lemma tick_in_range (now : num) (s : state) :
  time_in_range s -> admissible s (Tick now) ->
  time_in_range (tick now s) /\ totalDuration (tick now s) = totalDuration s.
Proof.
  intros Hr Hadm. unfold tick.
  destruct (scheduled s) as [startTime|] eqn:Hsch; [|auto].
  destruct (Hadm startTime Hsch) as (a & b & v & -> & -> & Hab & Hs & Hv).
  destruct (isPlaying s) eqn:Hp.
  - destruct (animate_in_range a b v (set_scheduled None s)) as (H1 & H2 & _);
      simpl; auto.
    now apply time_in_range_total.
  - rewrite animate_paused by exact Hp. auto.
Qed.

(** C7, as stated, fails: [seekTo] clamps with
    [Math.max(0, Math.min(time, totalDuration))], which is [NaN] for a
    position that is no number (a [seekPreview] event without a time, an
    empty slider value), and the time it stores is then outside of
    [[0, totalDuration]]. *)
Lemma seek_to_NaN_leaves_range :
  time_in_range initial /\
  currentTime (apply (Seek NaN) initial) = NaN /\
  jle (Fin 0) (currentTime (apply (Seek NaN) initial)) = false /\
  ~ time_in_range (apply (Seek NaN) initial).
Proof.
  split; [split; reflexivity|]. split; [reflexivity|].
  split; [reflexivity|]. intros [H _]. discriminate H.
Qed.

(** C7, amended.  The invariant [0 <= currentTime <= totalDuration] is kept
    by every timeline operation (play, pause, stop, seek, tick) as long as
    the seek position is a number (not [NaN]), the clock does not run
    backwards between the start of the playback and a tick, and the playback
    speed is positive.  Seek sets the time to its argument clamped to
    [[0, totalDuration]], stop sets it to 0, pause leaves it, and a tick of
    the playing timeline that reaches the end sets it to the total duration
    and ends playback.  Under these conditions the time is never
    negative. *)
Theorem timeline_invariant_preserved (s : state) (op : operation) :
  time_in_range s -> admissible s op ->
  time_in_range (apply op s) /\
  totalDuration (apply op s) = totalDuration s /\
  match op with
  | Seek time =>
      currentTime (apply op s) = jmax (Fin 0) (jmin time (totalDuration s))
  | Stop => currentTime (apply op s) = Fin 0
  | Pause => currentTime (apply op s) = currentTime s
  | Tick now =>
      forall startTime,
        scheduled s = Some startTime -> isPlaying s = true ->
        jge ((now - startTime) * playbackSpeed s)%js (totalDuration s) = true ->
        currentTime (apply op s) = totalDuration s /\
        isPlaying (apply op s) = false
  | Play _ _ => isPlaying s = true -> apply op s = s
  end.
Proof.
  intros Hr Hadm. pose proof (time_in_range_total s Hr) as H0.
  destruct op as [now0 now1| | |time|now]; cbn [apply admissible] in *.
  - destruct Hadm as (a & b & v & -> & -> & Hab & Hs & Hv).
    destruct (playPreview_in_range a b v s Hr Hab Hv Hs) as [H1 H2].
    split; [exact H1|]. split; [exact H2|].
    intro Hp. unfold playPreview. now rewrite Hp.
  - split; [exact Hr|]. split; reflexivity.
  - destruct (stopPreview_in_range s H0) as [H1 H2].
    split; [exact H2|]. split; [reflexivity|exact H1].
  - split; [now apply seekTo_in_range|]. split; reflexivity.
  - destruct (tick_in_range now s Hr Hadm) as [H1 H2].
    split; [exact H1|]. split; [exact H2|].
    intros startTime Hsch Hp Hend. unfold tick. rewrite Hsch.
    destruct (Hadm startTime Hsch) as (a & b & v & -> & -> & Hab & Hs & Hv).
    destruct (animate_in_range a b v (set_scheduled None s))
      as (_ & _ & H5); simpl; auto.
    apply H5. rewrite Hs in Hend. exact Hend.
Qed.

(** The theorem at the fresh generator and a seek past the end. *)
Lemma timeline_invariant_preserved_witness :
  time_in_range initial /\
  admissible initial (Seek (Fin 7000)) /\
  time_in_range (apply (Seek (Fin 7000)) initial) /\
  currentTime (apply (Seek (Fin 7000)) initial) = Fin 5000.
Proof.
  assert (Hr : time_in_range initial) by (split; reflexivity).
  assert (Ha : admissible initial (Seek (Fin 7000))) by reflexivity.
  destruct (timeline_invariant_preserved initial (Seek (Fin 7000)) Hr Ha)
    as (H1 & _ & H3).
  split; [exact Hr|]. split; [exact Ha|]. split; [exact H1|].
  rewrite H3. reflexivity.
Defined.

(** C8, as stated, fails: with a total duration of 0 the progress
    [seekTo] computes is [0 / 0], that is [NaN], not 0, and it is what
    [renderFrame] is called with. *)
Lemma progress_of_zero_duration_is_NaN :
  let s := seekTo (Fin 1000) (setDuration (Fin 0) initial) in
  totalDuration s = Fin 0 /\
  time_in_range s /\
  globalProgress s = NaN /\
  ~ (globalProgress s =n= Fin 0) /\
  rendered s = [ {| render_progress := NaN; render_exporting := false |} ].
Proof.
  simpl. repeat split; try reflexivity. intro H. exact H.
Qed.

(** C8, amended.  In a state within range whose total duration is positive,
    the global progress is the quotient [currentTime / totalDuration], a
    number of the unit interval; [seekTo] and [updatePreview] hand exactly
    that value to [renderFrame].  Nothing guards the division: with a total
    duration of 0 the quotient is [NaN]. *)
Theorem globalProgress_defined (s : state) (c T : Q) :
  currentTime s = Fin c -> totalDuration s = Fin T -> time_in_range s ->
  (0 < T ->
     exists p, globalProgress s = Fin p /\ p == c / T /\ 0 <= p <= 1) /\
  (T == 0 -> globalProgress s = NaN) /\
  (forall time,
     rendered (seekTo time s) =
     (rendered s ++
      [ {| render_progress := globalProgress (seekTo time s);
           render_exporting := isExporting s |} ])%list) /\
  (isPlaying s = false ->
     rendered (updatePreview s) =
     (rendered s ++
      [ {| render_progress := globalProgress s;
           render_exporting := isExporting s |} ])%list).
Proof.
  intros Hc HT [H0 H1]. rewrite Hc, HT in *. simpl in H0, H1. qprop.
  unfold globalProgress. rewrite Hc, HT. simpl.
  repeat split.
  - intro HTpos. qcase (Qeq_bool T 0); [lra|].
    exists (c / T). split; [reflexivity|]. split; [reflexivity|].
    split.
    + apply Qle_shift_div_l; lra.
    + apply Qle_shift_div_r; lra.
  - intro HT0. qcase (Qeq_bool T 0); [|contradiction].
    assert (Hc0 : c == 0) by lra.
    apply Qeq_alt in Hc0. now rewrite Hc0.
  - intro Hp. unfold updatePreview. rewrite Hp. simpl.
    now rewrite Hc, HT.
Qed.

(** The theorem at the fresh generator moved to the middle of the timeline. *)
Lemma globalProgress_defined_witness :
  let s := seekTo (Fin 2500) initial in
  currentTime s = Fin 2500 /\ totalDuration s = Fin 5000 /\
  time_in_range s /\
  exists p, globalProgress s = Fin p /\ p == 2500 / 5000 /\ 0 <= p <= 1.
Proof.
  assert (Hc : currentTime (seekTo (Fin 2500) initial) = Fin 2500)
    by reflexivity.
  assert (HT : totalDuration (seekTo (Fin 2500) initial) = Fin 5000)
    by reflexivity.
  assert (Hr : time_in_range (seekTo (Fin 2500) initial))
    by (split; reflexivity).
  split; [exact Hc|]. split; [exact HT|]. split; [exact Hr|].
  apply (globalProgress_defined _ 2500 5000 Hc HT Hr). reflexivity.
Defined.

End TimelineFacts.

(** ** Route timing *)

Module RouteTimingFacts.

Import RouteTiming Samples.

Lemma Qdiv_cancel (a b : Q) : ~ b == 0 -> (a / b) * b == a.
Proof. intro Hb. field. exact Hb. Qed.

Lemma Qdiv_pos (a b : Q) : 0 < a -> 0 < b -> 0 < a / b.
Proof. intros Ha Hb. apply Qlt_shift_div_l; lra. Qed.


(** Before its start a route is skipped: no local progress is computed. *)
Lemma not_started_is_skipped :
  rawRouteProgress (Fin 10000) (Fin 0.25) (timedRoute "second" 5000 5000)
  = None.
Proof. reflexivity. Qed.

(** The first route of the scenario of the specification: half drawn at
    global progress 0.25. *)
Lemma scenario_first_route :
  exists x,
    rawRouteProgress (Fin 10000) (Fin 0.25) (timedRoute "first" 0 5000)
    = Some (Fin x) /\ x == 0.5.
Proof. eexists. split; reflexivity. Qed.



(** A route whose duration was edited to -2000 ms, on a 10 s timeline: past
    its start the local progress is negative, here -1/2 at progress 0.1. *)
Lemma negative_duration_never_completes :
  exists x,
    rawRouteProgress (Fin 10000) (Fin 0.1) (timedRoute "r" 0 (-2000))
    = Some (Fin x) /\ x == - (1 # 2).
Proof. eexists. split; reflexivity. Qed.

(** Every call [drawRoutesAtProgress] makes comes from a route of the list
    that is not skipped, with the eased local progress of that route. *)
Lemma forEachRoute_calls (f : num -> num) (total p : num)
  (routes : list route) (c : draw_call) :
  In c (forEachRoute f total p routes) ->
  In (drawn_route c) routes /\
  exists raw, rawRouteProgress total p (drawn_route c) = Some raw /\
              drawn_progress c = f raw.
Proof.
  induction routes as [|r rest IH]; simpl; [contradiction|].
  unfold drawRoute.
  destruct (rawRouteProgress total p r) as [raw|] eqn:E.
  - intros [<-|Hin].
    + simpl. split; [now left|]. now exists raw.
    + destruct (IH Hin) as [H1 H2]. split; [now right|exact H2].
  - intro Hin. destruct (IH Hin) as [H1 H2]. split; [now right|exact H2].
Qed.

Lemma insert_route_In (r x : route) (sorted : list route) :
  In x (insert_route r sorted) <-> x = r \/ In x sorted.
Proof.
  induction sorted as [|y rest IH]; simpl.
  - intuition.
  - destruct (delay_before r y); simpl; rewrite ?IH; intuition.
Qed.

(** Sorting by delay keeps the routes. *)
Lemma sortByDelay_In (x : route) (routes : list route) :
  In x (sortByDelay routes) <-> In x routes.
Proof.
  unfold sortByDelay.
  assert (H : forall acc,
            In x (fold_left (fun a r => insert_route r a) routes acc)
            <-> In x acc \/ In x routes).
  { induction routes as [|r rest IH]; intro acc; simpl.
    - intuition.
    - rewrite IH, insert_route_In. intuition. }
  rewrite H. simpl. intuition.
Qed.

(** What [drawRoutesAtProgress] draws: routes of its argument that are not
    skipped and have started, each at the eased local progress. *)
Lemma drawRoutesAtProgress_calls (s : Timeline.state) (routes : list route)
  (progress : num) (f : num -> num) (calls : list draw_call) (c : draw_call) :
  Easing.selectEasing (Timeline.easingFunction s) = Easing.EasingFn f ->
  drawRoutesAtProgress s routes progress = Some calls -> In c calls ->
  In (drawn_route c) routes /\
  exists raw,
    rawRouteProgress (Timeline.totalDuration s) (f progress) (drawn_route c)
    = Some raw /\
    drawn_progress c = f raw.
Proof.
  unfold drawRoutesAtProgress. intros -> [= <-] Hin.
  destruct (forEachRoute_calls _ _ _ _ _ Hin) as [H1 H2].
  split; [now apply sortByDelay_In|exact H2].
Qed.

(** In export mode no waypoint marker is painted. *)
Lemma no_markers_in_export (totalWaypoints : Z) (progress : num) :
  visibleWaypoints true totalWaypoints progress = Fin 0.
Proof. reflexivity. Qed.

(** C3 at a name outside the supported set that [Object.prototype]
    defines: the property read [this.easingFunctions[name]] finds the
    inherited member, which is truthy, so the fallback to [linear] is not
    taken; what is selected is no easing function, and the routes are not
    drawn with the linear easing. *)
Theorem inherited_name_is_not_linear :
  let s := Timeline.setEasing "toString" Timeline.initial in
  Easing.supported "toString" = false /\
  Easing.selectEasing "toString" = Easing.ObjectPrototypeMember "toString" /\
  Easing.selectEasing "toString" <> Easing.EasingFn Easing.linear /\
  drawRoutesAtProgress s [timedRoute "r" 0 3000] (Fin 0.5) = None /\
  Easing.selectEasing "bounce" = Easing.EasingFn Easing.linear.
Proof.
  cbv zeta. split; [reflexivity|]. split; [reflexivity|].
  split; [discriminate|]. split; reflexivity.
Qed.

(** The inherited name [constructor] selects [Object], which is no easing
    function either; but the [Number] object it returns is converted back
    wherever it is used, and the routes are drawn as with [linear]. *)
Lemma constructor_draws_like_linear (s : Timeline.state)
  (routes : list route) (progress : num) :
  Easing.selectEasing "constructor"
  = Easing.ObjectPrototypeMember "constructor" /\
  drawRoutesAtProgress (Timeline.setEasing "constructor" s) routes progress
  = drawRoutesAtProgress (Timeline.setEasing "linear" s) routes progress.
Proof.
  split; [reflexivity|].
  unfold drawRoutesAtProgress, Timeline.setEasing, Timeline.updatePreview.
  simpl. destruct (Timeline.isPlaying s); reflexivity.
Qed.

End RouteTimingFacts.

(** ** Frame producer *)

Module CaptureFacts.

Import Timeline Capture.

Lemma same_playback_refl (s : state) : same_playback s s.
Proof. repeat split. Qed.

Lemma same_playback_trans (s1 s2 s3 : state) :
  same_playback s1 s2 -> same_playback s2 s3 -> same_playback s1 s3.
Proof.
  unfold same_playback.
  intros (A1 & A2 & A3 & A4 & A5 & A6) (B1 & B2 & B3 & B4 & B5 & B6).
  repeat split; congruence.
Qed.

(** The loop changes the time, the export progress and the canvas only. *)
Lemma captureLoop_same_playback (fps total : num) (failing : option Z)
  (n : nat) :
  forall (i : Z) (frames : list frame) (s : state),
    same_playback s (snd (captureLoop fps total failing n i frames s)).
Proof.
  induction n as [|n IH]; intros i frames s; simpl.
  - apply same_playback_refl.
  - destruct (match failing with
              | Some k => (k =? i)%Z
              | None => false
              end).
    + simpl. repeat split.
    + eapply same_playback_trans; [|apply IH]. repeat split.
Qed.

(** Every frame the loop renders is rendered in the mode the loop was
    entered in: for a capture, in export mode. *)
Lemma captureLoop_rendered (fps total : num) (failing : option Z) (n : nat) :
  forall (i : Z) (frames : list frame) (s : state),
    exists calls,
      rendered (snd (captureLoop fps total failing n i frames s))
      = (rendered s ++ calls)%list /\
      Forall (fun c => render_exporting c = isExporting s) calls.
Proof.
  induction n as [|n IH]; intros i frames s; simpl.
  - exists []. split; [now rewrite app_nil_r|constructor].
  - destruct (match failing with
              | Some k => (k =? i)%Z
              | None => false
              end).
    + simpl. eexists. split; [reflexivity|]. repeat constructor.
    + match goal with
      | |- context [captureLoop fps total failing n ?j ?fr ?st] =>
          destruct (IH j fr st) as (calls & Hcalls & Hall)
      end.
      rewrite Hcalls. simpl. rewrite <- app_assoc. eexists.
      split; [reflexivity|]. constructor; [reflexivity|exact Hall].
Qed.

(** Without a failure the loop returns the frames of its [n] indexes. *)
Lemma captureLoop_frames (fps total : num) (n : nat) :
  forall (i : Z) (frames : list frame) (s : state),
    fst (captureLoop fps total None n i frames s) =
    (None, (frames ++ framesFrom fps (totalDuration s) n i)%list).
Proof.
  induction n as [|n IH]; intros i frames s; simpl.
  - now rewrite app_nil_r.
  - rewrite IH. simpl. now rewrite <- app_assoc.
Qed.

Lemma framesFrom_length (fps T : num) (n : nat) (i : Z) :
  List.length (framesFrom fps T n i) = n.
Proof.
  revert i. induction n as [|n IH]; intro i; simpl; [reflexivity|].
  now rewrite IH.
Qed.

Lemma framesFrom_nth (fps T : num) (n k : nat) (i : Z) :
  (k < n)%nat ->
  nth_error (framesFrom fps T n i) k = Some (frameAt fps T (i + Z.of_nat k)).
Proof.
  revert i k. induction n as [|n IH]; intros i k Hk; [lia|].
  destruct k as [|k]; simpl.
  - now rewrite Z.add_0_r.
  - rewrite IH by lia. f_equal. f_equal. lia.
Qed.

(** The number of frames for a finite total duration and frame rate. *)
Lemma iterations_totalFrames (f T : Q) (s : state) :
  totalDuration s = Fin T ->
  iterations (totalFrames (Fin f) s)
  = Some (Z.to_nat (Qceiling (f * T / 1000))).
Proof.
  intro HT. unfold totalFrames. rewrite HT. simpl.
  rewrite Qceiling_Z. do 2 f_equal. apply Qceiling_comp. field.
Qed.

(** A frame index below the frame count is sampled before the end. *)
Lemma sample_before_end (f T : Q) (k : nat) :
  0 < f -> (k < Z.to_nat (Qceiling (f * T / 1000)))%nat ->
  inject_Z (Z.of_nat k) / f * 1000 < T.
Proof.
  intros Hf Hk.
  pose proof (Qceiling_lt (f * T / 1000)) as Hc.
  assert (Hz : (Z.of_nat k <= Qceiling (f * T / 1000) - 1)%Z) by lia.
  assert (Hq : inject_Z (Z.of_nat k) < f * T / 1000).
  { eapply Qle_lt_trans; [|exact Hc]. now rewrite <- Zle_Qle. }
  set (x := inject_Z (Z.of_nat k)) in *.
  assert (H1 : (x / f) * f == x) by (field; lra).
  assert (H2 : (f * T / 1000) * 1000 == f * T) by field.
  set (y := x / f) in *. set (z := f * T / 1000) in *.
  nra.
Qed.

(** The frame producer in exact arithmetic, the arithmetic of the number
    model: for a frame rate [fps > 0] it returns
    [ceil(fps * totalDuration / 1000)] frames (none when that is not
    positive); the frame of index [i] is sampled at
    [timeMs = i * 1000 / fps], which lies before the total duration, and is
    rendered at progress [min(timeMs / totalDuration, 1)], which is
    [timeMs / totalDuration]: the cap at 1 is never needed.  The doubles of
    the engine round, and there both the count and the last sample can come
    out differently; see [Binary64Facts]. *)
Lemma exact_frame_samples (f T : Q) (now0 now1 : num) (s : state) :
  0 < f -> totalDuration s = Fin T -> hasPreviewCanvas s = true ->
  exists frames s',
    captureFramesAt (Fin f) None now0 now1 s = (Returned frames, s') /\
    List.length frames = Z.to_nat (Qceiling (f * T / 1000)) /\
    forall k, (k < List.length frames)%nat ->
      exists fr t p,
        nth_error frames k = Some fr /\
        frame_index fr = Z.of_nat k /\
        frame_timeMs fr = Fin t /\
        t == inject_Z (Z.of_nat k) * 1000 / f /\
        t < T /\
        frame_progress fr = Fin p /\
        p == t / T /\ p <= 1.
Proof.
  intros Hf HT Hcanvas. unfold captureFramesAt.
  rewrite Hcanvas. simpl negb. cbv iota.
  rewrite (iterations_totalFrames f T s HT).
  set (n := Z.to_nat (Qceiling (f * T / 1000))).
  set (s1 := pausePreview (set_exporting true s)).
  pose proof (captureLoop_frames (Fin f) (totalFrames (Fin f) s) n 0 [] s1)
    as Hloop.
  destruct (captureLoop (Fin f) (totalFrames (Fin f) s) None n 0 [] s1)
    as [[err frames] s2].
  simpl in Hloop. injection Hloop as -> ->.
  change (totalDuration s1) with (totalDuration s). rewrite HT.
  eexists. eexists. split; [reflexivity|].
  rewrite framesFrom_length. split; [reflexivity|].
  intros k Hk. rewrite (framesFrom_nth _ _ n k 0 Hk). rewrite Z.add_0_l.
  pose proof (sample_before_end f T k Hf Hk) as Hlt.
  assert (Hx : 0 <= inject_Z (Z.of_nat k)).
  { change 0 with (inject_Z 0). rewrite <- Zle_Qle. lia. }
  set (x := inject_Z (Z.of_nat k)) in *.
  assert (Ht0 : 0 <= x / f) by (apply Qle_shift_div_l; lra).
  assert (HTpos : 0 < T) by nra.
  assert (Hp1 : x / f * 1000 / T <= 1) by (apply Qle_shift_div_r; lra).
  exists (frameAt (Fin f) (Fin T) (Z.of_nat k)), (x / f * 1000).
  exists (x / f * 1000 / T).
  unfold frameAt, timeMs, of_Z. fold x. simpl.
  qcase (Qeq_bool f 0); [lra|]. simpl.
  qcase (Qeq_bool T 0); [lra|]. simpl.
  qcase (Qle_bool (x / f * 1000 / T) 1); [|lra].
  repeat split; try reflexivity; try assumption.
  field. lra.
Qed.

Lemma animate_exporting (startTime now : num) (s : state) :
  isExporting (animate startTime now s) = isExporting s.
Proof.
  unfold animate. destruct (isPlaying s); simpl; [|reflexivity].
  destruct (renderFrameThrows s); destruct (jge _ _); simpl;
    try reflexivity; destruct (isPlaying s); reflexivity.
Qed.

Lemma playPreview_exporting (now0 now1 : num) (s : state) :
  isExporting (playPreview now0 now1 s) = isExporting s.
Proof.
  unfold playPreview. destruct (isPlaying s); [reflexivity|].
  unfold startAnimation. now rewrite animate_exporting.
Qed.

(** The first run of [animate], the one [playPreview] makes: the position
    is the expression of the code, or the total duration once that is
    reached, and then playback has ended. *)
Lemma playPreview_first_step (now0 now1 : num) (s : state) :
  isPlaying s = false ->
  let position :=
    ((now1 - (now0 - currentTime s / playbackSpeed s)) * playbackSpeed s)%js in
  (jge position (totalDuration s) = false ->
     currentTime (playPreview now0 now1 s) = position /\
     isPlaying (playPreview now0 now1 s) = true) /\
  (jge position (totalDuration s) = true ->
     currentTime (playPreview now0 now1 s) = totalDuration s /\
     isPlaying (playPreview now0 now1 s) = false).
Proof.
  intros Hp position. unfold playPreview. rewrite Hp.
  unfold startAnimation, animate. simpl. fold position.
  destruct (jge position (totalDuration s)); simpl;
    (split; [intro H|intro H]); try discriminate;
    destruct (renderFrameThrows _); simpl; split; reflexivity.
Qed.




End CaptureFacts.

(** ** The frame producer and the playback clock in binary64 *)

Module Binary64Facts.

Import Floats Binary64.

Local Open Scope float_scope.

(** C6 at a total duration of 8300 ms, as a project file with
    [video.duration = 8300] sets it.  The number of frames the claim gives
    is [ceil(30 * 8300 / 1000) = 249].  The code computes
    [Math.ceil((8300 / 1000) * 30)]: the quotient is the double nearest to
    8.3, its product with 30 rounds to the double above 249, and the
    ceiling of that is 250.  So 250 frames are captured, one more than the
    claim says; the additional frame, of index 249, is sampled at
    [timeMs = 8300], the end of the timeline itself, at progress 1.  At
    16100 ms the code captures 484 frames where the claim gives 483, and
    frame 483 is sampled after the end of the timeline: the sampled time is
    not clamped, only the progress is, at 1. *)
Theorem frame_count_rounds_up :
  (Qceiling (30 * 8300 / 1000) = 249%Z /\
   (249 <? (8300 / 1000) * 30) = true /\
   totalFrames 30 8300 = 250 /\
   exists frames,
     captureAnimationFrames 8300 = Some frames /\
     List.length frames = 250%nat /\
     nth_error frames 249
     = Some {| frame_index := 249; frame_timeMs := 8300;
               frame_progress := 1 |}) /\
  (Qceiling (30 * 16100 / 1000) = 483%Z /\
   totalFrames 30 16100 = 484 /\
   exists frames last,
     captureAnimationFrames 16100 = Some frames /\
     List.length frames = 484%nat /\
     nth_error frames 483 = Some last /\
     frame_index last = 483 /\
     (16100 <? frame_timeMs last) = true /\
     frame_progress last = 1).
Proof.
  split.
  - split; [reflexivity|]. split; [reflexivity|]. split; [reflexivity|].
    eexists. split; [reflexivity|]. split; reflexivity.
  - split; [reflexivity|]. split; [reflexivity|].
    eexists. eexists. split; [reflexivity|]. split; [reflexivity|].
    split; [reflexivity|]. split; [reflexivity|]. split; reflexivity.
Qed.

(** Where exact arithmetic and the doubles agree: at the default duration
    of five seconds 150 frames are captured, the last one before the
    end. *)
Lemma frame_count_of_default_duration :
  totalFrames 30 5000 = 150 /\
  exists frames last,
    captureAnimationFrames 5000 = Some frames /\
    List.length frames = 150%nat /\
    nth_error frames 149 = Some last /\
    (frame_timeMs last <? 5000) = true /\
    (frame_progress last <? 1) = true.
Proof.
  split; [reflexivity|].
  eexists. eexists. split; [reflexivity|]. split; [reflexivity|].
  split; [reflexivity|]. split; reflexivity.
Qed.

(** The restart of a playback at position 2500 and speed 1.5, with the
    clock read twice in the same millisecond: the position the first
    animation step computes is not 2500 again, but lies above it, by the
    rounding of the start reference. *)
Lemma restart_position_is_rounded :
  let now := 1700000000000 in
  (2500 <? elapsed now (startTime now 2500 1.5) 1.5) = true /\
  elapsed now (startTime now 2500 1) 1 = 2500.
Proof. split; reflexivity. Qed.

End Binary64Facts.

(** ** Export: submission *)

Module SubmitFacts.

Import Server.

Lemma get_set (id : string) (j : job) (jobs : store) :
  get id (set id j jobs) = Some j.
Proof.
  induction jobs as [|[k j'] rest IH]; simpl.
  - now rewrite String.eqb_refl.
  - destruct (String.eqb id k) eqn:E; simpl; rewrite E; auto.
Qed.

(** C4, as stated, fails on the server: a request with an empty route array
    and a map image passes the checks of the handler, a job is created and
    its id is returned. *)
Lemma empty_route_list_creates_job :
  let req := {| req_routes := RoutesArray [];
                req_mapImage := Some "map.png";
                req_totalDuration := Some (Fin 10000);
                req_fps := None |} in
  fst (postVideo "job-1" req []) = Started "job-1" /\
  exists j, get "job-1" (snd (postVideo "job-1" req [])) = Some j /\
            job_id j = "job-1".
Proof.
  simpl. split; [reflexivity|]. eexists. split; reflexivity.
Qed.

Lemma client_rejects (a : ClientExport.app) (rec : ClientExport.recorder)
  (failing : option Z) (now0 now1 : num) (e : ClientExport.exporter) :
  (ClientExport.hasMap a = false \/
   filter ClientExport.exportable (ClientExport.currentRoutes a) = []) ->
  let '(res, e') := ClientExport.exportVideo a rec failing now0 now1 e in
  ClientExport.success res = false /\
  ClientExport.message res <> "" /\
  ClientExport.exportStatus e' = ClientExport.Error /\
  Timeline.rendered (ClientExport.timeline e') =
    Timeline.rendered (ClientExport.timeline e) /\
  ClientExport.downloaded e' = ClientExport.downloaded e.
Proof.
  intros H. unfold ClientExport.exportVideo.
  destruct (ClientExport.hasMap a); simpl.
  - destruct H as [H|H]; [discriminate|]. rewrite H. simpl.
    repeat split. discriminate.
  - repeat split. discriminate.
Qed.

(** C4, amended.  The server rejects a request synchronously, with status
    400 and a descriptive error and without creating a job, when its routes
    are missing or not an array, or when its map image is missing.  A
    request with an empty route array and a map image is accepted: a job is
    stored under the returned id, and its processing ends it in [error]
    with the message "No routes provided for video generation" and no
    output.  The client-side export rejects a missing map image and an
    empty set of visible routes before any frame is rendered. *)
Theorem submit_validation (jobId : string) (req : request) (jobs : store)
  (caps : capabilities) (env : environment) :
  (req_routes req = RoutesAbsent \/ req_routes req = RoutesNotArray ->
     postVideo jobId req jobs = (BadRequest "Invalid routes data", jobs)) /\
  (forall rs, req_routes req = RoutesArray rs -> req_mapImage req = None ->
     postVideo jobId req jobs = (BadRequest "Map image is required", jobs)) /\
  (forall img, req_routes req = RoutesArray [] ->
     req_mapImage req = Some img ->
     fst (postVideo jobId req jobs) = Started jobId /\
     exists j,
       get jobId (settle caps env jobId (snd (postVideo jobId req jobs)))
       = Some j /\
       status j = Errored /\
       job_error j = Some "No routes provided for video generation" /\
       outputFile j = None) /\
  (forall a rec failing now0 now1 e,
     ClientExport.hasMap a = false \/
     filter ClientExport.exportable (ClientExport.currentRoutes a) = [] ->
     ClientExport.success
       (fst (ClientExport.exportVideo a rec failing now0 now1 e)) = false /\
     Timeline.rendered
       (ClientExport.timeline
          (snd (ClientExport.exportVideo a rec failing now0 now1 e)))
     = Timeline.rendered (ClientExport.timeline e)).
Proof.
  repeat split.
  - intros [H|H]; unfold postVideo; now rewrite H.
  - intros rs Hr Hm. unfold postVideo. now rewrite Hr, Hm.
  - unfold postVideo. rewrite H, H0. reflexivity.
  - unfold postVideo. rewrite H, H0. simpl.
    unfold settle. rewrite get_set. rewrite get_set.
    eexists. split; [reflexivity|]. repeat split.
  - pose proof (client_rejects a rec failing now0 now1 e H) as Hc.
    destruct (ClientExport.exportVideo a rec failing now0 now1 e).
    apply Hc.
  - pose proof (client_rejects a rec failing now0 now1 e H) as Hc.
    destruct (ClientExport.exportVideo a rec failing now0 now1 e).
    apply Hc.
Qed.

(** The theorem at a request with an empty route array. *)
Lemma submit_validation_witness :
  let req := {| req_routes := RoutesArray [];
                req_mapImage := Some "map.png";
                req_totalDuration := None; req_fps := None |} in
  let caps := {| createCanvas := true; ffmpeg := true |} in
  let env := {| frameWriteError := None; encodeError := None;
                staticImageError := None; manifestWriteError := None |} in
  req_routes req = RoutesArray [] /\ req_mapImage req = Some "map.png" /\
  fst (postVideo "job-1" req []) = Started "job-1" /\
  exists j,
    get "job-1" (settle caps env "job-1" (snd (postVideo "job-1" req [])))
    = Some j /\
    status j = Errored /\
    job_error j = Some "No routes provided for video generation" /\
    outputFile j = None.
Proof.
  cbv zeta.
  split; [reflexivity|]. split; [reflexivity|].
  exact (proj1 (proj2 (proj2
    (submit_validation "job-1"
       {| req_routes := RoutesArray []; req_mapImage := Some "map.png";
          req_totalDuration := None; req_fps := None |} []
       {| createCanvas := true; ffmpeg := true |}
       {| frameWriteError := None; encodeError := None;
          staticImageError := None; manifestWriteError := None |})))
    "map.png" eq_refl eq_refl).
Defined.

End SubmitFacts.

(** ** Export: encoding tiers *)

Module TierFacts.

Import Server Samples.

(** C5, as stated, fails.  On the server, with a canvas and no encoder the
    static image is the selected tier; when rendering it fails, the same job
    writes the manifest and completes.  In the client, a failed WebM
    recording is followed by the alternative recording in the same export. *)
Lemma failed_tier_falls_back :
  let caps := {| createCanvas := true; ffmpeg := false |} in
  let env := {| frameWriteError := None; encodeError := None;
                staticImageError := Some "toBuffer failed";
                manifestWriteError := None |} in
  let j := processVideo caps env (newJob "job-1" sampleData) in
  let rec := {| ClientExport.webm := ClientExport.Rejects;
                ClientExport.alternative :=
                  ClientExport.Resolves
                    (ClientExport.VideoBlob "video/webm" 50000) |} in
  let frames := [Capture.frameAt (Fin 30) (Fin 5000) 0] in
  selectedTier caps = StaticImage /\
  status j = Completed /\ outputFile j = Some Manifest /\
  job_error j = None /\
  ClientExport.createVideoFromFrames rec Timeline.initial frames
  = ClientExport.Resolves (ClientExport.VideoBlob "video/webm" 50000).
Proof.
  repeat split.
Qed.

Lemma startProcessing_valid (id : string) (data : videoData) :
  valid data ->
  startProcessing (newJob id data) =
  {| job_id := id; status := Processing; progress := Fin 20;
     job_error := None; outputFile := None; job_data := data |}.
Proof.
  intros [Hr Hm]. unfold startProcessing, newJob. simpl.
  destruct (vd_routes data); [congruence|].
  destruct (vd_mapImage data); [reflexivity|congruence].
Qed.

(** The frame loop sets the progress of the job and nothing else. *)
Lemma writeFrames_keeps (totalFrames : num) (n : nat) :
  forall (frame : Z) (j : job),
    job_id (writeFrames totalFrames n frame j) = job_id j /\
    status (writeFrames totalFrames n frame j) = status j /\
    job_error (writeFrames totalFrames n frame j) = job_error j /\
    outputFile (writeFrames totalFrames n frame j) = outputFile j /\
    job_data (writeFrames totalFrames n frame j) = job_data j.
Proof.
  induction n as [|n IH]; intros frame j; simpl; [repeat split|].
  destruct (frame mod 10 =? 0)%Z.
  - destruct (IH (frame + 1)%Z
                (with_status (status j)
                   (Fin 50 + of_Z frame / totalFrames * Fin 30)%js j))
      as (H1 & H2 & H3 & H4 & H5).
    repeat split; assumption.
  - apply IH.
Qed.

(** What [generateRealVideo] leaves of a job that is being processed. *)
Lemma generateRealVideo_ends (env : environment) (j : job) :
  let N := serverTotalFrames (Some (vd_fps (job_data j)))
             (vd_totalDuration (job_data j)) in
  let j' := generateRealVideo env j in
  job_id j' = job_id j /\ job_data j' = job_data j /\
  (forall msg, frameWriteError env = Some msg ->
     status j' = Errored /\ job_error j' = Some msg /\
     outputFile j' = outputFile j) /\
  (frameWriteError env = None -> Capture.iterations N = None ->
     status j' = Processing /\ progress j' = Fin 50 /\
     job_error j' = job_error j /\ outputFile j' = outputFile j) /\
  (frameWriteError env = None -> Capture.iterations N <> None ->
     (forall msg, encodeError env = Some msg ->
        status j' = Errored /\ job_error j' = Some msg /\
        outputFile j' = outputFile j) /\
     (encodeError env = None ->
        status j' = Completed /\ progress j' = Fin 100 /\
        job_error j' = job_error j /\ outputFile j' = Some RealVideo)).
Proof.
  cbv zeta. unfold generateRealVideo.
  destruct (frameWriteError env) as [msg|].
  - simpl. split; [reflexivity|]. split; [reflexivity|].
    split; [intros m [= <-]; repeat split|].
    split; discriminate.
  - destruct (Capture.iterations _) as [n|].
    + match goal with
      | |- context [writeFrames ?t ?m ?f ?k] =>
          destruct (writeFrames_keeps t m f k) as (H1 & H2 & H3 & H4 & H5);
          set (j1 := writeFrames t m f k) in *
      end.
      simpl in H1, H2, H3, H4, H5.
      destruct (encodeError env) as [msg|]; simpl.
      * split; [exact H1|]. split; [exact H5|]. split; [discriminate|].
        split; [congruence|]. intros _ _.
        split; [|discriminate]. intros m [= <-]. repeat split. exact H4.
      * split; [exact H1|]. split; [exact H5|]. split; [discriminate|].
        split; [congruence|]. intros _ _.
        split; [discriminate|]. intros _. repeat split. exact H3.
    + simpl. split; [reflexivity|]. split; [reflexivity|].
      split; [discriminate|]. split; [repeat split|].
      intros _ H. congruence.
Qed.

(** C5, amended.  Which generator a job runs first is decided by the
    capabilities alone.  A job on the video tier (canvas and encoder
    present) whose frame directory cannot be made, or whose encoding fails
    after a frame loop that ends, ends in [error] without output and without
    trying another tier; with no such failure it completes with the video;
    with a frame count of [Infinity] its frame loop does not end and the job
    stays in [processing].  A job on the static-image tier whose rendering
    fails goes on, in the same job, to the manifest tier, and completes if
    the manifest can be written.  The client tries the WebM recording, then
    the alternative recording, then the frames file, in one export: a WebM
    recording of more than 1000 bytes is the artifact; when it is rejected
    or too small, the alternative recording is, if it resolves, and the
    frames file, if it is rejected.  The client never reports a failure of
    the encoding: it ends with an artifact when the recordings it waits for
    settle, and does not end when one of them stays pending, as the
    alternative recording does on an empty frame list. *)
Theorem tier_selection (caps : capabilities) (env : environment)
  (id : string) (data : videoData) :
  valid data ->
  let j := processVideo caps env (newJob id data) in
  let N := serverTotalFrames (Some (vd_fps data)) (vd_totalDuration data) in
  (selectedTier caps = RealVideo ->
     (frameWriteError env <> None ->
        status j = Errored /\ outputFile j = None /\ job_error j <> None) /\
     (Capture.iterations N <> None -> encodeError env <> None ->
        status j = Errored /\ outputFile j = None /\ job_error j <> None) /\
     (Capture.iterations N <> None ->
      frameWriteError env = None -> encodeError env = None ->
        status j = Completed /\ outputFile j = Some RealVideo) /\
     (Capture.iterations N = None -> frameWriteError env = None ->
        status j = Processing /\ outputFile j = None /\ job_error j = None)) /\
  (selectedTier caps = StaticImage ->
     (staticImageError env = None ->
        status j = Completed /\ outputFile j = Some StaticImage) /\
     (staticImageError env <> None -> manifestWriteError env = None ->
        status j = Completed /\ outputFile j = Some Manifest) /\
     (staticImageError env <> None -> manifestWriteError env <> None ->
        status j = Errored /\ outputFile j = None)) /\
  (selectedTier caps = Manifest ->
     (manifestWriteError env = None ->
        status j = Completed /\ outputFile j = Some Manifest) /\
     (manifestWriteError env <> None ->
        status j = Errored /\ outputFile j = None)) /\
  (forall rec s frames,
     let made := ClientExport.createVideoFromFrames rec s frames in
     (forall b, ClientExport.webm rec = ClientExport.Resolves b ->
        ClientExport.reasonable b = true -> made = ClientExport.Resolves b) /\
     (ClientExport.webm rec = ClientExport.Rejects \/
      (exists b, ClientExport.webm rec = ClientExport.Resolves b /\
                 ClientExport.reasonable b = false) ->
        (forall b', frames <> [] ->
           ClientExport.alternative rec = ClientExport.Resolves b' ->
           made = ClientExport.Resolves b') /\
        (frames <> [] ->
           ClientExport.alternative rec = ClientExport.Rejects ->
           made = ClientExport.Resolves (ClientExport.createFramesZip s frames)) /\
        (frames = [] \/ ClientExport.alternative rec = ClientExport.Pends ->
           made = ClientExport.Pends)) /\
     (ClientExport.webm rec = ClientExport.Pends ->
        made = ClientExport.Pends) /\
     made <> ClientExport.Rejects).
Proof.
  intros Hvalid j N. subst j N. unfold processVideo.
  rewrite (startProcessing_valid id data Hvalid).
  split; [|split; [|split]].
  - intro Ht. unfold finishProcessing. cbn [status].
    assert (Hc : createCanvas caps && ffmpeg caps = true).
    { unfold selectedTier in Ht.
      destruct (createCanvas caps), (ffmpeg caps); simpl in *;
        try reflexivity; discriminate. }
    rewrite Hc.
    match goal with
    | |- context [generateRealVideo env ?k] =>
        destruct (generateRealVideo_ends env k) as (_ & _ & Hw & Hinf & Hfin)
    end.
    cbn [job_data outputFile job_error] in Hw, Hinf, Hfin.
    split; [|split; [|split]].
    + intro Hf. destruct (frameWriteError env) as [msg|] eqn:E; [|congruence].
      destruct (Hw msg eq_refl) as (H1 & H2 & H3).
      split; [exact H1|]. split; [exact H3|]. rewrite H2. discriminate.
    + intros Hn He. destruct (frameWriteError env) as [msg|] eqn:E.
      * destruct (Hw msg eq_refl) as (H1 & H2 & H3).
        split; [exact H1|]. split; [exact H3|]. rewrite H2. discriminate.
      * destruct (encodeError env) as [msg|] eqn:E'; [|congruence].
        destruct (proj1 (Hfin eq_refl Hn) msg eq_refl) as (H1 & H2 & H3).
        split; [exact H1|]. split; [exact H3|]. rewrite H2. discriminate.
    + intros Hn Hf He.
      destruct (proj2 (Hfin Hf Hn) He) as (H1 & _ & _ & H4).
      split; assumption.
    + intros Hn Hf. destruct (Hinf Hf Hn) as (H1 & _ & H3 & H4).
      repeat split; assumption.
  - intro Ht. unfold finishProcessing, selectedTier in *. cbn [status].
    destruct caps as [[|] [|]]; simpl in Ht; try discriminate.
    unfold generateEnhancedFallback, generateStaticRouteImage,
      generateEnhancedManifest. simpl.
    split; [|split].
    + intros ->. split; reflexivity.
    + intros Hs ->. destruct (staticImageError env); [|congruence].
      split; reflexivity.
    + intros Hs Hm. destruct (staticImageError env); [|congruence].
      destruct (manifestWriteError env); [|congruence].
      split; reflexivity.
  - intro Ht. unfold finishProcessing, selectedTier in *. cbn [status].
    destruct caps as [[|] [|]]; simpl in Ht; try discriminate;
      unfold generateEnhancedFallback, generateEnhancedManifest; simpl;
      (split; [intros ->; split; reflexivity|]);
      intros Hm; (destruct (manifestWriteError env); [|congruence]);
      split; reflexivity.
  - intros rec s frames.
    unfold ClientExport.createVideoFromFrames,
      ClientExport.createVideoFromFramesAlternative.
    split; [|split; [|split]].
    + intros b -> ->. reflexivity.
    + intros Hfail.
      assert (Hm2 : forall m2 : ClientExport.promise ClientExport.artifact,
                match ClientExport.webm rec with
                | ClientExport.Resolves b =>
                    if ClientExport.reasonable b
                    then ClientExport.Resolves b else m2
                | ClientExport.Rejects => m2
                | ClientExport.Pends => ClientExport.Pends
                end = m2).
      { intro m2. destruct Hfail as [->|(b & -> & ->)]; reflexivity. }
      rewrite Hm2. split; [|split].
      * intros b' Hne ->. destruct frames; [congruence|reflexivity].
      * intros Hne ->. destruct frames; [congruence|reflexivity].
      * intros [->|Hp]; [reflexivity|].
        rewrite Hp. destruct frames; reflexivity.
    + intros ->. reflexivity.
    + destruct (ClientExport.webm rec) as [b| |];
        [destruct (ClientExport.reasonable b)| |];
        try discriminate;
        destruct frames; try discriminate;
        destruct (ClientExport.alternative rec); discriminate.
Qed.

(** The theorem at a job on the video tier whose encoder fails. *)
Lemma tier_selection_witness :
  let caps := {| createCanvas := true; ffmpeg := true |} in
  let env := {| frameWriteError := None;
                encodeError := Some "ffmpeg exited with code 1";
                staticImageError := None; manifestWriteError := None |} in
  let j := processVideo caps env (newJob "job-1" sampleData) in
  valid sampleData /\ selectedTier caps = RealVideo /\
  status j = Errored /\ outputFile j = None /\ job_error j <> None.
Proof.
  cbv zeta.
  assert (Hv : valid sampleData) by (split; discriminate).
  split; [exact Hv|]. split; [reflexivity|].
  refine (proj1 (proj2 (proj1
    (tier_selection {| createCanvas := true; ffmpeg := true |}
       {| frameWriteError := None;
          encodeError := Some "ffmpeg exited with code 1";
          staticImageError := None; manifestWriteError := None |}
       "job-1" sampleData Hv) eq_refl)) _ _).
  - vm_compute. discriminate.
  - discriminate.
Defined.

(** A job whose total duration is [Infinity] (the JSON number [1e999]) is
    accepted and, with canvas and encoder present, never ends. *)
Lemma infinite_job_stays_processing :
  let caps := {| createCanvas := true; ffmpeg := true |} in
  let env := {| frameWriteError := None; encodeError := None;
                staticImageError := None; manifestWriteError := None |} in
  let req := {| req_routes := RoutesArray [timedRoute "r" 0 3000];
                req_mapImage := Some "map.png";
                req_totalDuration := Some PInf; req_fps := None |} in
  let jobs := settle caps env "job-1" (snd (postVideo "job-1" req [])) in
  exists j, get "job-1" jobs = Some j /\
            status j = Processing /\ progress j = Fin 50.
Proof.
  cbv zeta. eexists. split; [reflexivity|]. split; reflexivity.
Qed.

End TierFacts.

(** ** Branch routes *)

Module BranchFacts.

Import MapCanvas Samples.

Lemma default_is_500 : (Fin 0 + Fin 500)%js =n= Fin 500.
Proof. reflexivity. Qed.

(** C9, as stated, fails at a branch of a branch.  The first branch of a
    parent without delay gets the delay 500; a branch made from that branch
    gets 500 again, and there the delay of the parent is neither zero nor
    unset. *)
Lemma branch_of_branch_has_delay_500 :
  let c0 := {| routes := [untimedRoute "main"]; currentRoute := None;
               branchMode := true; currentTool := "branch" |} in
  let c1 := createBranchFromWaypoint "b1" (Some (wp 0 0))
              (Some (untimedRoute "main")) c0 in
  exists first,
    currentRoute c1 = Some first /\
    animation_delay first = Some (Fin 0 + Fin 500)%js /\
    truthy (Fin 0 + Fin 500)%js = true /\
    ~ (0 + 500 == 0) /\
    branchDelay first =n= Fin 500.
Proof.
  cbv zeta. eexists. split; [reflexivity|]. split; [reflexivity|].
  split; [reflexivity|]. split; [discriminate|reflexivity].
Qed.

(** C9, amended.  The delay of a branch route is
    [parentDelay || (0 + 500)], addition binding tighter than [||]: it is
    the parent's delay whenever that is truthy, which for a number means
    neither zero nor [NaN], and 500 when the parent's delay is unset or
    falsy.  It is therefore 500 exactly when the parent's delay is unset,
    falsy, or 500 itself; for a nonzero parent delay it is that delay, where
    the other reading, [(parentDelay || 0) + 500], adds 500 to it.
    [createBranchFromWaypoint] stores exactly this delay in the new
    route. *)
Theorem branch_delay_precedence (parent : route) :
  (forall d, animation_delay parent = Some d -> truthy d = true ->
     branchDelay parent = d) /\
  (animation_delay parent = None -> branchDelay parent =n= Fin 500) /\
  (forall d, animation_delay parent = Some d -> truthy d = false ->
     branchDelay parent =n= Fin 500) /\
  (forall q, truthy (Fin q) = true <-> ~ q == 0) /\
  (forall d, animation_delay parent = Some d ->
     (branchDelay parent =n= Fin 500 <->
      truthy d = false \/ d =n= Fin 500)) /\
  (forall q, animation_delay parent = Some (Fin q) ->
     (branchDelay parent =n= Fin 500 <-> q == 0 \/ q == 500)) /\
  (forall q, animation_delay parent = Some (Fin q) -> ~ q == 0 ->
     branchDelay parent = Fin q /\
     delayAfterParent parent = (Fin q + Fin 500)%js) /\
  (forall newId wp c,
     exists branch,
       currentRoute (createBranchFromWaypoint newId (Some wp) (Some parent) c)
       = Some branch /\
       animation_delay branch = Some (branchDelay parent) /\
       parentRoute branch = Some (route_id parent)).
Proof.
  unfold branchDelay, delayAfterParent.
  split; [|split; [|split; [|split; [|split; [|split; [|split]]]]]].
  - intros d -> Ht. simpl. now rewrite Ht.
  - intros ->. reflexivity.
  - intros d -> Ht. simpl. rewrite Ht. reflexivity.
  - intro q. apply truthy_Fin.
  - intros d ->. simpl. destruct (truthy d) eqn:Ht.
    + split; [intro H; now right|]. intros [H|H]; [discriminate|exact H].
    + split; [intros _; now left|]. intros _. reflexivity.
  - intros q ->. simpl.
    qcase (Qeq_bool q 0); simpl.
    + split; [intros _; now left|]. intros _. reflexivity.
    + split; [intro H; now right|]. intros [H|H]; [contradiction|exact H].
  - intros q -> Hq. simpl.
    qcase (Qeq_bool q 0); [contradiction|]. simpl.
    split; reflexivity.
  - intros newId wp c. eexists. split; [reflexivity|]. split; reflexivity.
Qed.

(** A parent starting after one second: the branch starts with it, not half
    a second later. *)
Lemma branch_of_delayed_parent :
  branchDelay (timedRoute "parent" 1000 3000) = Fin 1000 /\
  delayAfterParent (timedRoute "parent" 1000 3000) =n= Fin 1500 /\
  branchDelay (timedRoute "parent" 0 3000) =n= Fin 500 /\
  branchDelay (untimedRoute "parent") =n= Fin 500.
Proof. repeat split. Qed.

End BranchFacts.

(** ** Path renderer *)

Module PathFacts.

Import PathRenderer.

Local Open Scope R_scope.

Lemma segmentLength_nonneg (p q : point) : 0 <= segmentLength p q.
Proof. apply sqrt_pos. Qed.

(** The point at fraction [f] of a segment is at [f] times its length. *)
Lemma segmentLength_partial (from to : point) (f : R) :
  0 <= f ->
  segmentLength from
    {| px := px from + (px to - px from) * f;
       py := py from + (py to - py from) * f |}
  = f * segmentLength from to.
Proof.
  intro Hf. unfold segmentLength. simpl px. simpl py.
  replace ((px from + (px to - px from) * f - px from) ^ 2 +
           (py from + (py to - py from) * f - py from) ^ 2)
    with ((f * f) * ((px to - px from) ^ 2 + (py to - py from) ^ 2))
    by ring.
  rewrite sqrt_mult_alt by nra.
  now rewrite sqrt_square.
Qed.

Lemma sumLengths_nonneg (cur : point) (segments : list segment) :
  chained cur segments -> 0 <= sumLengths segments.
Proof.
  revert cur. induction segments as [|seg rest IH]; intros cur Hch; simpl.
  - lra.
  - destruct Hch as (_ & Hlen & Hrest).
    pose proof (IH _ Hrest). rewrite Hlen.
    pose proof (segmentLength_nonneg (seg_from seg) (seg_to seg)). lra.
Qed.

Lemma buildSegments_spec (prev : point) (rest : list point) :
  forall acc,
    chained prev (fst (buildSegments prev rest acc)) /\
    sumLengths (fst (buildSegments prev rest acc)) = polylineLength prev rest /\
    snd (buildSegments prev rest acc) = acc + polylineLength prev rest /\
    map seg_to (fst (buildSegments prev rest acc)) = rest.
Proof.
  revert prev. induction rest as [|curr rest IH]; intros prev acc; simpl.
  - repeat split. lra.
  - specialize (IH curr (acc + segmentLength prev curr)).
    destruct (buildSegments curr rest (acc + segmentLength prev curr))
      as [segments total].
    simpl in *. destruct IH as (H1 & H2 & H3 & H4).
    repeat split; auto.
    + now rewrite H2.
    + rewrite H3. lra.
    + now rewrite H4.
Qed.

(** A path that begins with a move does not depend on where the pen was. *)
Lemma strokeLength_moved (p q : point) (segments : list segment)
  (target current : R) :
  strokeLength p (drawPathLoop segments target current false) =
  strokeLength q (drawPathLoop segments target current false).
Proof.
  destruct segments as [|seg rest]; simpl; [reflexivity|].
  destruct (Rle_dec (current + seg_length seg) target); reflexivity.
Qed.

(** The loop strokes exactly the length that is left to the target. *)
Lemma drawPathLoop_length (segments : list segment) (target : R) :
  forall (cur : point) (current : R) (started : bool),
    chained cur segments ->
    current <= target -> target <= current + sumLengths segments ->
    strokeLength cur (drawPathLoop segments target current started)
    = target - current.
Proof.
  induction segments as [|seg rest IH]; intros cur current started Hch Hlo Hhi;
    simpl in *.
  - lra.
  - destruct Hch as (Hfrom & Hlen & Hrest).
    assert (Hmove : forall path,
              strokeLength cur
                (moveIfNotStarted started (seg_from seg) ++ path)%list
              = strokeLength cur path).
    { intro path. destruct started; simpl; [reflexivity|]. now rewrite Hfrom. }
    destruct (Rle_dec (current + seg_length seg) target) as [Hfull|Hpart].
    + rewrite Hmove. simpl.
      rewrite (IH (seg_to seg) (current + seg_length seg) true Hrest Hfull)
        by lra.
      rewrite <- Hfrom, <- Hlen. lra.
    + rewrite Hmove. simpl.
      assert (Hpos : 0 < seg_length seg) by lra.
      rewrite <- Hfrom.
      rewrite segmentLength_partial.
      * rewrite <- Hlen. field. lra.
      * apply Rmult_le_pos; [lra|].
        apply Rlt_le. now apply Rinv_0_lt_compat.
Qed.

(** With the target at or beyond the end, every segment is drawn in full. *)
Lemma drawPathLoop_full (segments : list segment) (target : R) :
  forall (cur : point) (current : R) (started : bool),
    chained cur segments ->
    current + sumLengths segments <= target ->
    drawPathLoop segments target current started =
    match segments with
    | [] => []
    | _ :: _ =>
        (moveIfNotStarted started cur ++ map LineTo (map seg_to segments))%list
    end.
Proof.
  induction segments as [|seg rest IH]; intros cur current started Hch Hsum;
    simpl in *; [reflexivity|].
  destruct Hch as (Hfrom & Hlen & Hrest).
  pose proof (sumLengths_nonneg _ _ Hrest) as Hnn.
  destruct (Rle_dec (current + seg_length seg) target) as [Hfull|Hpart];
    [|lra].
  rewrite Hfrom. f_equal. f_equal.
  rewrite (IH (seg_to seg) (current + seg_length seg) true Hrest) by lra.
  destruct rest; reflexivity.
Qed.

(** The shape of the stroke: the segments that fit below the target length
    are drawn in full, and the first one that does not is drawn up to the
    interpolated point at the fraction of it that is left. *)
Lemma drawPathLoop_shape (segments : list segment) (target : R) :
  forall (cur : point) (current : R) (started : bool),
    chained cur segments -> current <= target -> segments <> [] ->
    exists full rest,
      segments = (full ++ rest)%list /\
      current + sumLengths full <= target /\
      match rest with
      | [] =>
          drawPathLoop segments target current started =
          (moveIfNotStarted started cur ++
           map LineTo (map seg_to full))%list
      | seg :: _ =>
          exists f,
            0 <= f < 1 /\
            f * seg_length seg = target - (current + sumLengths full) /\
            drawPathLoop segments target current started =
            (moveIfNotStarted started cur ++
             map LineTo (map seg_to full) ++ [LineTo (pointAt seg f)])%list
      end.
Proof.
  induction segments as [|seg rest0 IH]; intros cur current started Hch Hlo Hne;
    [congruence|].
  destruct Hch as (Hfrom & Hlen & Hrest). simpl drawPathLoop.
  destruct (Rle_dec (current + seg_length seg) target) as [Hfull|Hpart].
  - destruct rest0 as [|seg' rest1].
    + exists [seg], []. simpl. rewrite Hfrom.
      split; [reflexivity|]. split; [lra|reflexivity].
    + destruct (IH (seg_to seg) (current + seg_length seg) true Hrest Hfull)
        as (full & rest & Heq & Hsum & Hshape); [discriminate|].
      exists (seg :: full), rest. rewrite Heq. simpl sumLengths.
      split; [reflexivity|]. split; [lra|].
      rewrite <- Heq. destruct rest as [|seg'' rest'].
      * rewrite Hshape, Hfrom. reflexivity.
      * destruct Hshape as (f & Hf & Hfl & Hshape).
        exists f. split; [exact Hf|]. split; [lra|].
        rewrite Hshape, Hfrom. reflexivity.
  - exists [], (seg :: rest0). simpl sumLengths.
    split; [reflexivity|]. split; [lra|].
    assert (Hpos : 0 < seg_length seg) by lra.
    exists ((target - current) / seg_length seg).
    split; [|split].
    + split.
      * apply Rmult_le_pos; [lra|].
        apply Rlt_le. now apply Rinv_0_lt_compat.
      * apply (Rmult_lt_reg_r (seg_length seg)); [exact Hpos|].
        unfold Rdiv. rewrite Rmult_assoc, Rinv_l by lra. lra.
    + field. lra.
    + unfold pointAt. rewrite Hfrom. reflexivity.
Qed.

(** The shape of the stroke on the waypoints: the segments that lie before
    the target length are drawn in full, and the first one that does not is
    drawn up to the point interpolated at the fraction of it that is
    left. *)
Lemma drawPathLoop_points (rest : list point) (target : R) :
  forall (prev : point) (acc current : R) (started : bool),
    current <= target -> rest <> [] ->
    exists k,
      (k <= List.length rest)%nat /\
      current + polylineLength prev (firstn k rest) <= target /\
      ((k = List.length rest /\
        drawPathLoop (fst (buildSegments prev rest acc)) target current started
        = (moveIfNotStarted started prev ++ map LineTo rest)%list) \/
       (exists a b f,
          nth_error (prev :: rest) k = Some a /\
          nth_error rest k = Some b /\
          0 <= f < 1 /\
          f * segmentLength a b
          = target - (current + polylineLength prev (firstn k rest)) /\
          drawPathLoop (fst (buildSegments prev rest acc)) target current
            started
          = (moveIfNotStarted started prev ++
             map LineTo (firstn k rest) ++
             [LineTo (interpolate a b f)])%list)).
Proof.
  induction rest as [|p rest IH]; intros prev acc current started Hlo Hne;
    [congruence|].
  cbn [buildSegments].
  destruct (buildSegments p rest (acc + segmentLength prev p))
    as [segs total] eqn:Hb.
  cbn [fst drawPathLoop seg_length seg_from seg_to].
  destruct (Rle_dec (current + segmentLength prev p) target) as [Hfull|Hpart].
  - destruct rest as [|p' rest'].
    + simpl in Hb. injection Hb as <- <-. exists 1%nat. cbn.
      split; [lia|]. split; [lra|]. left. split; reflexivity.
    + destruct (IH p (acc + segmentLength prev p)
                  (current + segmentLength prev p) true Hfull
                  ltac:(discriminate)) as (k & Hk & Hsum & Hshape).
      rewrite Hb in Hshape. cbn [fst] in Hshape.
      exists (S k). cbn [firstn polylineLength].
      split; [simpl in *; lia|]. split; [lra|].
      destruct Hshape as [[-> Hpath]|(a & b & f & Ha & Hb' & Hf & Hfl & Hpath)].
      * left. split; [reflexivity|]. rewrite Hpath. reflexivity.
      * right. exists a, b, f. split; [exact Ha|]. split; [exact Hb'|].
        split; [exact Hf|]. split; [lra|]. rewrite Hpath. reflexivity.
  - exists 0%nat. cbn [firstn polylineLength map app nth_error].
    split; [simpl; lia|]. split; [lra|]. right.
    pose proof (segmentLength_nonneg prev p) as Hnn.
    assert (Hpos : 0 < segmentLength prev p) by lra.
    exists prev, p, ((target - current) / segmentLength prev p).
    split; [reflexivity|]. split; [reflexivity|]. split; [|split].
    + split.
      * apply Rmult_le_pos; [lra|].
        apply Rlt_le. now apply Rinv_0_lt_compat.
      * apply (Rmult_lt_reg_r (segmentLength prev p)); [exact Hpos|].
        unfold Rdiv. rewrite Rmult_assoc, Rinv_l by lra. lra.
    + field. lra.
    + reflexivity.
Qed.

(** At progress 0 the marker of the first waypoint is the only one. *)
Lemma markers_at_zero (first second : point) (rest : list point) :
  drawProgressiveWaypoints false (first :: second :: rest) 0 = [first].
Proof.
  unfold drawProgressiveWaypoints. rewrite Rmult_0_r.
  change 0 with (IZR 0). rewrite ZfloorZ.
  assert (Hn : (2 <= Z.of_nat (List.length (first :: second :: rest)))%Z)
    by (simpl List.length; lia).
  rewrite Z.min_r by lia. reflexivity.
Qed.

(** The scenario of the specification: at half progress the stroke is the
    first segment, ending at (10, 0). *)
Lemma scenario_half (exporting : bool) :
  exists path,
    progressStroke
      (drawRouteProgress exporting identityTransform scenario (1 / 2))
    = Some path /\
    endPoint path = Some {| px := 10; py := 0 |} /\
    pathLength path = 10 /\
    completionStroke
      (drawRouteProgress exporting identityTransform scenario (1 / 2))
    = None.
Proof.
  unfold drawRouteProgress, scenario. cbn [map].
  set (p0 := transformWaypoint identityTransform {| px := 0; py := 0 |}).
  set (p1 := transformWaypoint identityTransform {| px := 10; py := 0 |}).
  set (p2 := transformWaypoint identityTransform {| px := 10; py := 10 |}).
  assert (L1 : segmentLength p0 p1 = 10).
  { unfold segmentLength, p0, p1. cbn.
    match goal with |- sqrt ?e = _ => replace e with (10 * 10) by ring end.
    apply sqrt_square. lra. }
  assert (L2 : segmentLength p1 p2 = 10).
  { unfold segmentLength, p1, p2. cbn.
    match goal with |- sqrt ?e = _ => replace e with (10 * 10) by ring end.
    apply sqrt_square. lra. }
  cbn [buildSegments]. rewrite L1, L2.
  cbn [progressStroke completionStroke].
  destruct (Rlt_dec 0 (1 / 2)) as [_|H]; [|lra].
  destruct (Rle_dec 1 (1 / 2)) as [H|_]; [lra|].
  unfold drawPathToLength.
  cbn [drawPathLoop seg_length seg_from seg_to moveIfNotStarted app].
  destruct (Rle_dec (0 + 10) ((0 + 10 + 10) * (1 / 2))) as [_|H]; [|lra].
  cbn [moveIfNotStarted app].
  destruct (Rle_dec (0 + 10 + 10) ((0 + 10 + 10) * (1 / 2))) as [H|_]; [lra|].
  eexists. split; [reflexivity|]. split; [|split; [|reflexivity]].
  - unfold endPoint. cbn [rev app]. f_equal.
    unfold p1, p2. cbn. f_equal; lra.
  - unfold pathLength. cbn [strokeLength app].
    rewrite L1, segmentLength_partial by lra. rewrite L2. lra.
Qed.

(** C2, as stated, fails at [t = 0]: no stroke is drawn, but outside of an
    export [drawRouteProgress] still calls [drawProgressiveWaypoints], which
    paints [min(n, floor(n * 0) + 1) = 1] marker, the one of the first
    waypoint.  So something is drawn. *)
Lemma first_marker_painted_at_zero :
  let d := drawRouteProgress false identityTransform scenario 0 in
  progressStroke d = None /\ completionStroke d = None /\
  markers d = [transformWaypoint identityTransform {| px := 0; py := 0 |}] /\
  d <> nothing.
Proof.
  cbv zeta. unfold drawRouteProgress, scenario. cbn [map].
  destruct (buildSegments _ _ 0) as [segments total].
  cbn [progressStroke completionStroke markers].
  destruct (Rlt_dec 0 0) as [H|_]; [lra|].
  destruct (Rle_dec 1 0) as [H|_]; [lra|].
  rewrite markers_at_zero.
  split; [reflexivity|]. split; [reflexivity|]. split; [reflexivity|].
  unfold nothing. intro E. discriminate E.
Qed.

(** C2, amended.  For a route of at least two waypoints and a local
    progress [t] in [[0, 1]], the stroke [drawRouteProgress] paints has [t]
    times the length of the route (on the canvas, that is of the
    transformed waypoints), and it has the shape of the specification: the
    segments before the target length in full, and the one that contains it
    up to the point found by linear interpolation.  At [t = 0] no stroke is
    drawn; in an export nothing at all is painted then, and outside of an
    export the marker of the first waypoint, and only that.  At [t = 1] the
    stroke is the full polyline.  For the waypoints (0,0), (10,0), (10,10)
    at [t = 1/2] the stroke ends at (10, 0) and has the length 10 of the
    first segment. *)
Theorem stroke_length_is_progress :
  (forall (exporting : bool) (tr : mapTransform) (waypoints : list point)
          (t : R),
     (2 <= List.length waypoints)%nat -> 0 <= t <= 1 ->
     let d := drawRouteProgress exporting tr waypoints t in
     let points := map (transformWaypoint tr) waypoints in
     (t = 0 -> progressStroke d = None /\ completionStroke d = None /\
               markers d = if exporting then [] else firstn 1 points) /\
     (0 < t ->
        exists path k,
          progressStroke d = Some path /\
          pathLength path = t * routeLength points /\
          strokeShape points (t * routeLength points) k path) /\
     (t = 1 -> progressStroke d = Some (polyline points) /\
               completionStroke d = Some (polyline points))) /\
  (forall exporting : bool,
   exists path,
     progressStroke
       (drawRouteProgress exporting identityTransform scenario (1 / 2))
     = Some path /\
     endPoint path = Some {| px := 10; py := 0 |} /\
     pathLength path = 10).
Proof.
  split.
  - intros exporting tr waypoints t Hlen Ht d points. subst d points.
    destruct waypoints as [|w0 [|w1 ws]]; simpl in Hlen; try lia.
    unfold drawRouteProgress. cbn [map].
    set (first := transformWaypoint tr w0).
    set (second := transformWaypoint tr w1).
    set (more := map (transformWaypoint tr) ws).
    set (rest := second :: more).
    destruct (buildSegments_spec first rest 0) as (Hch & Hsum & Htot & Hto).
    pose proof (drawPathLoop_points rest) as Hshape.
    specialize (fun target => Hshape target first 0 0 false).
    destruct (buildSegments first rest 0) as [segments total].
    cbn [fst snd] in *.
    cbn [progressStroke completionStroke markers routeLength].
    assert (Htotal : total = polylineLength first rest) by lra.
    pose proof (sumLengths_nonneg _ _ Hch) as Hnn.
    assert (Hne : segments <> []).
    { intro E. rewrite E in Hto. discriminate. }
    split; [|split].
    + intros ->.
      destruct (Rlt_dec 0 0) as [H|_]; [lra|].
      destruct (Rle_dec 1 0) as [H|_]; [lra|].
      split; [reflexivity|]. split; [reflexivity|].
      destruct exporting; [reflexivity|].
      unfold rest. now rewrite markers_at_zero.
    + intro Hpos.
      destruct (Rlt_dec 0 t) as [_|H]; [|lra].
      destruct (Hshape (total * t)) as (k & Hk & Hsumk & Hpath);
        [nra|discriminate|].
      exists (drawPathToLength segments (total * t)), k.
      split; [reflexivity|]. split.
      * unfold pathLength, drawPathToLength.
        rewrite (strokeLength_moved origin first).
        rewrite drawPathLoop_length; auto; nra.
      * unfold strokeShape, drawPathToLength.
        replace (t * polylineLength first rest) with (total * t) by nra.
        split; [exact Hk|]. split; [lra|].
        destruct Hpath as [[Hkn Hpath]|(a & b & f & Ha & Hb & Hf & Hfl & Hpath)].
        -- left. split; [exact Hkn|]. rewrite Hpath. reflexivity.
        -- right. exists a, b, f. split; [exact Ha|]. split; [exact Hb|].
           split; [exact Hf|]. split; [lra|]. rewrite Hpath. reflexivity.
    + intros ->.
      destruct (Rlt_dec 0 1) as [_|H]; [|lra].
      destruct (Rle_dec 1 1) as [_|H]; [|lra].
      unfold drawPathToLength.
      rewrite !(drawPathLoop_full segments _ first 0 false Hch) by lra.
      destruct segments as [|seg segments']; [congruence|].
      rewrite Hto. split; reflexivity.
  - intro exporting.
    destruct (scenario_half exporting) as (path & H1 & H2 & H3 & _).
    exists path. auto.
Qed.

(** The theorem at the scenario of the specification. *)
Lemma stroke_length_is_progress_witness :
  (2 <= List.length scenario)%nat /\ 0 <= 1 / 2 <= 1 /\
  exists path k,
    progressStroke (drawRouteProgress false identityTransform scenario (1 / 2))
    = Some path /\
    pathLength path =
    1 / 2 * routeLength (map (transformWaypoint identityTransform) scenario) /\
    strokeShape (map (transformWaypoint identityTransform) scenario)
      (1 / 2 * routeLength (map (transformWaypoint identityTransform) scenario))
      k path.
Proof.
  assert (H1 : (2 <= List.length scenario)%nat) by (simpl; lia).
  assert (H2 : 0 <= 1 / 2 <= 1) by lra.
  split; [exact H1|]. split; [exact H2|].
  apply (proj1 stroke_length_is_progress false identityTransform scenario
           (1 / 2) H1 H2).
  lra.
Defined.

End PathFacts.

(** * Further properties of the code *)

(** Splits on every boolean test of the number model in the goal. *)
Ltac qcases :=
  repeat match goal with
  | |- context [Qeq_bool ?a ?b] => qcase (Qeq_bool a b); simpl
  | |- context [Qle_bool ?a ?b] => qcase (Qle_bool a b); simpl
  end.

(** ** The view of the editing canvas *)

Module ViewportFacts.

Import Viewport.


(** [Math.max(0.1, Math.min(5, k))] lies between 0.1 and 5. *)
Lemma zoom_clamp (k : Q) :
  exists c, jmax (Fin 0.1) (jmin (Fin 5) (Fin k)) = Fin c /\
            0.1 <= c <= 5.
Proof.
  simpl. qcase (Qle_bool 5 k); simpl.
  - exists 5. split; [reflexivity|lra].
  - qcase (Qle_bool 0.1 k); simpl.
    + exists k. split; [reflexivity|lra].
    + exists 0.1. split; [reflexivity|lra].
Qed.



End ViewportFacts.

(** ** Preview geometry and the server's renderer *)

Module GeometryFacts.

Import PathRenderer Geometry.

Local Open Scope R_scope.


Lemma Rmin_scale_bounds (cw ch mw mh : R) :
  0 < cw -> 0 < ch -> 0 < mw -> 0 < mh ->
  let k := Rmin (cw / mw) (ch / mh) in
  0 < k /\ mw * k <= cw /\ mh * k <= ch /\ (mw * k = cw \/ mh * k = ch).
Proof.
  intros Pcw Pch Pmw Pmh k. subst k.
  assert (Ha : mw * (cw / mw) = cw) by (field; lra).
  assert (Hb : mh * (ch / mh) = ch) by (field; lra).
  assert (Pa : 0 < cw / mw) by (apply Rdiv_lt_0_compat; lra).
  assert (Pb : 0 < ch / mh) by (apply Rdiv_lt_0_compat; lra).
  unfold Rmin. destruct (Rle_dec (cw / mw) (ch / mh)) as [Hle|Hgt].
  - split; [lra|]. split; [lra|]. split; [nra|]. now left.
  - split; [lra|]. split; [nra|]. split; [lra|]. now right.
Qed.

Lemma endPoint_cons (c : command) (path : list command) :
  path <> [] -> endPoint (c :: path) = endPoint path.
Proof.
  intro Hne. unfold endPoint. simpl.
  destruct (rev path) as [|c' l] eqn:E.
  - apply (f_equal (@rev command)) in E. rewrite rev_involutive in E.
    simpl in E. congruence.
  - reflexivity.
Qed.

Lemma endPoint_move (started : bool) (p : point) (path : list command) :
  path <> [] ->
  endPoint (moveIfNotStarted started p ++ path)%list = endPoint path.
Proof.
  intro Hne. destruct started; simpl; [reflexivity|].
  now apply endPoint_cons.
Qed.

Lemma endPoint_Some_nonempty (path : list command) (p : point) :
  endPoint path = Some p -> path <> [].
Proof. intros H ->. discriminate. Qed.

(** While the target lies before the end of the segments, the position
    [getPositionAtLength] finds is where the stroke ends. *)
Lemma positionLoop_is_stroke_end (segments : list segment) (target : R) :
  forall (cur : point) (current : R) (started : bool),
    chained cur segments ->
    current <= target -> target < current + sumLengths segments ->
    exists p,
      positionLoop segments target current = Some p /\
      endPoint (drawPathLoop segments target current started) = Some p.
Proof.
  induction segments as [|seg rest IH]; intros cur current started Hch Hlo Hhi;
    simpl in *.
  - lra.
  - destruct Hch as (Hfrom & Hlen & Hrest).
    destruct (Rgt_dec (current + seg_length seg) target) as [Hgt|Hngt];
      destruct (Rle_dec (current + seg_length seg) target) as [Hle|Hnle];
      try lra.
    + eexists. split; [reflexivity|].
      rewrite endPoint_move by discriminate. reflexivity.
    + destruct (IH (seg_to seg) (current + seg_length seg) true Hrest Hle)
        as (p & Hpos & Hend); [lra|].
      exists p. split; [exact Hpos|].
      rewrite endPoint_move by discriminate.
      rewrite endPoint_cons; [exact Hend|].
      exact (endPoint_Some_nonempty _ _ Hend).
Qed.

(** At or beyond the end of the segments there is no position. *)
Lemma positionLoop_at_end (segments : list segment) (target : R) :
  forall (cur : point) (current : R),
    chained cur segments -> current + sumLengths segments <= target ->
    positionLoop segments target current = None.
Proof.
  induction segments as [|seg rest IH]; intros cur current Hch Hsum;
    simpl in *; [reflexivity|].
  destruct Hch as (Hfrom & Hlen & Hrest).
  pose proof (PathFacts.sumLengths_nonneg _ _ Hrest) as Hnn.
  destruct (Rgt_dec (current + seg_length seg) target) as [Hgt|Hngt]; [lra|].
  apply (IH (seg_to seg)); [exact Hrest|lra].
Qed.

(** While a route of positive length is being drawn ([0 < t < 1]), the
    glowing tip sits exactly where the progress stroke ends; a route all of
    whose waypoints coincide has no tip. *)
Theorem tip_is_at_stroke_end (exporting : bool) (tr : mapTransform)
  (waypoints : list point) (t : R) :
  (2 <= List.length waypoints)%nat -> 0 < t < 1 ->
  let points := map (transformWaypoint tr) waypoints in
  (0 < routeLength points ->
     exists p path,
       tipPosition tr waypoints t = Some p /\
       progressStroke (drawRouteProgress exporting tr waypoints t) = Some path /\
       endPoint path = Some p) /\
  (routeLength points = 0 -> tipPosition tr waypoints t = None).
Proof.
  intros Hlen Ht points. subst points.
  destruct waypoints as [|w0 [|w1 ws]]; simpl in Hlen; try lia.
  unfold tipPosition, drawRouteProgress. cbn [map].
  set (first := transformWaypoint tr w0).
  set (rest := transformWaypoint tr w1 :: map (transformWaypoint tr) ws).
  destruct (PathFacts.buildSegments_spec first rest 0)
    as (Hch & Hsum & Htot & Hto).
  destruct (buildSegments first rest 0) as [segments total].
  cbn [fst snd] in *. cbn [progressStroke routeLength].
  assert (Htotal : total = polylineLength first rest) by lra.
  destruct (Rlt_dec 0 t) as [_|H]; [|lra].
  destruct (Rlt_dec t 1) as [_|H]; [|lra].
  unfold getPositionAtLength, drawPathToLength. split.
  - intro Hpos.
    destruct (positionLoop_is_stroke_end segments (total * t) first 0 false Hch)
      as (p & Hp & Hend); [nra|nra|].
    exists p. eexists. split; [exact Hp|]. split; [reflexivity|exact Hend].
  - intro Hzero.
    apply (positionLoop_at_end segments (total * t) first 0 Hch). nra.
Qed.

(** The theorem at the scenario route, a quarter drawn. *)
Lemma tip_is_at_stroke_end_witness :
  (2 <= List.length scenario)%nat /\ 0 < 1 / 4 < 1 /\
  (0 < routeLength (map (transformWaypoint identityTransform) scenario) ->
   exists p path,
     tipPosition identityTransform scenario (1 / 4) = Some p /\
     progressStroke (drawRouteProgress false identityTransform scenario (1 / 4))
     = Some path /\
     endPoint path = Some p).
Proof.
  assert (H1 : (2 <= List.length scenario)%nat) by (simpl; lia).
  assert (H2 : 0 < 1 / 4 < 1) by lra.
  split; [exact H1|]. split; [exact H2|].
  exact (proj1 (tip_is_at_stroke_end false identityTransform scenario (1 / 4)
                  H1 H2)).
Defined.

Lemma server_segment_length (prev curr : point) :
  sqrt ((px curr - px prev) * (px curr - px prev) +
        (py curr - py prev) * (py curr - py prev))
  = segmentLength prev curr.
Proof. unfold segmentLength. f_equal. ring. Qed.

Lemma pathLengthFrom_total (prev : point) (rest : list point) :
  forall acc, pathLengthFrom prev rest acc = snd (buildSegments prev rest acc).
Proof.
  revert prev. induction rest as [|curr rest IH]; intros prev acc; simpl.
  - reflexivity.
  - rewrite server_segment_length, IH.
    destruct (buildSegments curr rest (acc + segmentLength prev curr)).
    reflexivity.
Qed.

(** The loop of the server draws what the loop of the client draws. *)
Lemma animatedLoop_is_drawPathLoop (rest : list point) (target : R) :
  forall (prev : point) (current acc : R) (started : bool),
    (moveIfNotStarted started prev ++
     animatedLoop prev rest target current)%list =
    match rest with
    | [] => moveIfNotStarted started prev
    | _ :: _ =>
        drawPathLoop (fst (buildSegments prev rest acc)) target current started
    end.
Proof.
  induction rest as [|curr rest IH]; intros prev current acc started.
  - simpl. now rewrite app_nil_r.
  - cbn [animatedLoop buildSegments].
    rewrite server_segment_length.
    specialize (IH curr (current + segmentLength prev curr)
                  (acc + segmentLength prev curr) true).
    destruct (buildSegments curr rest (acc + segmentLength prev curr))
      as [segments total] eqn:Eb.
    cbn [fst drawPathLoop seg_length seg_from seg_to].
    destruct (Rle_dec (current + segmentLength prev curr) target).
    + f_equal. f_equal. simpl in IH. rewrite IH.
      destruct rest; [|reflexivity].
      simpl in Eb. injection Eb as <- _. reflexivity.
    + reflexivity.
Qed.

(** With a background image the server scales waypoints exactly as the
    preview does, and for the same progress [t > 0] it strokes exactly the
    path of the preview's progress stroke: what is exported is what was
    previewed. *)
Theorem server_path_is_preview_path (exporting : bool)
  (waypoints : list point) (cw ch : R) (img : background) (t : R) :
  (2 <= List.length waypoints)%nat -> 0 < t ->
  let tr := snd (drawMapBackground cw ch (bg_width img) (bg_height img)) in
  scaleWaypointsToCanvas waypoints cw ch (Some img)
  = map (transformWaypoint tr) waypoints /\
  drawAnimatedPath (scaleWaypointsToCanvas waypoints cw ch (Some img)) t
  = progressStroke (drawRouteProgress exporting tr waypoints t).
Proof.
  intros Hlen Ht tr.
  assert (Hscale : scaleWaypointsToCanvas waypoints cw ch (Some img)
                   = map (transformWaypoint tr) waypoints).
  { unfold scaleWaypointsToCanvas, tr, drawMapBackground. cbn.
    apply map_ext. intro wp. unfold transformWaypoint. cbn.
    f_equal; ring. }
  split; [exact Hscale|]. rewrite Hscale.
  destruct waypoints as [|w0 [|w1 ws]]; simpl in Hlen; try lia.
  unfold drawAnimatedPath, drawRouteProgress. cbn [map].
  set (first := transformWaypoint tr w0).
  set (rest := transformWaypoint tr w1 :: map (transformWaypoint tr) ws).
  destruct (Rle_dec t 0) as [H|_]; [lra|].
  rewrite (pathLengthFrom_total first rest 0).
  pose proof (animatedLoop_is_drawPathLoop rest
                (snd (buildSegments first rest 0) * t) first 0 0 false) as Hl.
  destruct (buildSegments first rest 0) as [segments total].
  cbn [fst snd progressStroke] in *.
  destruct (Rlt_dec 0 t) as [_|H]; [|lra].
  unfold drawPathToLength. f_equal. exact Hl.
Qed.

(** The theorem at the scenario route, half drawn on a full-HD canvas. *)
Lemma server_path_is_preview_path_witness :
  let img := {| bg_width := 1600; bg_height := 900 |} in
  let tr := snd (drawMapBackground 1920 1080 1600 900) in
  (2 <= List.length scenario)%nat /\ 0 < 1 / 2 /\
  drawAnimatedPath (scaleWaypointsToCanvas scenario 1920 1080 (Some img))
    (1 / 2)
  = progressStroke (drawRouteProgress true tr scenario (1 / 2)).
Proof.
  cbv zeta.
  assert (H1 : (2 <= List.length scenario)%nat) by (simpl; lia).
  assert (H2 : 0 < 1 / 2) by lra.
  split; [exact H1|]. split; [exact H2|].
  exact (proj2 (server_path_is_preview_path true scenario 1920 1080
                  {| bg_width := 1600; bg_height := 900 |} (1 / 2) H1 H2)).
Defined.

(** Without a background image, which is how the static image draws its
    routes, waypoints are scaled by [canvas / (800 x 600)].  That puts them
    where the fitted map has them, for every waypoint, only if the map is
    800 x 600 and the canvas has its proportions. *)
Theorem unfitted_scaling_matches_only_800_600 (cw ch mw mh : R) :
  0 < cw -> 0 < ch -> 0 < mw -> 0 < mh ->
  (forall waypoints,
     scaleWaypointsToCanvas waypoints cw ch None =
     scaleWaypointsToCanvas waypoints cw ch
       (Some {| bg_width := mw; bg_height := mh |}))
  <-> (mw = 800 /\ mh = 600 /\ cw * 600 = ch * 800).
Proof.
  intros Pcw Pch Pmw Pmh.
  destruct (Rmin_scale_bounds cw ch mw mh Pcw Pch Pmw Pmh)
    as (Pk & Hw & Hh & Hfill).
  unfold scaleWaypointsToCanvas. cbn [bg_width bg_height].
  set (k := Rmin (cw / mw) (ch / mh)) in *.
  assert (Ha : cw / 800 * 800 = cw) by (field; lra).
  assert (Hb : ch / 600 * 600 = ch) by (field; lra).
  set (a := cw / 800) in *. set (b := ch / 600) in *.
  split.
  - intro Hall.
    pose proof (Hall [ {| px := 0; py := 0 |}; {| px := 1; py := 1 |} ]) as H.
    cbn in H. injection H as H0x H0y H1x H1y.
    assert (Hka : k = a) by lra. assert (Hkb : k = b) by lra.
    assert (Hmw : mw * k = cw) by lra. assert (Hmh : mh * k = ch) by lra.
    assert (Pa : 0 < a) by lra.
    split; [|split]; nra.
  - intros (-> & -> & Hprop).
    assert (Hab : a = b) by lra.
    assert (Hk : k = a).
    { unfold k, Rmin. fold a b.
      destruct (Rle_dec a b); lra. }
    intro waypoints. apply map_ext. intro wp. rewrite Hk.
    f_equal; nra.
Qed.

(** The theorem on the default canvas of an export, 1920 x 1080: no map
    size makes the unfitted routes match the fitted map. *)
Lemma unfitted_scaling_matches_only_800_600_witness :
  0 < 1920 /\ 0 < 1080 /\ 0 < 800 /\ 0 < 600 /\
  ~ (forall waypoints,
       scaleWaypointsToCanvas waypoints 1920 1080 None =
       scaleWaypointsToCanvas waypoints 1920 1080
         (Some {| bg_width := 800; bg_height := 600 |})).
Proof.
  assert (H1 : 0 < 1920) by lra. assert (H2 : 0 < 1080) by lra.
  assert (H3 : 0 < 800) by lra. assert (H4 : 0 < 600) by lra.
  repeat (split; [assumption|]).
  intro Hall.
  apply (proj1 (unfitted_scaling_matches_only_800_600 1920 1080 800 600
                  H1 H2 H3 H4)) in Hall.
  lra.
Defined.

End GeometryFacts.

(** ** The server's animation *)

Module ServerRenderFacts.

Import ServerRender.

Lemma forEachIndexed_nth {A B : Type} (f : nat -> A -> B) (l : list A) :
  forall k i,
    nth_error (forEachIndexed f k l) i
    = option_map (f (k + i)%nat) (nth_error l i).
Proof.
  induction l as [|x rest IH]; intros k i; simpl.
  - destruct i; reflexivity.
  - destruct i as [|i]; simpl.
    + now rewrite Nat.add_0_r.
    + rewrite IH. now rewrite Nat.add_succ_r.
Qed.

Lemma forEachIndexed_length {A B : Type} (f : nat -> A -> B) (l : list A) :
  forall k, List.length (forEachIndexed f k l) = List.length l.
Proof.
  induction l as [|x rest IH]; intro k; simpl; [reflexivity|].
  now rewrite IH.
Qed.

Lemma countShown_nonneg (l : list route) : (0 <= countShown l)%Z.
Proof. unfold countShown. lia. Qed.

Lemma countShown_app (l1 l2 : list route) :
  countShown (l1 ++ l2) = (countShown l1 + countShown l2)%Z.
Proof.
  unfold countShown. rewrite filter_app, length_app. lia.
Qed.

Lemma firstn_snoc (l : list route) :
  forall i r, nth_error l i = Some r ->
              firstn (S i) l = (firstn i l ++ [r])%list.
Proof.
  induction l as [|x rest IH]; intros i r H.
  - destruct i; discriminate.
  - destruct i as [|i]; simpl in *.
    + now injection H as ->.
    + f_equal. now apply IH.
Qed.

Lemma countShown_firstn_le (l : list route) (i : nat) :
  (countShown (firstn i l) <= countShown l)%Z.
Proof.
  rewrite <- (firstn_skipn i l) at 2. rewrite countShown_app.
  pose proof (countShown_nonneg (skipn i l)). lia.
Qed.

Lemma countShown_firstn_mono (l : list route) (i j : nat) :
  (i <= j)%nat -> (countShown (firstn i l) <= countShown (firstn j l))%Z.
Proof.
  intro Hij.
  replace (firstn i l) with (firstn i (firstn j l)).
  - apply countShown_firstn_le.
  - rewrite firstn_firstn. f_equal. lia.
Qed.

(** A shown route at [index] has a turn of its own among the shown ones. *)
Lemma shown_has_turn (l : list route) (i : nat) (r : route) :
  nth_error l i = Some r -> shown r = true ->
  (countShown (firstn (S i) l) = countShown (firstn i l) + 1)%Z /\
  (countShown (firstn i l) + 1 <= countShown l)%Z.
Proof.
  intros Hn Hs.
  assert (H : (countShown (firstn (S i) l) = countShown (firstn i l) + 1)%Z).
  { rewrite (firstn_snoc l i r Hn), countShown_app.
    unfold countShown at 2. simpl. now rewrite Hs. }
  split; [exact H|]. rewrite <- H. apply countShown_firstn_le.
Qed.

(** The progress of a shown route, as a rational function of the global
    progress, its turn [V] and the number [N] of shown routes. *)
Lemma progressOfRoute_shown (routes : list route) (g : Q) (i : nat)
  (r : route) :
  nth_error routes i = Some r -> shown r = true ->
  let N := inject_Z (countShown routes) in
  let V := inject_Z (countShown (firstn i routes)) in
  0 <= V /\ V + 1 <= N /\
  progressOfRoute routes (Fin g) i r =
  if Qle_bool g (V / N) then Fin 0
  else if Qle_bool ((V + 1) / N) g then Fin 1
  else Fin ((g - V / N) / ((V + 1) / N - V / N)).
Proof.
  intros Hn Hs N V.
  destruct (shown_has_turn routes i r Hn Hs) as [_ Hle].
  pose proof (countShown_nonneg (firstn i routes)) as H0.
  assert (HV : 0 <= V).
  { unfold V. change 0 with (inject_Z 0). now rewrite <- Zle_Qle. }
  assert (HN : V + 1 <= N).
  { unfold V, N. change 1 with (inject_Z 1). rewrite <- inject_Z_plus.
    now rewrite <- Zle_Qle. }
  split; [exact HV|]. split; [exact HN|].
  unfold progressOfRoute. rewrite Hs. unfold of_Z. fold N V. simpl.
  qcase (Qeq_bool N 0); [lra|]. simpl. unfold jge. simpl.
  destruct (Qle_bool g (V / N)); [reflexivity|].
  destruct (Qle_bool ((V + 1) / N) g); [reflexivity|].
  assert (Hw : (V + 1) / N - V / N == 1 / N) by (field; lra).
  assert (Hp : 0 < 1 / N) by (apply RouteTimingFacts.Qdiv_pos; lra).
  qcase (Qeq_bool ((V + 1) / N - V / N) 0); [lra|]. reflexivity.
Qed.

(** The progress of a shown route when the global progress is no finite
    number. *)
Lemma progressOfRoute_shown_special (routes : list route) (i : nat)
  (r : route) :
  nth_error routes i = Some r -> shown r = true ->
  progressOfRoute routes PInf i r = Fin 1 /\
  progressOfRoute routes NInf i r = Fin 0 /\
  progressOfRoute routes NaN i r = NaN.
Proof.
  intros Hn Hs.
  destruct (shown_has_turn routes i r Hn Hs) as [_ Hle].
  pose proof (countShown_nonneg (firstn i routes)) as H0.
  set (N := inject_Z (countShown routes)).
  set (V := inject_Z (countShown (firstn i routes))).
  assert (HV : 0 <= V).
  { unfold V. change 0 with (inject_Z 0). now rewrite <- Zle_Qle. }
  assert (HN : V + 1 <= N).
  { unfold V, N. change 1 with (inject_Z 1). rewrite <- inject_Z_plus.
    now rewrite <- Zle_Qle. }
  unfold progressOfRoute. rewrite Hs. unfold of_Z. fold N V. simpl.
  qcase (Qeq_bool N 0); [lra|]. simpl.
  assert (Hw : (V + 1) / N - V / N == 1 / N) by (field; lra).
  assert (Hp : 0 < 1 / N) by (apply RouteTimingFacts.Qdiv_pos; lra).
  repeat split.
Qed.

(** The server gives every route a progress: 0 to a route that is not
    shown; for a global progress that is a number, a value between 0 and 1,
    which is 0 for all routes before the animation begins and 1 for all
    shown routes once it has ended; and [NaN] to every shown route when the
    global progress is [NaN], as it is for the only frame of a video of one
    frame. *)
Theorem calculateRouteProgress_range (routes : list route) (g : num) :
  List.length (calculateRouteProgress routes g) = List.length routes /\
  forall i r, nth_error routes i = Some r ->
    exists p,
      nth_error (calculateRouteProgress routes g) i = Some p /\
      (visible r = false -> p = Fin 0) /\
      (isNaN g = true -> visible r = true -> p = NaN) /\
      (isNaN g = false ->
         in_unit p /\
         (jle g (Fin 0) = true -> p =n= Fin 0) /\
         (jle (Fin 1) g = true -> visible r = true -> p =n= Fin 1)).
Proof.
  unfold calculateRouteProgress. split; [apply forEachIndexed_length|].
  intros i r Hn. rewrite forEachIndexed_nth, Hn. simpl.
  eexists. split; [reflexivity|].
  destruct (shown r) eqn:Hs.
  - pose proof Hs as Hv. unfold shown in Hv.
    split; [congruence|].
    destruct (progressOfRoute_shown_special routes i r Hn Hs)
      as (Hpinf & Hninf & Hnan).
    destruct g as [g| | |]; simpl isNaN.
    + split; [discriminate|]. intros _.
      destruct (progressOfRoute_shown routes g i r Hn Hs) as (HV & HN & ->).
      set (N := inject_Z (countShown routes)) in *.
      set (V := inject_Z (countShown (firstn i routes))) in *.
      assert (HNne : ~ N == 0) by lra.
      pose proof (RouteTimingFacts.Qdiv_cancel V N HNne) as Hs1.
      pose proof (RouteTimingFacts.Qdiv_cancel (V + 1) N HNne) as He1.
      set (s := V / N) in *. set (e := (V + 1) / N) in *.
      assert (Hs0 : 0 <= s) by nra. assert (Hse : s < e) by nra.
      assert (He : e <= 1) by nra.
      unfold in_unit. cbn [jle].
      qcase (Qle_bool g s).
      * repeat split; intros; qprop; simpl; try reflexivity; lra.
      * qcase (Qle_bool e g).
        -- repeat split; intros; qprop; simpl; try reflexivity; lra.
        -- assert (Hne : ~ e - s == 0) by lra.
           pose proof (RouteTimingFacts.Qdiv_cancel (g - s) (e - s) Hne) as Hx.
           set (x := (g - s) / (e - s)) in *.
           assert (Hx0 : 0 <= x) by nra.
           assert (Hx1 : x <= 1) by nra.
           split; [split; [|cbn [jle]]; qprop; lra|].
           split; intros; qprop; exfalso; lra.
    + rewrite Hpinf. split; [discriminate|]. intros _.
      repeat split; intros; try reflexivity; discriminate.
    + rewrite Hninf. split; [discriminate|]. intros _.
      repeat split; intros; try reflexivity; discriminate.
    + rewrite Hnan. split; [reflexivity|]. discriminate.
  - pose proof Hs as Hv. unfold shown in Hv.
    unfold progressOfRoute. rewrite Hs. simpl.
    split; [reflexivity|]. split; [congruence|]. intros _.
    repeat split; intros; try reflexivity; congruence.
Qed.

(** The theorem at the only frame of a one-frame video, whose progress is
    [0 / 0]. *)
Lemma calculateRouteProgress_range_witness :
  let r := Samples.timedRoute "a" 0 3000 in
  frameProgress (Fin 1) 0 = NaN /\
  nth_error (calculateRouteProgress [r] (frameProgress (Fin 1) 0)) 0
  = Some NaN.
Proof.
  cbv zeta. split; [reflexivity|].
  destruct (proj2 (calculateRouteProgress_range
                     [Samples.timedRoute "a" 0 3000]
                     (frameProgress (Fin 1) 0))
              0%nat (Samples.timedRoute "a" 0 3000) eq_refl)
    as (p & Hp & _ & Hnan & _).
  rewrite Hp. f_equal. apply Hnan; reflexivity.
Defined.

(** On the server the routes are animated in turn, in list order: while a
    shown route has begun, every shown route before it is complete. *)
Theorem routes_animate_in_turn (routes : list route) (g : Q) (i j : nat)
  (ri rj : route) (pi pj : num) :
  (i < j)%nat ->
  nth_error routes i = Some ri -> nth_error routes j = Some rj ->
  visible ri = true -> visible rj = true ->
  nth_error (calculateRouteProgress routes (Fin g)) i = Some pi ->
  nth_error (calculateRouteProgress routes (Fin g)) j = Some pj ->
  jlt (Fin 0) pj = true -> pi = Fin 1.
Proof.
  intros Hij Hi Hj Hvi Hvj Hpi Hpj Hbegun.
  unfold calculateRouteProgress in *.
  rewrite forEachIndexed_nth, Hi in Hpi.
  rewrite forEachIndexed_nth, Hj in Hpj.
  simpl in Hpi, Hpj. injection Hpi as <-. injection Hpj as <-.
  destruct (progressOfRoute_shown routes g i ri Hi Hvi) as (HVi & HNi & Ei).
  destruct (progressOfRoute_shown routes g j rj Hj Hvj) as (HVj & HNj & Ej).
  destruct (shown_has_turn routes i ri Hi Hvi) as [HSi _].
  pose proof (countShown_firstn_mono routes (S i) j Hij) as Hmono.
  rewrite HSi in Hmono.
  rewrite Ei. rewrite Ej in Hbegun. clear Ei Ej.
  set (N := inject_Z (countShown routes)) in *.
  set (Vi := inject_Z (countShown (firstn i routes))) in *.
  set (Vj := inject_Z (countShown (firstn j routes))) in *.
  assert (Hturn : Vi + 1 <= Vj).
  { unfold Vi, Vj. change 1 with (inject_Z 1). rewrite <- inject_Z_plus.
    now rewrite <- Zle_Qle. }
  assert (HNne : ~ N == 0) by lra.
  pose proof (RouteTimingFacts.Qdiv_cancel Vi N HNne) as Hsi.
  pose proof (RouteTimingFacts.Qdiv_cancel (Vi + 1) N HNne) as Hei.
  pose proof (RouteTimingFacts.Qdiv_cancel Vj N HNne) as Hsj.
  set (si := Vi / N) in *. set (ei := (Vi + 1) / N) in *.
  set (sj := Vj / N) in *.
  qcase (Qle_bool g sj); [discriminate|].
  qcase (Qle_bool g si); [exfalso; nra|].
  qcase (Qle_bool ei g); [reflexivity|exfalso; nra].
Qed.

(** The theorem at two shown routes, three quarters into the animation:
    the second has begun, so the first is complete. *)
Lemma routes_animate_in_turn_witness :
  let a := Samples.timedRoute "a" 0 3000 in
  let b := Samples.timedRoute "b" 0 3000 in
  (0 < 1)%nat /\
  jlt (Fin 0) (progressOfRoute [a; b] (Fin 0.75) 1 b) = true /\
  progressOfRoute [a; b] (Fin 0.75) 0 a = Fin 1.
Proof.
  cbv zeta. split; [lia|]. split; [reflexivity|].
  apply (routes_animate_in_turn
           [Samples.timedRoute "a" 0 3000; Samples.timedRoute "b" 0 3000]
           0.75 0 1
           (Samples.timedRoute "a" 0 3000) (Samples.timedRoute "b" 0 3000)
           _ (progressOfRoute
                [Samples.timedRoute "a" 0 3000; Samples.timedRoute "b" 0 3000]
                (Fin 0.75) 1 (Samples.timedRoute "b" 0 3000)));
    try reflexivity.
  lia.
Defined.

(** What can be drawn of a route list: shown routes of two waypoints or
    more. *)
Lemma drawRoutes_complete_from (all : list route) (rest : list route) :
  forall pre, all = (pre ++ rest)%list ->
    let calls :=
      flat_map (fun rp => drawRouteOnCanvas (fst rp) (snd rp))
        (combine rest
           (forEachIndexed (progressOfRoute all (Fin 1))
              (List.length pre) rest)) in
    map RouteTiming.drawn_route calls =
    filter (fun r => visible r && (2 <=? List.length (waypoints r))%nat) rest /\
    Forall (fun c => RouteTiming.drawn_progress c = Fin 1) calls.
Proof.
  induction rest as [|r rest IH]; intros pre Hall; cbn zeta.
  - split; [reflexivity|constructor].
  - assert (Hn : nth_error all (List.length pre) = Some r).
    { rewrite Hall, nth_error_app2 by lia. now rewrite Nat.sub_diag. }
    specialize (IH (pre ++ [r])%list).
    rewrite length_app, Nat.add_1_r in IH. cbn zeta in IH.
    destruct IH as [IH1 IH2]; [now rewrite <- app_assoc|].
    cbn [forEachIndexed combine flat_map fst snd]. rewrite map_app.
    unfold drawRouteOnCanvas at 1 3.
    cbn [filter].
    destruct (shown r) eqn:Hs; pose proof Hs as Hv; unfold shown in Hv;
      rewrite Hv; cbn [negb andb].
    + destruct (progressOfRoute_shown all 1 (List.length pre) r Hn Hs)
        as (HV & HN & ->).
      set (N := inject_Z (countShown all)) in *.
      set (V := inject_Z (countShown (firstn (List.length pre) all))) in *.
      assert (HNne : ~ N == 0) by lra.
      pose proof (RouteTimingFacts.Qdiv_cancel V N HNne) as Hs1.
      pose proof (RouteTimingFacts.Qdiv_cancel (V + 1) N HNne) as He1.
      set (s := V / N) in *. set (e := (V + 1) / N) in *.
      qcase (Qle_bool 1 s); [exfalso; nra|].
      qcase (Qle_bool e 1); [|exfalso; nra].
      cbn [jle]. change (Qle_bool 1 0) with false. cbv iota.
      rewrite Nat.leb_antisym.
      destruct (List.length (waypoints r) <? 2)%nat; cbn.
      * split; [exact IH1|exact IH2].
      * split; [now rewrite IH1|]. constructor; [reflexivity|exact IH2].
    + cbn. split; [exact IH1|exact IH2].
Qed.

(** At progress 1, which is how the static image is drawn, the server draws
    every shown route of two waypoints or more, in list order and in full,
    and nothing else. *)
Theorem complete_image_draws_every_route (routes : list route) :
  map RouteTiming.drawn_route (drawRoutesOnCanvas routes (Fin 1)) =
  filter (fun r => visible r && (2 <=? List.length (waypoints r))%nat) routes /\
  Forall (fun c => RouteTiming.drawn_progress c = Fin 1)
    (drawRoutesOnCanvas routes (Fin 1)).
Proof.
  exact (drawRoutes_complete_from routes routes [] eq_refl).
Qed.

Lemma frameLoop_nth (totalFrames : num) (n k : nat) (i : Z) :
  (k < n)%nat ->
  nth_error (frameLoop totalFrames n i) k
  = Some (frameProgress totalFrames (i + Z.of_nat k)).
Proof.
  revert i k. induction n as [|n IH]; intros i k Hk; [lia|].
  destruct k as [|k]; simpl.
  - now rewrite Z.add_0_r.
  - rewrite IH by lia. do 2 f_equal. lia.
Qed.

Lemma frameLoop_length (totalFrames : num) (n : nat) (i : Z) :
  List.length (frameLoop totalFrames n i) = n.
Proof.
  revert i. induction n as [|n IH]; intro i; simpl; [reflexivity|].
  now rewrite IH.
Qed.

(** The frames of the server's video span the whole animation: in a video
    of [N >= 2] frames, frame [k] is drawn at progress [k / (N - 1)], a
    value between 0 and 1, so the first frame is at 0 and the last at
    exactly 1.  A video of a single frame divides 0 by 0: its frame is
    drawn at progress [NaN]. *)
Theorem server_frames_span_animation (N : Z) :
  let frames := frameLoop (of_Z N) (Z.to_nat N) 0 in
  List.length frames = Z.to_nat N /\
  ((2 <= N)%Z ->
     forall k, (k < Z.to_nat N)%nat ->
       exists p,
         nth_error frames k = Some (Fin p) /\
         p == inject_Z (Z.of_nat k) / inject_Z (N - 1) /\
         0 <= p <= 1 /\
         (k = 0%nat -> p == 0) /\
         (Z.of_nat k = (N - 1)%Z -> p == 1)) /\
  (N = 1%Z -> frames = [NaN]).
Proof.
  cbv zeta. split; [apply frameLoop_length|]. split.
  - intros H2 k Hk. rewrite frameLoop_nth by exact Hk. rewrite Z.add_0_l.
    unfold frameProgress, of_Z. simpl.
    assert (HM : inject_Z N - 1 == inject_Z (N - 1)).
    { unfold Z.sub. rewrite inject_Z_plus. reflexivity. }
    assert (HMpos : 0 < inject_Z (N - 1)).
    { change 0 with (inject_Z 0). rewrite <- Zlt_Qlt. lia. }
    assert (Hk0 : 0 <= inject_Z (Z.of_nat k)).
    { change 0 with (inject_Z 0). rewrite <- Zle_Qle. lia. }
    assert (Hk1 : inject_Z (Z.of_nat k) <= inject_Z (N - 1)).
    { rewrite <- Zle_Qle. lia. }
    qcase (Qeq_bool (inject_Z N - 1) 0); [lra|].
    eexists. split; [reflexivity|].
    assert (Hne : ~ inject_Z (N - 1) == 0) by lra.
    pose proof (RouteTimingFacts.Qdiv_cancel (inject_Z (Z.of_nat k))
                  (inject_Z (N - 1)) Hne) as Hp.
    assert (Heq : inject_Z (Z.of_nat k) / (inject_Z N - 1)
                  == inject_Z (Z.of_nat k) / inject_Z (N - 1))
      by now rewrite HM.
    rewrite Heq.
    set (p := inject_Z (Z.of_nat k) / inject_Z (N - 1)) in *.
    split; [reflexivity|]. split; [nra|]. split.
    + intro Hfirst. rewrite Hfirst in Hp.
      change (inject_Z (Z.of_nat 0)) with 0 in Hp. nra.
    + intro Hlast. rewrite Hlast in Hp. nra.
  - intros ->. reflexivity.
Qed.

(** The theorem at a video of 300 frames: the last one is drawn at
    progress 1. *)
Lemma server_frames_span_animation_witness :
  exists p,
    nth_error (frameLoop (of_Z 300) 300 0) 299 = Some (Fin p) /\ p == 1.
Proof.
  destruct (proj1 (proj2 (server_frames_span_animation 300))
              ltac:(lia) 299%nat ltac:(simpl; lia))
    as (p & Hp & _ & _ & _ & Hlast).
  exists p. split; [exact Hp|]. apply Hlast. reflexivity.
Defined.

(** The estimated processing time lies between 2 and 30 seconds whatever
    the data, and below the cap it is 2 s plus half a second per route and a
    tenth of the animation's duration. *)
Theorem estimate_is_bounded (data : Server.videoData) :
  isNaN (Server.vd_totalDuration data) = false ->
  exists e,
    estimateProcessingTime data = Fin e /\ 2000 <= e <= 30000 /\
    forall T,
      Server.vd_totalDuration data = Fin T -> 0 <= T ->
      let base := 2000
                  + inject_Z (Z.of_nat (List.length (Server.vd_routes data)))
                    * 500
                  + T / 10 in
      base <= 30000 -> e == base.
Proof.
  intro Hnan. unfold estimateProcessingTime, of_Z.
  set (n := inject_Z (Z.of_nat (List.length (Server.vd_routes data)))).
  assert (Hn : 0 <= n).
  { unfold n. change 0 with (inject_Z 0). rewrite <- Zle_Qle. lia. }
  destruct (Server.vd_totalDuration data) as [T| | |]; try discriminate;
    simpl.
  - qcase (Qle_bool (2000 + n * 500 + T / 10) 2000); simpl.
    + exists 2000. split; [reflexivity|]. split; [lra|].
      intros T' [= <-] HT Hb.
      assert (0 <= T / 10) by (apply Qle_shift_div_l; lra). nra.
    + qcase (Qle_bool (2000 + n * 500 + T / 10) 30000); simpl.
      * eexists. split; [reflexivity|]. split; [lra|].
        intros T' [= <-] HT Hb. reflexivity.
      * exists 30000. split; [reflexivity|]. split; [lra|].
        intros T' [= <-] HT Hb. lra.
  - exists 30000. split; [reflexivity|]. split; [lra|]. discriminate.
  - exists 2000. split; [reflexivity|]. split; [lra|]. discriminate.
Qed.

(** The theorem at one route and ten seconds: three and a half seconds. *)
Lemma estimate_is_bounded_witness :
  isNaN (Server.vd_totalDuration Samples.sampleData) = false /\
  exists e,
    estimateProcessingTime Samples.sampleData = Fin e /\ e == 3500.
Proof.
  assert (H : isNaN (Server.vd_totalDuration Samples.sampleData) = false)
    by reflexivity.
  split; [exact H|].
  destruct (estimate_is_bounded Samples.sampleData H) as (e & He & _ & Hv).
  exists e. split; [exact He|].
  rewrite (Hv 10000 eq_refl); [reflexivity|discriminate|discriminate].
Defined.

End ServerRenderFacts.

(** ** Job summaries and their readers *)

Module JobsFacts.

Import Jobs.

(** The download handler never sends a file.  It reads the job through
    [getJobStatus], whose summary has no property [outputFile]: a job that
    is not completed is answered with 'Video not found or not ready', and a
    completed one, whose summary advertises the address of this very
    handler, with 'Video file not available'. *)
Theorem download_video_never_streams (jobId : string) (jobs : registry) :
  downloadVideo jobId jobs =
    match get jobId jobs with
    | Some t =>
        match Server.status (tracked_job t) with
        | Server.Completed => NotFound "Video file not available" Undefined
        | st => NotFound "Video not found or not ready" (Str (statusName st))
        end
    | None => NotFound "Video not found or not ready" (Str "not_found")
    end /\
  (forall t kind,
     get jobId jobs = Some t ->
     Server.outputFile (tracked_job t) = Some kind ->
     property "downloadUrl" (getJobStatus jobId jobs)
     = Str ("/api/export/download/video/" ++ Server.job_id (tracked_job t)) /\
     property "filename" (getJobStatus jobId jobs)
     = Str (outputFilename kind (timestamp t))).
Proof.
  split.
  - unfold downloadVideo, getJobStatus.
    destruct (get jobId jobs) as [t|]; [|reflexivity].
    destruct (Server.status (tracked_job t)); reflexivity.
  - intros t kind Hget Hout. unfold getJobStatus, downloadUrl.
    rewrite Hget. cbn zeta. rewrite Hout. split; reflexivity.
Qed.

(** The poll of the user interface ends only when the job is completed.
    The server calls a job that failed 'error' and the poll looks for
    'failed', so such a job, like one that is unknown to the server, is
    asked for again every two seconds, whatever the response says. *)
Theorem ui_poll_ends_only_on_completion (jobId : string) (jobs : registry) :
  pollProgress (toJSON (videoStatus jobId jobs)) =
    match get jobId jobs with
    | Some t =>
        match Server.status (tracked_job t) with
        | Server.Completed => Ready
        | _ => PollAgain
        end
    | None => PollAgain
    end.
Proof.
  unfold videoStatus, getJobStatus, downloadUrl.
  destruct (get jobId jobs) as [t|]; [|reflexivity].
  destruct (Server.status (tracked_job t));
    destruct (Server.progress (tracked_job t));
    destruct (Server.job_error (tracked_job t));
    destruct (Server.outputFile (tracked_job t)); reflexivity.
Qed.

(** The poll of the generator reads [progress] and [status] from the body
    of the response, where the handler puts them one level down, under
    [data].  Whatever the job, it therefore sets the progress to 0 and the
    status to [undefined], shows no download link and does not poll
    again.  Given the summary itself it would show the link of a completed
    job and poll again for one that is processing. *)
Theorem generator_poll_stops_at_once (jobId : string) (jobs : registry) :
  pollExportProgress (toJSON (videoStatus jobId jobs)) =
    {| view_progress := Number (Fin 0); view_status := Undefined;
       view_link := None; view_polling := false |} /\
  (forall t kind,
     get jobId jobs = Some t ->
     Server.status (tracked_job t) = Server.Completed ->
     Server.outputFile (tracked_job t) = Some kind ->
     pollExportProgress (toJSON (Obj (getJobStatus jobId jobs))) =
       {| view_progress := Number (Fin 100); view_status := Str "completed";
          view_link :=
            Some (Str ("/api/export/download/video/"
                       ++ Server.job_id (tracked_job t)),
                  Str (outputFilename kind (timestamp t)));
          view_polling := false |}) /\
  (forall t,
     get jobId jobs = Some t ->
     Server.status (tracked_job t) = Server.Processing ->
     view_polling (pollExportProgress (toJSON (Obj (getJobStatus jobId jobs))))
     = true).
Proof.
  split; [reflexivity|]. split.
  - intros t kind Hget Hst Hout. unfold getJobStatus, downloadUrl.
    rewrite Hget. cbn zeta. rewrite Hst, Hout.
    destruct (Server.progress (tracked_job t));
      destruct (Server.job_error (tracked_job t)); reflexivity.
  - intros t Hget Hst. unfold getJobStatus, downloadUrl.
    rewrite Hget. cbn zeta. rewrite Hst.
    destruct (Server.progress (tracked_job t));
      destruct (Server.job_error (tracked_job t));
      destruct (Server.outputFile (tracked_job t)); reflexivity.
Qed.

Lemma get_absent (id : string) (jobs : registry) :
  ~ In id (map fst jobs) -> get id jobs = None.
Proof.
  induction jobs as [|[k t] rest IH]; simpl; [reflexivity|].
  intro Hn. destruct (String.eqb_spec id k) as [->|Hne].
  - exfalso. apply Hn. now left.
  - apply IH. intro Hin. apply Hn. now right.
Qed.

Lemma delete_visited (id : string) (t : tracked) (done rest : registry) :
  ~ In id (map fst done) ->
  delete id (done ++ (id, t) :: rest)%list = (done ++ rest)%list.
Proof.
  induction done as [|[k u] done IH]; simpl; intro Hn.
  - now rewrite String.eqb_refl.
  - destruct (String.eqb_spec id k) as [->|Hne].
    + exfalso. apply Hn. now left.
    + rewrite IH; [reflexivity|]. intro Hin. apply Hn. now right.
Qed.

Lemma cleanupLoop_spec (now maxAge : num) (entries : registry) :
  forall done unlinked,
    NoDup (map fst (done ++ entries)%list) ->
    cleanupLoop now maxAge entries (done ++ entries)%list unlinked =
    ((done ++ filter (fun e => negb (stale now maxAge (snd e))) entries)%list,
     (unlinked ++ flat_map (removedFile now maxAge) entries)%list).
Proof.
  induction entries as [|[id t] rest IH]; intros done unlinked Hnd.
  - simpl. now rewrite !app_nil_r.
  - rewrite map_app in Hnd. simpl in Hnd.
    pose proof (NoDup_remove_1 _ _ _ Hnd) as Hrest.
    pose proof (NoDup_remove_2 _ _ _ Hnd) as Hfresh.
    cbn [cleanupLoop filter flat_map snd]. unfold removedFile at 1.
    cbn [snd]. destruct (stale now maxAge t) eqn:Hs; cbn [negb].
    + rewrite delete_visited
        by (intro Hin; apply Hfresh, in_or_app; now left).
      rewrite IH by now rewrite map_app.
      f_equal.
      destruct (Server.outputFile (tracked_job t));
        now rewrite <- ?app_assoc, ?app_nil_r.
    + specialize (IH (done ++ [(id, t)])%list unlinked).
      rewrite <- !app_assoc in IH. simpl in IH.
      rewrite IH; [reflexivity|].
      rewrite map_app. exact Hnd.
Qed.

Lemma get_filter (keep : tracked -> bool) (id : string) (jobs : registry) :
  NoDup (map fst jobs) ->
  get id (filter (fun e => keep (snd e)) jobs) =
    match get id jobs with
    | Some t => if keep t then Some t else None
    | None => None
    end.
Proof.
  induction jobs as [|[k t] rest IH]; simpl; [reflexivity|].
  intro Hnd. inversion Hnd as [|? ? Hk Hrest]; subst.
  specialize (IH Hrest).
  destruct (String.eqb_spec id k) as [->|Hne].
  - destruct (keep t); simpl.
    + now rewrite String.eqb_refl.
    + rewrite IH, (get_absent k rest Hk). reflexivity.
  - destruct (keep t); simpl; [|exact IH].
    destruct (String.eqb_spec id k); [contradiction|exact IH].
Qed.

(** The clean-up removes exactly the jobs that are older than [maxAge] and
    keeps the others as they are and in their order, although it deletes
    from the map it is iterating over; a job that is exactly [maxAge] old
    stays.  The files it removes are the outputs of the jobs it removes. *)
Theorem cleanup_removes_exactly_stale_jobs (now maxAge : num)
  (jobs : registry) :
  NoDup (map fst jobs) ->
  fst (cleanupOldJobs now maxAge jobs)
  = filter (fun e => negb (stale now maxAge (snd e))) jobs /\
  snd (cleanupOldJobs now maxAge jobs)
  = flat_map (removedFile now maxAge) jobs /\
  (forall id,
     get id (fst (cleanupOldJobs now maxAge jobs)) =
       match get id jobs with
       | Some t => if stale now maxAge t then None else Some t
       | None => None
       end) /\
  (forall t age,
     (now - created t)%js = Fin age -> maxAge = Fin age ->
     stale now maxAge t = false).
Proof.
  intro Hnd. unfold cleanupOldJobs.
  pose proof (cleanupLoop_spec now maxAge jobs [] [] Hnd) as Hloop.
  simpl in Hloop. rewrite Hloop. simpl.
  split; [reflexivity|]. split; [reflexivity|]. split.
  - intro id.
    rewrite (get_filter (fun t => negb (stale now maxAge t)) id jobs Hnd).
    destruct (get id jobs) as [t|]; [|reflexivity].
    now destruct (stale now maxAge t).
  - intros t age Hage ->. unfold stale. rewrite Hage. simpl.
    unfold Qlt_bool. rewrite negb_false_iff. apply Qle_bool_iff. lra.
Qed.

(** The theorem at the two sample jobs, the first of which is more than a
    day old: it is removed with its video, the second stays. *)
Lemma cleanup_removes_exactly_stale_jobs_witness :
  NoDup (map fst sampleJobs) /\
  map fst (fst (cleanupOldJobs (Fin 100000000) defaultMaxAge sampleJobs))
  = ["job-2"] /\
  snd (cleanupOldJobs (Fin 100000000) defaultMaxAge sampleJobs)
  = ["route_video_1700000000000.mp4"].
Proof.
  assert (Hnd : NoDup (map fst sampleJobs)).
  { simpl. constructor; [|constructor; [|constructor]]; simpl.
    - intros [H|[]]. discriminate.
    - intros []. }
  split; [exact Hnd|].
  destruct (cleanup_removes_exactly_stale_jobs (Fin 100000000) defaultMaxAge
              sampleJobs Hnd) as (H1 & H2 & _).
  rewrite H1, H2. split; reflexivity.
Defined.

End JobsFacts.

(** ** Playback and the timeline controls *)

Module PlaybackFacts.

Import Timeline Controls.

(** The timeline operations change neither the canvas, nor the scene, nor
    the easing: whether [renderFrame] throws is the same after them. *)
Lemma animate_renderFrameThrows (startTime now : num) (s : state) :
  renderFrameThrows (animate startTime now s) = renderFrameThrows s.
Proof.
  unfold animate. destruct (isPlaying s); [|reflexivity]. cbn [negb].
  cbv zeta. destruct (renderFrameThrows s) eqn:Hthrows.
  - destruct (jge _ _); exact Hthrows.
  - destruct (jge _ _); cbn [isPlaying renderFrame set_playing set_time];
      try (destruct (isPlaying s)); exact Hthrows.
Qed.

Lemma apply_renderFrameThrows (op : operation) (s : state) :
  renderFrameThrows (apply op s) = renderFrameThrows s.
Proof.
  destruct op as [now0 now1| | |time|now]; simpl.
  - unfold playPreview. destruct (isPlaying s); [reflexivity|].
    unfold startAnimation. now rewrite animate_renderFrameThrows.
  - reflexivity.
  - reflexivity.
  - reflexivity.
  - unfold tick. destruct (scheduled s); [|reflexivity].
    now rewrite animate_renderFrameThrows.
Qed.

(** What [animate] leaves of a playing timeline whose [renderFrame] does
    not throw: a callback is pending afterwards exactly when it is still
    playing. *)
Lemma animate_schedules (startTime now : num) (s : state) :
  isPlaying s = true -> renderFrameThrows s = false -> scheduled s = None ->
  (isPlaying (animate startTime now s) = true <->
   scheduled (animate startTime now s) <> None).
Proof.
  intros Hp Hthrows Hs. unfold animate. rewrite Hp, Hthrows. cbn [negb].
  cbv zeta.
  destruct (jge _ _); simpl.
  - rewrite Hs. split; [discriminate|congruence].
  - rewrite Hp. simpl. split; [discriminate|intros _; exact Hp].
Qed.

(** On a generator whose [renderFrame] does not throw (it has a preview
    canvas, and the easing name selects a property that can be called
    whenever there are routes to draw), an animation callback is pending
    exactly while the timeline is playing, whatever the operations and the
    clock: starting twice does not start a second loop, and pausing,
    stopping or reaching the end leave no callback behind. *)
Theorem callback_pending_iff_playing (s : state) (op : operation) :
  renderFrameThrows s = false ->
  (isPlaying s = true <-> scheduled s <> None) ->
  renderFrameThrows (apply op s) = false /\
  (isPlaying (apply op s) = true <-> scheduled (apply op s) <> None).
Proof.
  intros Hthrows Inv.
  split; [now rewrite apply_renderFrameThrows|].
  assert (Hidle : isPlaying s = false -> scheduled s = None).
  { intro Hp. destruct (scheduled s) as [st|] eqn:E; [|reflexivity].
    assert (isPlaying s = true) by (apply Inv; discriminate). congruence. }
  destruct op as [now0 now1| | |time|now]; simpl.
  - unfold playPreview. destruct (isPlaying s) eqn:Hp.
    + now rewrite Hp.
    + unfold startAnimation. apply animate_schedules.
      * reflexivity.
      * exact Hthrows.
      * exact (Hidle eq_refl).
  - unfold pausePreview. simpl. split; [discriminate|congruence].
  - unfold stopPreview. simpl. split; [discriminate|congruence].
  - unfold seekTo. simpl. exact Inv.
  - unfold tick. destruct (scheduled s) as [st|] eqn:E.
    + assert (Hp : isPlaying s = true) by (apply Inv; discriminate).
      apply animate_schedules.
      * exact Hp.
      * exact Hthrows.
      * reflexivity.
    + now rewrite E.
Qed.

(** The theorem at the first animation callback of a preview started from
    its initial state. *)
Lemma callback_pending_iff_playing_witness :
  let s := playPreview (Fin 0) (Fin 0) initial in
  renderFrameThrows s = false /\
  (isPlaying s = true <-> scheduled s <> None) /\
  (isPlaying (apply (Tick (Fin 40)) s) = true <->
   scheduled (apply (Tick (Fin 40)) s) <> None).
Proof.
  cbv zeta.
  assert (Hc : renderFrameThrows (playPreview (Fin 0) (Fin 0) initial) = false)
    by reflexivity.
  assert (H : isPlaying (playPreview (Fin 0) (Fin 0) initial) = true <->
              scheduled (playPreview (Fin 0) (Fin 0) initial) <> None).
  { split; [discriminate|reflexivity]. }
  split; [exact Hc|]. split; [exact H|].
  exact (proj2 (callback_pending_iff_playing _ (Tick (Fin 40)) Hc H)).
Defined.

(** A bare timeline without preview canvas: [playPreview] sets [isPlaying]
    and its first animation step throws in [renderFrame], so the timeline
    is playing and no callback is pending. *)
Lemma playing_without_callback :
  let s := playPreview (Fin 0) (Fin 0)
             {| hasPreviewCanvas := false; hasScene := false;
                isPlaying := false; currentTime := Fin 0;
                totalDuration := Fin 5000; playbackSpeed := Fin 1;
                easingFunction := "easeInOutCubic"; scheduled := None;
                exportProgress := Fin 0; isExporting := false;
                rendered := [] |} in
  isPlaying s = true /\ scheduled s = None.
Proof. split; reflexivity. Qed.



(** A seek during playback does not last: the next animation callback takes
    the position from the clock and the start reference of the playback, so
    it leaves the timeline exactly where it would be without the seek. *)
Theorem seek_during_playback_is_undone (s : state) (time now st : num) :
  scheduled s = Some st -> isPlaying s = true ->
  let kept := tick now s in
  let sought := tick now (seekTo time s) in
  currentTime sought = currentTime kept /\
  isPlaying sought = isPlaying kept /\
  scheduled sought = scheduled kept /\
  lastRendered sought = lastRendered kept.
Proof.
  intros Hsch Hp. cbv zeta. unfold tick, seekTo. simpl. rewrite Hsch.
  unfold animate. simpl. rewrite Hp. simpl.
  destruct (renderFrameThrows _); destruct (jge _ _); simpl;
    rewrite ?Hp; simpl;
    unfold lastRendered; simpl; rewrite !rev_app_distr; simpl;
    repeat split; reflexivity.
Qed.

(** The theorem at a playing preview: a seek to 4 s is gone 40 ms later. *)
Lemma seek_during_playback_is_undone_witness :
  let s := playPreview (Fin 0) (Fin 0) initial in
  scheduled s = Some (Fin (0 - 0 / 1)) /\ isPlaying s = true /\
  currentTime (seekTo (Fin 4000) s) = Fin 4000 /\
  currentTime (tick (Fin 40) (seekTo (Fin 4000) s))
  = currentTime (tick (Fin 40) s).
Proof.
  cbv zeta.
  assert (H1 : scheduled (playPreview (Fin 0) (Fin 0) initial)
               = Some (Fin (0 - 0 / 1))) by reflexivity.
  assert (H2 : isPlaying (playPreview (Fin 0) (Fin 0) initial) = true)
    by reflexivity.
  split; [exact H1|]. split; [exact H2|]. split; [reflexivity|].
  exact (proj1 (seek_during_playback_is_undone _ (Fin 4000) (Fin 40) _ H1 H2)).
Defined.


End PlaybackFacts.

(** ** The order and the range of the preview's strokes *)

Module DrawOrderFacts.

Import RouteTiming DrawOrder.

Lemma delay_before_lt (a b : route) (da db : Q) :
  delayOf a = Fin da -> delayOf b = Fin db ->
  delay_before a b = true <-> da < db.
Proof.
  unfold delay_before, delayOf. intros -> ->. simpl.
  rewrite Qlt_bool_iff. split; intro; lra.
Qed.

Lemma notAfter_le (a b : route) (da db : Q) :
  delayOf a = Fin da -> delayOf b = Fin db ->
  notAfter a b <-> da <= db.
Proof.
  unfold notAfter. intros -> ->. simpl. apply Qle_bool_iff.
Qed.

Lemma insert_route_perm (r : route) (sorted : list route) :
  Permutation (r :: sorted) (insert_route r sorted).
Proof.
  induction sorted as [|x rest IH]; simpl; [reflexivity|].
  destruct (delay_before r x); [reflexivity|].
  rewrite perm_swap. now constructor.
Qed.

Lemma insert_route_finite (r : route) (sorted : list route) :
  finiteDelay r -> Forall finiteDelay sorted ->
  Forall finiteDelay (insert_route r sorted).
Proof.
  intros Hr Hs. apply Forall_forall. intros x Hx.
  apply RouteTimingFacts.insert_route_In in Hx. destruct Hx as [->|Hx]; [exact Hr|].
  rewrite Forall_forall in Hs. now apply Hs.
Qed.

Lemma insert_route_sorted (r : route) (sorted : list route) :
  finiteDelay r -> Forall finiteDelay sorted ->
  StronglySorted notAfter sorted ->
  StronglySorted notAfter (insert_route r sorted).
Proof.
  intros [dr Hr] Hfin Hsorted.
  induction Hsorted as [|x rest Hrest IH Hx]; simpl.
  - constructor; constructor.
  - inversion Hfin as [|? ? [dx Hdx] Hfin']; subst.
    destruct (delay_before r x) eqn:E.
    + apply (delay_before_lt r x dr dx Hr Hdx) in E.
      constructor; [now constructor|].
      constructor.
      * apply (notAfter_le r x dr dx Hr Hdx). lra.
      * rewrite Forall_forall in *. intros y Hy.
        destruct (Hfin' y Hy) as [dy Hdy].
        apply (notAfter_le r y dr dy Hr Hdy).
        pose proof (proj1 (notAfter_le x y dx dy Hdx Hdy) (Hx y Hy)). lra.
    + assert (Hle : dx <= dr).
      { destruct (Qlt_le_dec dr dx) as [Hlt|Hle]; [|exact Hle].
        apply (delay_before_lt r x dr dx Hr Hdx) in Hlt. congruence. }
      constructor; [now apply IH|].
      apply Forall_forall. intros y Hy.
      apply RouteTimingFacts.insert_route_In in Hy. destruct Hy as [->|Hy].
      * now apply (notAfter_le x r dx dr Hdx Hr).
      * rewrite Forall_forall in Hx. now apply Hx.
Qed.

Lemma filter_later (d : Q) (x : route) (rest : list route) (dx : Q) :
  delayOf x = Fin dx -> d < dx -> Forall finiteDelay rest ->
  Forall (notAfter x) rest ->
  filter (hasDelay d) (x :: rest) = [].
Proof.
  intros Hdx Hlt Hfin Hx.
  assert (Hnone : forall y, In y (x :: rest) -> hasDelay d y = false).
  { intros y [<-|Hy].
    - unfold hasDelay. rewrite Hdx. apply Qeq_bool_false. lra.
    - rewrite Forall_forall in *. destruct (Hfin y Hy) as [dy Hdy].
      pose proof (proj1 (notAfter_le x y dx dy Hdx Hdy) (Hx y Hy)).
      unfold hasDelay. rewrite Hdy. apply Qeq_bool_false. lra. }
  induction (x :: rest) as [|y l IH]; simpl; [reflexivity|].
  rewrite (Hnone y (or_introl eq_refl)). apply IH.
  intros z Hz. apply Hnone. now right.
Qed.

Lemma insert_route_filter (d : Q) (r : route) (sorted : list route) :
  finiteDelay r -> Forall finiteDelay sorted ->
  StronglySorted notAfter sorted ->
  filter (hasDelay d) (insert_route r sorted) =
  (filter (hasDelay d) sorted ++ (if hasDelay d r then [r] else []))%list.
Proof.
  intros [dr Hr] Hfin Hsorted.
  induction Hsorted as [|x rest Hrest IH Hx].
  - simpl. now destruct (hasDelay d r).
  - inversion Hfin as [|? ? [dx Hdx] Hfin']; subst.
    cbn [insert_route]. destruct (delay_before r x) eqn:E.
    + apply (delay_before_lt r x dr dx Hr Hdx) in E.
      change (filter (hasDelay d) (r :: x :: rest))
        with (if hasDelay d r
              then r :: filter (hasDelay d) (x :: rest)
              else filter (hasDelay d) (x :: rest)).
      destruct (hasDelay d r) eqn:Hd; [|now rewrite app_nil_r].
      assert (Hdr : dr == d).
      { unfold hasDelay in Hd. rewrite Hr in Hd. now apply Qeq_bool_iff. }
      rewrite (filter_later d x rest dx Hdx) by (assumption || lra).
      reflexivity.
    + cbn [filter]. rewrite (IH Hfin').
      now destruct (hasDelay d x).
Qed.

Lemma sortByDelay_from (routes : list route) :
  forall acc,
    Forall finiteDelay acc -> StronglySorted notAfter acc ->
    Forall finiteDelay routes ->
    let sorted := fold_left (fun a r => insert_route r a) routes acc in
    Permutation (acc ++ routes)%list sorted /\
    StronglySorted notAfter sorted /\
    forall d, filter (hasDelay d) sorted =
              (filter (hasDelay d) acc ++ filter (hasDelay d) routes)%list.
Proof.
  induction routes as [|r rest IH]; intros acc Hacc Hsorted Hfin; cbn zeta.
  - simpl. rewrite app_nil_r. split; [reflexivity|]. split; [assumption|].
    intro d. now rewrite app_nil_r.
  - inversion Hfin as [|? ? Hr Hrest]; subst. simpl.
    destruct (IH (insert_route r acc)) as (HP & HS & HF).
    + now apply insert_route_finite.
    + now apply insert_route_sorted.
    + assumption.
    + split; [|split; [exact HS|]].
      * rewrite <- HP, <- insert_route_perm.
        now rewrite <- Permutation_middle.
      * intro d. rewrite HF, insert_route_filter by assumption.
        rewrite <- app_assoc. simpl. now destruct (hasDelay d r).
Qed.

(** The preview draws the routes in the order of their delays: the order
    it uses is a rearrangement of the route list in which no route comes
    after one of a larger delay, and routes of the same delay keep the order
    they have in the list. *)
Theorem routes_drawn_by_delay (routes : list route) :
  Forall finiteDelay routes ->
  Permutation routes (sortByDelay routes) /\
  StronglySorted notAfter (sortByDelay routes) /\
  forall d, filter (hasDelay d) (sortByDelay routes)
            = filter (hasDelay d) routes.
Proof.
  intro Hfin.
  destruct (sortByDelay_from routes [] (Forall_nil _) (SSorted_nil _) Hfin)
    as (HP & HS & HF).
  split; [exact HP|]. split; [exact HS|exact HF].
Qed.

(** The theorem at three routes: the one without delay is drawn first, the
    two of delay 500 after it in their order of the list. *)
Lemma routes_drawn_by_delay_witness :
  let a := Samples.timedRoute "a" 500 3000 in
  let b := Samples.timedRoute "b" 0 3000 in
  let c := Samples.timedRoute "c" 500 3000 in
  Forall finiteDelay [a; b; c] /\
  sortByDelay [a; b; c] = [b; a; c] /\
  filter (hasDelay 500) (sortByDelay [a; b; c]) = [a; c].
Proof.
  cbv zeta.
  assert (H : Forall finiteDelay
                [Samples.timedRoute "a" 500 3000;
                 Samples.timedRoute "b" 0 3000;
                 Samples.timedRoute "c" 500 3000]).
  { repeat constructor; eexists; reflexivity. }
  split; [exact H|]. split; [reflexivity|].
  rewrite (proj2 (proj2 (routes_drawn_by_delay _ H)) 500). reflexivity.
Defined.

(** Every stroke of the preview has a progress between 0 and 1.  For an
    easing of the table, a positive total duration and a global progress in
    [0, 1], [drawRoutesAtProgress] calls [drawRouteProgress] only for routes
    of the list that are visible and have two waypoints or more, and only
    with a progress in [0, 1], whatever their delays and their (positive)
    durations. *)
Theorem preview_progress_in_unit (s : Timeline.state) (routes : list route)
  (T p : Q) :
  Easing.supported (Timeline.easingFunction s) = true ->
  Timeline.totalDuration s = Fin T -> 0 < T -> 0 <= p <= 1 ->
  Forall finiteDelay routes -> Forall positiveDuration routes ->
  exists calls,
    drawRoutesAtProgress s routes (Fin p) = Some calls /\
    Forall (fun c => in_unit (drawn_progress c) /\
                     In (drawn_route c) routes /\
                     skipped (drawn_route c) = false) calls.
Proof.
  intros Hsup HT HTpos Hp Hdelay Hdur.
  destruct (EasingFacts.selectEasing_supported _ Hsup) as (f & Hsel & Hin).
  pose proof (EasingFacts.easingFunctions_law _ _ Hin) as law.
  unfold drawRoutesAtProgress. rewrite Hsel, HT.
  eexists. split; [reflexivity|]. apply Forall_forall. intros c Hc.
  destruct (RouteTimingFacts.forEachRoute_calls _ _ _ _ _ Hc)
    as (Hr & raw & Hraw & Hd).
  apply (proj1 (RouteTimingFacts.sortByDelay_In _ _)) in Hr.
  rewrite Forall_forall in Hdelay, Hdur.
  destruct (Hdelay _ Hr) as [d Hd1]. destruct (Hdur _ Hr) as (D & HD & HDpos).
  assert (He : in_unit (f (Fin p))).
  { apply (easing_range f law). now apply in_unit_Fin. }
  destruct (in_unit_inv _ He) as (e & Hfe & He01).
  rewrite Hfe in Hraw.
  unfold rawRouteProgress, routeStart, routeDuration in Hraw.
  unfold delayOf in Hd1. unfold durationOf in HD.
  destruct (skipped (drawn_route c)) eqn:Hskip; [discriminate|].
  rewrite Hd1, HD in Hraw. unfold jge in Hraw. simpl in Hraw.
  assert (HT0 : Qeq_bool T 0 = false) by (apply Qeq_bool_false; lra).
  rewrite HT0 in Hraw. simpl in Hraw.
  destruct (Qle_bool (d / T) e) eqn:Hstart; [|discriminate].
  apply Qle_bool_iff in Hstart.
  pose proof (RouteTimingFacts.Qdiv_pos D T HDpos HTpos) as Hw.
  assert (Hw0 : Qeq_bool (D / T) 0 = false) by (apply Qeq_bool_false; lra).
  rewrite Hw0 in Hraw.
  pose proof (RouteTimingFacts.Qdiv_cancel (e - d / T) (D / T) ltac:(lra))
    as Hx.
  set (x := (e - d / T) / (D / T)) in *.
  assert (Hx0 : 0 <= x) by nra.
  split; [|split; [exact Hr|reflexivity]].
  rewrite Hd. apply (easing_range f law).
  injection Hraw as <-. simpl.
  qcase (Qle_bool 1 x); apply in_unit_Fin; lra.
Qed.

(** The theorem at the first route of the sample scenario, a quarter into a
    timeline of five seconds. *)
Lemma preview_progress_in_unit_witness :
  let routes := [Samples.timedRoute "first" 0 5000] in
  Easing.supported (Timeline.easingFunction Timeline.initial) = true /\
  0 < 5000 /\ 0 <= 0.25 <= 1 /\
  Forall finiteDelay routes /\ Forall positiveDuration routes /\
  exists calls,
    drawRoutesAtProgress Timeline.initial routes (Fin 0.25) = Some calls /\
    Forall (fun c => in_unit (drawn_progress c) /\
                     In (drawn_route c) routes /\
                     skipped (drawn_route c) = false) calls.
Proof.
  cbv zeta.
  assert (H1 : Easing.supported (Timeline.easingFunction Timeline.initial)
               = true) by reflexivity.
  assert (H2 : 0 < 5000) by reflexivity.
  assert (H3 : 0 <= 0.25 <= 1) by (split; discriminate).
  assert (H4 : Forall finiteDelay [Samples.timedRoute "first" 0 5000]).
  { repeat constructor. eexists. reflexivity. }
  assert (H5 : Forall positiveDuration [Samples.timedRoute "first" 0 5000]).
  { repeat constructor. eexists. split; reflexivity. }
  split; [exact H1|]. split; [exact H2|]. split; [exact H3|].
  split; [exact H4|]. split; [exact H5|].
  exact (preview_progress_in_unit Timeline.initial _ 5000 0.25
           H1 eq_refl H2 H3 H4 H5).
Defined.

(** The marker of index [i] of [n] waypoints, at a finite progress that is
    not negative. *)
Lemma marker_painted_floor (n i : Z) (q : Q) :
  (0 <= i < n)%Z -> 0 <= q ->
  (0 <= Qfloor (inject_Z n * q))%Z /\
  (markerPainted false n (Fin q) i = true <->
   (i <= Qfloor (inject_Z n * q))%Z).
Proof.
  intros Hi Hp.
  assert (Hn : 0 < inject_Z n).
  { change 0 with (inject_Z 0). rewrite <- Zlt_Qlt. lia. }
  assert (Hi0 : 0 <= inject_Z i).
  { change 0 with (inject_Z 0). rewrite <- Zle_Qle. lia. }
  assert (Hi1 : inject_Z i + 1 <= inject_Z n).
  { change 1 with (inject_Z 1). rewrite <- inject_Z_plus, <- Zle_Qle. lia. }
  unfold markerPainted, visibleWaypoints, sliceEnd, of_Z.
  cbn [negb andb jmul jfloor jadd].
  set (k := Qfloor (inject_Z n * q)).
  assert (Hk0z : (0 <= k)%Z).
  { unfold k. rewrite <- (Qfloor_Z 0). apply Qfloor_resp_le.
    change (inject_Z 0) with 0. nra. }
  split; [exact Hk0z|].
  assert (Hk0 : 0 <= inject_Z k).
  { change 0 with (inject_Z 0). now rewrite <- Zle_Qle. }
  assert (Hik : inject_Z i < inject_Z k + 1 <-> (i <= k)%Z).
  { change 1 with (inject_Z 1). rewrite <- inject_Z_plus.
    rewrite <- Zlt_Qlt. lia. }
  assert (Hnk : inject_Z n <= inject_Z k + 1 <-> (n <= k + 1)%Z).
  { change 1 with (inject_Z 1). rewrite <- inject_Z_plus.
    rewrite <- Zle_Qle. reflexivity. }
  destruct (0 <=? i)%Z eqn:Ei; [|apply Z.leb_gt in Ei; lia].
  cbn [andb jmin jle].
  qcase (Qle_bool (inject_Z n) (inject_Z k + 1)); cbn [jlt jmin jle].
  - unfold Qlt_bool at 1.
    qcase (Qle_bool 0 (inject_Z n)); [|lra]. cbn [negb jmin jle].
    qcase (Qle_bool (inject_Z n) (inject_Z n)); [|lra]. cbn [jlt].
    rewrite Qlt_bool_iff. apply Hnk in E. split; intro; [lia|lra].
  - unfold Qlt_bool at 1.
    qcase (Qle_bool 0 (inject_Z k + 1)); [|lra]. cbn [negb jmin jle].
    qcase (Qle_bool (inject_Z k + 1) (inject_Z n)); [|lra]. cbn [jlt].
    rewrite Qlt_bool_iff. exact Hik.
Qed.



End DrawOrderFacts.

(** ** The export of the generator *)

Module ClientExportFacts.

Import Timeline Capture ClientExport.

(** An export that reports success has downloaded exactly one artifact, made
    from a frame list that is not empty, and has left the status 'completed'
    and the progress 100; it had a map and a route to export.  An export
    that reports failure has downloaded nothing and is not 'completed'. *)
Theorem export_downloads_exactly_once (a : app) (rec : recorder)
  (failing : option Z) (now0 now1 : num) (e : exporter) :
  let res := exportVideo a rec failing now0 now1 e in
  (success (fst res) = true ->
     (exists frames s1 blob,
        frames <> [] /\
        createVideoFromFrames rec s1 frames = Resolves blob /\
        downloaded (snd res) = (downloaded e ++ [blob])%list) /\
     exportStatus (snd res) = Completed /\
     exportProgress (timeline (snd res)) = Fin 100 /\
     hasMap a = true /\
     exists r, In r (currentRoutes a) /\ exportable r = true) /\
  (success (fst res) = false ->
     downloaded (snd res) = downloaded e /\
     exportStatus (snd res) <> Completed).
Proof.
  cbv zeta. unfold exportVideo.
  destruct (hasMap a); simpl; [|split; [discriminate|]; intros _; split;
                                 [reflexivity|discriminate]].
  destruct (filter exportable (currentRoutes a)) as [|r rest] eqn:Hroutes;
    simpl; [split; [discriminate|]; intros _; split;
            [reflexivity|discriminate]|].
  assert (Hr : exists r, In r (currentRoutes a) /\ exportable r = true).
  { exists r. apply filter_In. rewrite Hroutes. now left. }
  destruct (captureAnimationFrames failing now0 now1
              (set_exportProgress (Fin 0) (timeline e)))
    as [[[|f frames]|msg|] s1]; simpl;
    try (split; [discriminate|]; intros _; split;
         [reflexivity|discriminate]).
  destruct (createVideoFromFrames rec (set_exportProgress (Fin 80) s1)
              (f :: frames)) as [blob| |] eqn:Hmade; simpl;
    try (split; [discriminate|]; intros _; split;
         [reflexivity|discriminate]).
  split; [|discriminate]. intros _.
  split; [|split; [reflexivity|split; [reflexivity|split;
                                         [reflexivity|exact Hr]]]].
  exists (f :: frames), (set_exportProgress (Fin 80) s1), blob.
  split; [discriminate|]. split; [exact Hmade|reflexivity].
Qed.

(** The theorem at an export without a map. *)
Lemma export_downloads_exactly_once_witness :
  let a := {| hasMap := false; canvasRoutes := []; managerRoutes := None |} in
  let rec := {| webm := Rejects; alternative := Rejects |} in
  let e := {| timeline := initial; exportStatus := Idle; downloaded := [] |} in
  success (fst (exportVideo a rec None (Fin 0) (Fin 0) e)) = false /\
  downloaded (snd (exportVideo a rec None (Fin 0) (Fin 0) e)) = [] /\
  exportStatus (snd (exportVideo a rec None (Fin 0) (Fin 0) e)) <> Completed.
Proof.
  cbv zeta. split; [reflexivity|].
  exact (proj2 (export_downloads_exactly_once
                  {| hasMap := false; canvasRoutes := [];
                     managerRoutes := None |}
                  {| webm := Rejects; alternative := Rejects |}
                  None (Fin 0) (Fin 0)
                  {| timeline := initial; exportStatus := Idle;
                     downloaded := [] |}) eq_refl).
Defined.



End ClientExportFacts.

(** ** Editing the routes *)

Module EditingFacts.

Import Editing.

Lemma spliceFound_none {A : Type} (f : A -> bool) (l : list A) :
  spliceFound f l = None <-> existsb f l = false.
Proof.
  induction l as [|x rest IH]; simpl; [tauto|].
  destruct (f x); simpl; [split; discriminate|].
  destruct (spliceFound f rest); rewrite <- IH; split;
    congruence || discriminate.
Qed.

Lemma spliceFound_length {A : Type} (f : A -> bool) (l l' : list A) :
  spliceFound f l = Some l' -> List.length l = S (List.length l').
Proof.
  revert l'. induction l as [|x rest IH]; simpl; intros l' H;
    [discriminate|].
  destruct (f x); [now injection H as <-|].
  destruct (spliceFound f rest) as [rest'|]; [|discriminate].
  injection H as <-. simpl. now rewrite (IH rest').
Qed.

Lemma nth_error_replace_same {A : Type} (i : nat) (x : A) (l : list A) :
  (i < List.length l)%nat -> nth_error (replace i x l) i = Some x.
Proof.
  revert i. induction l as [|y rest IH]; intros [|i] H; simpl in *;
    try lia; [reflexivity|]. apply IH. lia.
Qed.

Lemma nth_error_replace_other {A : Type} (i j : nat) (x : A) (l : list A) :
  i <> j -> nth_error (replace i x l) j = nth_error l j.
Proof.
  revert i j. induction l as [|y rest IH]; intros [|i] [|j] H; simpl;
    try reflexivity; try congruence.
  apply IH. congruence.
Qed.

Lemma fold_count {A : Type} (f : A -> nat) (l : list A) (a : nat) :
  fold_left (fun sum x => (sum + f x)%nat) l a
  = (a + list_sum (map f l))%nat.
Proof.
  revert a. induction l as [|x rest IH]; intro a; simpl; [lia|].
  rewrite IH. lia.
Qed.

Lemma findIndex_split {A : Type} (f : A -> bool) (l : list A) (i : nat) :
  findIndex f l = Some i ->
  exists pre x post,
    l = (pre ++ x :: post)%list /\ f x = true /\
    removeAt i l = (pre ++ post)%list.
Proof.
  revert i. induction l as [|y rest IH]; simpl; intros i H; [discriminate|].
  destruct (f y) eqn:E.
  - injection H as <-. now exists [], y, rest.
  - destruct (findIndex f rest) as [k|]; [|discriminate].
    injection H as <-.
    destruct (IH k eq_refl) as (pre & x & post & -> & Hx & Hrm).
    exists (y :: pre), x, post. simpl. now rewrite Hrm.
Qed.

Lemma findIndex_found {A : Type} (f : A -> bool) (l : list A) (x : A) :
  In x l -> f x = true -> findIndex f l <> None.
Proof.
  induction l as [|y rest IH]; simpl; [contradiction|].
  intros [->|Hin] Hx.
  - rewrite Hx. discriminate.
  - destruct (f y); [discriminate|].
    specialize (IH Hin Hx). now destruct (findIndex f rest).
Qed.

(** What the loop of [removeWaypoint] comes to: nothing, when no route to
    visit has a waypoint that passes the test, and otherwise the erasure in
    one of the routes that have one. *)
Lemma removeWaypointLoop_result (w : waypoint) (e : editor)
  (pending : list nat) :
  (existsb (touches w e) pending = false /\
   removeWaypointLoop w pending e = e) \/
  (exists ref r wps,
     In ref pending /\ object e ref = Some r /\
     spliceFound (near w) (waypoints r) = Some wps /\
     removeWaypointLoop w pending e = eraseAt ref r wps e).
Proof.
  induction pending as [|ref rest IH]; simpl; [now left|].
  unfold touches at 1.
  destruct (object e ref) as [r|] eqn:Hr.
  - destruct (spliceFound (near w) (waypoints r)) as [wps|] eqn:Hs.
    + right. exists ref, r, wps. repeat split; auto.
    + apply spliceFound_none in Hs. rewrite Hs. simpl.
      destruct IH as [IH|(ref' & r' & wps & Hin & H1 & H2 & H3)];
        [now left|].
      right. exists ref', r', wps. repeat split; auto.
  - simpl. destruct IH as [IH|(ref' & r' & wps & Hin & H1 & H2 & H3)];
      [now left|].
    right. exists ref', r', wps. repeat split; auto.
Qed.

Lemma count_assign_same (ref : nat) (r : route) (e : editor) :
  (ref < List.length (ed_objects e))%nat ->
  object (assign ref r e) ref = Some r.
Proof. intro H. unfold object, assign. simpl. now apply nth_error_replace_same. Qed.

Lemma count_assign_other (ref x : nat) (r : route) (e : editor) :
  ref <> x -> object (assign ref r e) x = object e x.
Proof. intro H. unfold object, assign. simpl. now apply nth_error_replace_other. Qed.

Lemma counts_elsewhere (ref : nat) (r : route) (e : editor) (l : list nat) :
  ~ In ref l ->
  map (waypointCount (assign ref r e)) l = map (waypointCount e) l.
Proof.
  intro Hn. apply map_ext_in. intros x Hx. unfold waypointCount.
  rewrite count_assign_other; [reflexivity|]. intros ->. contradiction.
Qed.

Lemma near_itself (x y : Q) :
  near {| wp_x := Fin x; wp_y := Fin y |} {| wp_x := Fin x; wp_y := Fin y |}
  = true.
Proof.
  unfold near. cbn [wp_x wp_y jsub jabs jlt].
  apply andb_true_intro. split; apply Qlt_bool_iff;
    apply Qabs_Qlt_condition; split; lra.
Qed.

(** The erase tool.  If no listed route has a waypoint within 5 units of
    the given one in both coordinates, nothing changes.  Otherwise exactly
    one waypoint is removed: the total of the statistics goes down by one,
    no route is added, at most one route is removed from the list, and a
    route that the removal has emptied does not stay in the list.  The
    current route, if there still is one, is the one from before and is
    still listed.  A waypoint of a listed route is within 5 units of
    itself, so erasing a waypoint that was hit removes one. *)
Theorem erase_removes_one_waypoint (w : waypoint) (e : editor) :
  wellFormed e -> uniqueIds e ->
  let e' := removeWaypoint w e in
  ((forall ref, In ref (ed_routes e) -> touches w e ref = false) ->
     e' = e) /\
  ((exists ref, In ref (ed_routes e) /\ touches w e ref = true) ->
     (totalWaypoints e' + 1 = totalWaypoints e)%nat /\
     (forall ref, In ref (ed_routes e') ->
        In ref (ed_routes e) /\
        (waypointCount e' ref = 0 -> waypointCount e ref = 0)%nat) /\
     (totalRoutes e' = totalRoutes e \/
      totalRoutes e' + 1 = totalRoutes e)%nat /\
     (forall c, ed_current e' = Some c ->
        ed_current e = Some c /\
        (In c (ed_routes e) -> In c (ed_routes e')))) /\
  (forall ref r x y,
     object e ref = Some r ->
     In {| wp_x := Fin x; wp_y := Fin y |} (waypoints r) ->
     touches {| wp_x := Fin x; wp_y := Fin y |} e ref = true).
Proof.
  intros [Hnd Halloc] Hids e'. subst e'. unfold removeWaypoint.
  destruct (removeWaypointLoop_result w e (ed_routes e))
    as [[Hmiss Hsame]|(ref & r & wps & Hin & Hr & Hs & Hres)].
  - split; [intros _; exact Hsame|]. split.
    + intros (ref & Hin & Ht). exfalso.
      assert (existsb (touches w e) (ed_routes e) = true)
        by (apply existsb_exists; now exists ref).
      congruence.
    + intros ref r x y Hr Hin. unfold touches. rewrite Hr.
      apply existsb_exists. eexists. split; [exact Hin|apply near_itself].
  - split; [|split].
    + intro Hnone. exfalso. specialize (Hnone ref Hin).
      unfold touches in Hnone. rewrite Hr in Hnone.
      apply spliceFound_none in Hnone. congruence.
    + intros _. rewrite Hres. clear Hres.
      rewrite Forall_forall in Halloc. pose proof (Halloc ref Hin) as Href.
      pose proof (spliceFound_length _ _ _ Hs) as Hlen.
      destruct (in_split _ _ Hin) as (pre & post & Hsplit).
      assert (Hpre : ~ In ref pre /\ ~ In ref post).
      { rewrite Hsplit in Hnd. apply NoDup_remove_2 in Hnd.
        split; intro; apply Hnd; apply in_or_app; auto. }
      destruct Hpre as [Hpre Hpost].
      set (e1 := assign ref (with_waypoints wps r) e).
      assert (Hobj1 : object e1 ref = Some (with_waypoints wps r))
        by now apply count_assign_same.
      assert (Hc1 : waypointCount e1 ref = List.length wps).
      { unfold waypointCount. now rewrite Hobj1. }
      assert (Hc : waypointCount e ref = S (List.length wps)).
      { unfold waypointCount. now rewrite Hr. }
      assert (Hother : forall x, x <> ref ->
                waypointCount e1 x = waypointCount e x).
      { intros x Hx. unfold waypointCount, e1.
        rewrite count_assign_other; [reflexivity|congruence]. }
      assert (Htotal : totalWaypoints e
                = (list_sum (map (waypointCount e) pre)
                   + S (List.length wps)
                   + list_sum (map (waypointCount e) post))%nat).
      { unfold totalWaypoints. rewrite fold_count, Hsplit, map_app.
        simpl. rewrite list_sum_app. simpl. rewrite Hc. lia. }
      unfold eraseAt. fold e1. destruct wps as [|wp wps'].
      * (* the route is emptied and removed *)
        unfold removeRoute.
        assert (Hid1 : hasId e1 (route_id r) ref = true).
        { unfold hasId. rewrite Hobj1. simpl. apply String.eqb_refl. }
        destruct (findIndex (hasId e1 (route_id r)) (ed_routes e1))
          as [index|] eqn:Hfind;
          [|exfalso; exact (findIndex_found _ _ ref Hin Hid1 Hfind)].
        destruct (findIndex_split _ _ _ Hfind)
          as (pre' & x & post' & Hsplit' & Hx & Hrm).
        assert (Hxin : In x (ed_routes e)).
        { change (ed_routes e1) with (ed_routes e) in Hsplit'.
          rewrite Hsplit'. apply in_or_app. right. now left. }
        assert (Hxref : x = ref).
        { destruct (Nat.eq_dec x ref) as [Heq|Hne]; [exact Heq|].
          unfold hasId in Hx. unfold e1 in Hx.
          rewrite count_assign_other in Hx by congruence.
          destruct (object e x) as [rx|] eqn:Hrx; [|discriminate].
          apply String.eqb_eq in Hx.
          exact (Hids x ref rx r Hxin Hin Hrx Hr Hx). }
        subst x. change (ed_routes e1) with (ed_routes e) in Hsplit', Hrm.
        assert (Hpre' : ~ In ref pre' /\ ~ In ref post').
        { rewrite Hsplit' in Hnd. apply NoDup_remove_2 in Hnd.
          split; intro; apply Hnd; apply in_or_app; auto. }
        destruct Hpre' as [Hpre' Hpost'].
        assert (Hmap : forall E, ed_objects E = ed_objects e1 ->
                  map (waypointCount E) (pre' ++ post')%list
                  = map (waypointCount e) (pre' ++ post')%list).
        { intros E HE. apply map_ext_in. intros y Hy.
          transitivity (waypointCount e1 y).
          - unfold waypointCount, object. now rewrite HE.
          - apply Hother. intros ->. apply in_app_or in Hy. tauto. }
        split; [|split; [|split]].
        -- unfold totalWaypoints at 1. cbn [ed_routes].
           change (ed_routes e1) with (ed_routes e).
           rewrite Hrm, fold_count.
           rewrite (Hmap {| ed_objects := ed_objects e1;
                            ed_routes := (pre' ++ post')%list;
                            ed_current := _ |} eq_refl).
           unfold totalWaypoints. rewrite fold_count, Hsplit', !map_app.
           simpl. rewrite !list_sum_app. simpl. rewrite Hc. simpl. lia.
        -- cbn [ed_routes]. change (ed_routes e1) with (ed_routes e).
           intros y Hy. rewrite Hrm in Hy. split.
           ++ rewrite Hsplit'. apply in_app_or in Hy. apply in_or_app.
              destruct Hy; [now left|right; now right].
           ++ assert (Hy1 : waypointCount
                              {| ed_objects := ed_objects e1;
                                 ed_routes := removeAt index (ed_routes e);
                                 ed_current :=
                                   match ed_current e1 with
                                   | Some ref0 =>
                                       if hasId e1 (route_id r) ref0
                                       then None else Some ref0
                                   | None => None
                                   end |} y = waypointCount e y).
              { transitivity (waypointCount e1 y); [reflexivity|].
                apply Hother. intros ->. apply in_app_or in Hy. tauto. }
              rewrite Hy1. tauto.
        -- right. unfold totalRoutes. cbn [ed_routes].
           change (ed_routes e1) with (ed_routes e).
           rewrite Hrm, Hsplit', !length_app. simpl. lia.
        -- cbn [ed_routes ed_current].
           change (ed_routes e1) with (ed_routes e).
           change (ed_current e1) with (ed_current e).
           intros c Hcur.
           destruct (ed_current e) as [c0|]; [|discriminate].
           destruct (hasId e1 (route_id r) c0) eqn:Hc0; [discriminate|].
           injection Hcur as <-. split; [reflexivity|].
           intro Hcin. rewrite Hrm. rewrite Hsplit' in Hcin.
           apply in_app_or in Hcin. apply in_or_app.
           destruct Hcin as [H|[H|H]]; [now left| |now right].
           subst c0. congruence.
      * (* waypoints are left in the route *)
        split; [|split; [|split]].
        -- unfold totalWaypoints at 1. change (ed_routes e1) with (ed_routes e).
           rewrite fold_count, Hsplit, map_app. simpl.
           rewrite list_sum_app. simpl. rewrite Hc1.
           unfold e1. rewrite !counts_elsewhere by assumption.
           rewrite Htotal. simpl. lia.
        -- intros y Hy. change (ed_routes e1) with (ed_routes e) in Hy.
           split; [exact Hy|].
           destruct (Nat.eq_dec y ref) as [->|Hne].
           ++ rewrite Hc1. simpl. discriminate.
           ++ now rewrite Hother.
        -- left. reflexivity.
        -- intros c Hcur. split; [exact Hcur|]. tauto.
    + intros ref0 r0 x y Hr0 Hin0. unfold touches. rewrite Hr0.
      apply existsb_exists. eexists. split; [exact Hin0|apply near_itself].
Qed.

(** The theorem at the sample editor: erasing the only waypoint of the
    route being drawn removes that route, which is then no longer the
    current one. *)
Lemma erase_removes_one_waypoint_witness :
  let e' := removeWaypoint (Samples.wp 100 100) sampleEditor in
  wellFormed sampleEditor /\ uniqueIds sampleEditor /\
  (totalWaypoints e' + 1 = totalWaypoints sampleEditor)%nat /\
  ed_routes e' = [0%nat] /\ ed_current e' = None.
Proof.
  cbv zeta.
  assert (H1 : wellFormed sampleEditor).
  { split.
    - simpl. constructor; [|constructor; [|constructor]]; simpl.
      + intros [H|[]]. discriminate.
      + intros [].
    - simpl. repeat constructor. }
  assert (H2 : uniqueIds sampleEditor).
  { intros ref1 ref2 r1 r2 Hin1 Hin2 Hr1 Hr2 Hid.
    simpl in Hin1, Hin2.
    destruct Hin1 as [<-|[<-|[]]]; destruct Hin2 as [<-|[<-|[]]];
      try reflexivity;
      unfold object in Hr1, Hr2; simpl in Hr1, Hr2;
      injection Hr1 as <-; injection Hr2 as <-; simpl in Hid;
      discriminate. }
  split; [exact H1|]. split; [exact H2|].
  split; [|split; reflexivity].
  refine (proj1 (proj1 (proj2
    (erase_removes_one_waypoint (Samples.wp 100 100) sampleEditor H1 H2)) _)).
  exists 1%nat. split; [simpl; auto|reflexivity].
Defined.

Lemma replace_replace_same {A : Type} (i : nat) (x y : A) (l : list A) :
  nth_error l i = Some x -> replace i x (replace i y l) = l.
Proof.
  revert i. induction l as [|z rest IH]; intros [|i] H; simpl in *;
    try discriminate.
  - now injection H as ->.
  - now rewrite IH.
Qed.

Lemma find_same {A : Type} (f g : A -> bool) (l : list A) :
  (forall x, f x = g x) -> find f l = find g l.
Proof.
  intro H. induction l as [|x rest IH]; simpl; [reflexivity|].
  now rewrite H, IH.
Qed.

Lemma hasId_toggled (routeId : string) (ref : nat) (r : route) (v : bool)
  (e : editor) (x : nat) :
  object e ref = Some r ->
  hasId (assign ref (with_visible v r) e) routeId x = hasId e routeId x.
Proof.
  intro Hr. unfold hasId.
  assert (Hlt : (ref < List.length (ed_objects e))%nat).
  { apply nth_error_Some. unfold object in Hr. congruence. }
  destruct (Nat.eq_dec ref x) as [<-|Hne].
  - rewrite count_assign_same by exact Hlt. now rewrite Hr.
  - now rewrite count_assign_other.
Qed.

(** Toggling the visibility of a route twice gives back the editor as it
    was; one toggle flips the first listed route of that id, in place, so
    that the current route shows the change when it is that route, and
    touches neither the other routes nor the list. *)
Theorem toggle_twice_restores (routeId : string) (e : editor) :
  toggleRouteVisibility routeId (toggleRouteVisibility routeId e) = e /\
  ed_routes (toggleRouteVisibility routeId e) = ed_routes e /\
  ed_current (toggleRouteVisibility routeId e) = ed_current e /\
  (forall ref r,
     find (hasId e routeId) (ed_routes e) = Some ref ->
     object e ref = Some r ->
     object (toggleRouteVisibility routeId e) ref
     = Some (with_visible (negb (visible r)) r) /\
     forall x, x <> ref ->
       object (toggleRouteVisibility routeId e) x = object e x).
Proof.
  unfold toggleRouteVisibility at 2 3 4 5 6.
  destruct (find (hasId e routeId) (ed_routes e)) as [ref|] eqn:Hfind.
  - destruct (object e ref) as [r|] eqn:Hr.
    + assert (Hlt : (ref < List.length (ed_objects e))%nat).
      { apply nth_error_Some. unfold object in Hr. congruence. }
      split; [|split; [reflexivity|split; [reflexivity|]]].
      * unfold toggleRouteVisibility.
        cbn [ed_routes assign].
        rewrite (find_same _ (hasId e routeId))
          by (intro x; now apply hasId_toggled).
        rewrite Hfind, count_assign_same by exact Hlt.
        unfold assign. cbn [ed_objects ed_routes ed_current visible].
        assert (Hback : with_visible
                          (negb (visible (with_visible (negb (visible r)) r)))
                          (with_visible (negb (visible r)) r) = r).
        { destruct r; unfold with_visible; simpl.
          now rewrite negb_involutive. }
        rewrite Hback, replace_replace_same by exact Hr.
        now destruct e.
      * intros ref0 r0 [= <-] Hr0. rewrite Hr in Hr0.
        injection Hr0 as <-. split.
        -- now apply count_assign_same.
        -- intros x Hx. apply count_assign_other. congruence.
    + split; [|split; [reflexivity|split; [reflexivity|]]].
      * unfold toggleRouteVisibility. now rewrite Hfind, Hr.
      * intros ref0 r0 [= <-]. congruence.
  - split; [|split; [reflexivity|split; [reflexivity|]]].
    + unfold toggleRouteVisibility. now rewrite Hfind.
    + discriminate.
Qed.

End EditingFacts.

(** ** The easing table *)

Module EasingTableFacts.

(** The easing table has eight entries, and each of them takes 0 to 0 and 1
    to 1, so that an animation begins and ends where it should under every
    easing; a name of the table selects its entry.  [linear] is the
    identity, the entries [easeInOut] and [easeInOutQuad] are the same
    function, and the two symmetric easings pass through 1/2 at 1/2. *)
Theorem easing_table_endpoints :
  List.length Easing.easingFunctions = 8%nat /\
  Forall (fun entry => snd entry (Fin 0) =n= Fin 0 /\
                       snd entry (Fin 1) =n= Fin 1) Easing.easingFunctions /\
  (forall name,
     Easing.supported name = true ->
     exists f, Easing.selectEasing name = Easing.EasingFn f /\
               In (name, f) Easing.easingFunctions /\
               f (Fin 0) =n= Fin 0 /\ f (Fin 1) =n= Fin 1) /\
  (forall t, Easing.linear t = t) /\
  (forall t, Easing.easeInOut t = Easing.easeInOutQuad t) /\
  Easing.easeInOutQuad (Fin 0.5) =n= Fin 0.5 /\
  Easing.easeInOutCubic (Fin 0.5) =n= Fin 0.5.
Proof.
  assert (Hends : Forall (fun entry => snd entry (Fin 0) =n= Fin 0 /\
                                       snd entry (Fin 1) =n= Fin 1)
                    Easing.easingFunctions).
  { unfold Easing.easingFunctions.
    repeat constructor; vm_compute; reflexivity. }
  split; [reflexivity|]. split; [exact Hends|]. split; [|repeat split].
  intros name Hsup.
  destruct (EasingFacts.selectEasing_supported name Hsup) as (f & Hsel & Hin).
  exists f. split; [exact Hsel|]. split; [exact Hin|].
  exact (proj1 (Forall_forall _ _) Hends (name, f) Hin).
Qed.

(** The theorem at the easing a fresh generator uses. *)
Lemma easing_table_endpoints_witness :
  Easing.supported "easeInOutCubic" = true /\
  exists f, Easing.selectEasing "easeInOutCubic" = Easing.EasingFn f /\
            f (Fin 1) =n= Fin 1.
Proof.
  assert (H : Easing.supported "easeInOutCubic" = true) by reflexivity.
  split; [exact H|].
  destruct (proj1 (proj2 (proj2 easing_table_endpoints)) "easeInOutCubic" H)
    as (f & Hsel & _ & _ & H1).
  exists f. split; [exact Hsel|exact H1].
Defined.

End EasingTableFacts.

(** ** The end of a job *)

Module LifecycleFacts.

Import Server.

(** How processing leaves a job, whatever its data, the modules that are
    loaded and the errors of the file system and of the encoder.  The job
    is completed, with progress 100, an output file and no error, which
    takes valid data; or it is in error, with a message and without an
    output file; or, and only on the video tier when the number of frames
    is [Infinity] (a total duration or a frame rate of [Infinity]), its
    frame loop does not end and the job stays in [processing] at progress
    50, without output and without error.  A job whose frame loop ends is
    settled: completed or in error.  Its id and its data are untouched. *)
Theorem job_ends_settled (caps : capabilities) (env : environment)
  (id : string) (data : videoData) :
  let j := processVideo caps env (newJob id data) in
  let N := serverTotalFrames (Some (vd_fps data)) (vd_totalDuration data) in
  job_id j = id /\ job_data j = data /\
  ((status j = Completed /\ progress j = Fin 100 /\ outputFile j <> None /\
    job_error j = None /\ valid data) \/
   (status j = Errored /\ outputFile j = None /\ job_error j <> None) \/
   (status j = Processing /\ progress j = Fin 50 /\ outputFile j = None /\
    job_error j = None /\ valid data /\ selectedTier caps = RealVideo /\
    frameWriteError env = None /\ Capture.iterations N = None)) /\
  (Capture.iterations N <> None ->
     status j = Completed \/ status j = Errored).
Proof.
  cbv zeta.
  assert (Hgoal :
    let j := processVideo caps env (newJob id data) in
    let N := serverTotalFrames (Some (vd_fps data)) (vd_totalDuration data) in
    job_id j = id /\ job_data j = data /\
    ((status j = Completed /\ progress j = Fin 100 /\ outputFile j <> None /\
      job_error j = None /\ valid data) \/
     (status j = Errored /\ outputFile j = None /\ job_error j <> None) \/
     (status j = Processing /\ progress j = Fin 50 /\ outputFile j = None /\
      job_error j = None /\ valid data /\ selectedTier caps = RealVideo /\
      frameWriteError env = None /\ Capture.iterations N = None))).
  { cbv zeta. unfold processVideo, startProcessing. cbn [newJob with_status
      job_data job_id status progress job_error outputFile].
    destruct (vd_routes data) as [|r routes] eqn:Hroutes.
    { simpl. split; [reflexivity|split; [reflexivity|]]. right. left.
      repeat split; discriminate. }
    destruct (vd_mapImage data) as [img|] eqn:Himg.
    2:{ simpl. split; [reflexivity|split; [reflexivity|]]. right. left.
        repeat split; discriminate. }
    assert (Hvalid : valid data).
    { unfold valid. rewrite Hroutes, Himg. split; discriminate. }
    unfold finishProcessing.
    change (status (with_status Processing (Fin 20)
                      (with_status Processing (Fin 10) (newJob id data))))
      with Processing.
    cbv iota.
    destruct (createCanvas caps && ffmpeg caps) eqn:Hcaps.
    - match goal with
      | |- context [generateRealVideo env ?k] =>
          destruct (TierFacts.generateRealVideo_ends env k)
            as (Hid & Hdata & Hw & Hinf & Hfin);
          set (j' := generateRealVideo env k) in *
      end.
      unfold with_status, newJob in Hid, Hdata, Hw, Hinf, Hfin.
      cbn [job_data job_id outputFile job_error] in Hid, Hdata, Hw, Hinf, Hfin.
      split; [exact Hid|]. split; [exact Hdata|].
      destruct (frameWriteError env) as [msg|] eqn:Ew.
      + destruct (Hw msg eq_refl) as (H1 & H2 & H3).
        right. left. split; [exact H1|]. split; [exact H3|].
        rewrite H2. discriminate.
      + destruct (Capture.iterations
                    (serverTotalFrames (Some (vd_fps data))
                       (vd_totalDuration data))) as [n|] eqn:En.
        * assert (Hn : Some n <> None) by discriminate.
          destruct (encodeError env) as [msg|] eqn:Ee.
          -- destruct (proj1 (Hfin eq_refl Hn) msg eq_refl) as (H1 & H2 & H3).
             right. left. split; [exact H1|]. split; [exact H3|].
             rewrite H2. discriminate.
          -- destruct (proj2 (Hfin eq_refl Hn) eq_refl)
               as (H1 & H2 & H3 & H4).
             left. split; [exact H1|]. split; [exact H2|].
             split; [rewrite H4; discriminate|]. split; [exact H3|exact Hvalid].
        * destruct (Hinf eq_refl eq_refl) as (H1 & H2 & H3 & H4).
          right. right. split; [exact H1|]. split; [exact H2|].
          split; [exact H4|]. split; [exact H3|]. split; [exact Hvalid|].
          split; [|split; reflexivity].
          unfold selectedTier. now rewrite Hcaps.
    - unfold generateEnhancedFallback, generateStaticRouteImage,
        generateEnhancedManifest.
      destruct (createCanvas caps), (staticImageError env),
        (manifestWriteError env); simpl;
        (split; [reflexivity|split; [reflexivity|]]);
        solve [ left; split; [reflexivity|]; split; [reflexivity|];
                split; [discriminate|]; split; [reflexivity|exact Hvalid]
              | right; left; repeat split; discriminate ]. }
  cbv zeta in Hgoal. destruct Hgoal as (H1 & H2 & H3).
  split; [exact H1|]. split; [exact H2|]. split; [exact H3|].
  intro Hn.
  destruct H3 as [(Hc & _)|[(He & _)|(_ & _ & _ & _ & _ & _ & _ & Hinf)]].
  - now left.
  - now right.
  - contradiction.
Qed.

(** The theorem at a job of the sample data with canvas and encoder: its
    frame loop ends, and it is completed. *)
Lemma job_ends_settled_witness :
  let caps := {| createCanvas := true; ffmpeg := true |} in
  let env := {| frameWriteError := None; encodeError := None;
                staticImageError := None; manifestWriteError := None |} in
  Capture.iterations
    (serverTotalFrames (Some (vd_fps Samples.sampleData))
       (vd_totalDuration Samples.sampleData)) <> None /\
  status (processVideo caps env (newJob "job-1" Samples.sampleData))
  = Completed.
Proof.
  cbv zeta.
  assert (Hn : Capture.iterations
                 (serverTotalFrames (Some (vd_fps Samples.sampleData))
                    (vd_totalDuration Samples.sampleData)) <> None)
    by (vm_compute; discriminate).
  split; [exact Hn|].
  destruct (proj2 (proj2 (proj2
              (job_ends_settled {| createCanvas := true; ffmpeg := true |}
                 {| frameWriteError := None; encodeError := None;
                    staticImageError := None; manifestWriteError := None |}
                 "job-1" Samples.sampleData))) Hn) as [H|H].
  - exact H.
  - vm_compute in H. discriminate H.
Defined.

End LifecycleFacts.
